(** * Trigger and delivery core of the campaign bot

    A shallow embedding of the matching, rate-limiting, conversation and
    dispatch code of the bot, together with the properties its specification
    states about them.

    - [utils/keyword-matcher.js]: [normalizeText], [containsKeyword],
      [matchKeywords];
    - [services/ratelimit.service.js]: [checkRateLimit], [updateRateLimit],
      [blockUser];
    - the conversation service: [createConversation],
      [updateConversationStatus], [incrementMessagesSent],
      [getActiveConversation], [completeConversation], [failConversation];
    - [services/campaign.service.js]: [detectCampaign];
    - [services/message.service.js]: [getCampaignMessages], [buildMediaUrl],
      [sendSequentialMessages] and the per-type senders;
    - the chat service: [handleIncomingMessage].

    JavaScript strings are sequences of UTF-16 code units; they are modelled
    as [list N].  Asynchronous functions that can throw are computations in a
    state-and-exception monad over a [World] holding the database tables, the
    clock and what the chat client has delivered. *)

From Stdlib Require Import NArith ZArith Ascii String List Bool Sorted Lia.
From stdpp Require Import base option list gmap.

Local Open Scope N_scope.

(** ** JavaScript strings *)

Abbreviation jsstring := (list N).

(** A string literal, for ASCII text. *)
Definition js (s : string) : jsstring :=
  List.map N_of_ascii (list_ascii_of_string s).

Definition jsstring_eqb (a b : jsstring) : bool := bool_decide (a = b).

(** [p] is a prefix of [s], code unit by code unit. *)
Fixpoint startsWith (s p : jsstring) : bool :=
  match p, s with
  | [], _ => true
  | _ :: _, [] => false
  | c :: p', d :: s' => (c =? d) && startsWith s' p'
  end.

(** [String.prototype.includes]: [p] occurs in [s] as a contiguous run. *)
Fixpoint includes (s p : jsstring) : bool :=
  startsWith s p ||
  match s with
  | [] => false
  | _ :: s' => includes s' p
  end.

(** [String.prototype.split] on a one-unit separator.  The result is never
    empty: splitting the empty string gives one empty piece. *)
Fixpoint split (sep : N) (s : jsstring) : list jsstring :=
  match s with
  | [] => [[]]
  | c :: s' =>
      if c =? sep then [] :: split sep s'
      else match split sep s' with
           | w :: ws => (c :: w) :: ws
           | [] => [[c]]
           end
  end.

(** [Array.prototype.includes] on an array of strings. *)
Definition array_includes (a : list jsstring) (w : jsstring) : bool :=
  existsb (jsstring_eqb w) a.

Definition SPACE : N := 32.

(** The class [\s] of a regular expression, which is also what [trim]
    removes: white space and line terminators. *)
Definition is_whitespace (c : N) : bool :=
  ((9 <=? c) && (c <=? 13)) || (c =? 32) || (c =? 160) || (c =? 5760)
  || ((8192 <=? c) && (c <=? 8202)) || (c =? 8232) || (c =? 8233)
  || (c =? 8239) || (c =? 8287) || (c =? 12288) || (c =? 65279).

(** The class of code units U+0300 to U+036F, the combining diacritical
    marks. *)
Definition is_combining_mark (c : N) : bool := (768 <=? c) && (c <=? 879).

(** The punctuation class of [normalizeText]: inverted and plain exclamation
    and question marks, full stop, comma, semicolon, colon, round, square and
    curly brackets, apostrophe, double quote, acute accent, grave accent,
    tilde and hyphen. *)
Definition punctuation : list N :=
  [ 161; 33; 191; 63; 46; 44; 59; 58; 40; 41; 91; 93; 123; 125; 39; 34;
    180; 96; 126; 45 ].

Definition is_punctuation (c : N) : bool := existsb (N.eqb c) punctuation.

(** Removal of every combining diacritical mark. *)
Definition strip_marks (s : jsstring) : jsstring :=
  List.filter (fun c => negb (is_combining_mark c)) s.

(** Replacement of every punctuation unit by a space. *)
Definition replace_punctuation (s : jsstring) : jsstring :=
  List.map (fun c => if is_punctuation c then SPACE else c) s.

(** Replacement of the pattern [\s+] by a space: every maximal run of white
    space becomes one space, emitted at the last unit of the run. *)
Fixpoint collapse_whitespace (s : jsstring) : jsstring :=
  match s with
  | [] => []
  | c :: s' =>
      if is_whitespace c then
        match s' with
        | d :: _ => if is_whitespace d then collapse_whitespace s'
                    else SPACE :: collapse_whitespace s'
        | [] => [SPACE]
        end
      else c :: collapse_whitespace s'
  end.

Fixpoint trimStart (s : jsstring) : jsstring :=
  match s with
  | [] => []
  | c :: s' => if is_whitespace c then trimStart s' else s
  end.

Definition trimEnd (s : jsstring) : jsstring := rev (trimStart (rev s)).

(** [String.prototype.trim] *)
Definition trim (s : jsstring) : jsstring := trimEnd (trimStart s).

(** ** The Unicode tables of the runtime

    [toLowerCase] and [normalize] in form NFD are built into the JavaScript
    runtime and driven by the Unicode character database.  The matcher is
    defined over any implementation of the two. *)

Class UnicodeRuntime := {
  toLowerCase : jsstring -> jsstring;
  normalizeNFD : jsstring -> jsstring
}.

(** ** utils/keyword-matcher.js *)

Section KeywordMatcher.
Context {U : UnicodeRuntime}.

Definition normalizeText (text : jsstring) : jsstring :=
  match text with
  | [] => []
  | _ =>
      trim (collapse_whitespace (replace_punctuation (strip_marks
        (normalizeNFD (toLowerCase text)))))
  end.

Definition containsKeyword (normalizedMessage normalizedKeyword : jsstring)
  : bool :=
  if includes normalizedMessage normalizedKeyword then true
  else
    let keywordWords :=
      List.filter (fun w => negb (Nat.eqb (length w) 0))
                  (split SPACE normalizedKeyword) in
    let messageWords := split SPACE normalizedMessage in
    forallb (fun word => array_includes messageWords word) keywordWords.

(** A rule set as parsed from the campaign's JSON document.  A field is
    [None] when it is absent or not an array (for [synonyms]: not an
    object); [synonyms] lists the entries in the order of [Object.entries],
    and a synonym list that is not an array is [None]. *)
Record KeywordRuleSet := {
  exact_matches : option (list jsstring);
  keywords : option (list jsstring);
  synonyms : option (list (jsstring * option (list jsstring)));
  excluded_words : option (list jsstring)
}.

Inductive MatchType := EXACT | KEYWORD | SYNONYM.

Record MatchResult := { matched : jsstring; type : MatchType }.

(** The body of the loop over [excluded_words]: some entry, once
    normalized, occurs in the normalized message. *)
Definition excluded_hit (normalizedMessage : jsstring)
  (words : list jsstring) : bool :=
  existsb (fun word => includes normalizedMessage (normalizeText word)) words.

(** The first step: [excluded_words] is an array and one of its entries
    hits. *)
Definition vetoed (normalizedMessage : jsstring) (rules : KeywordRuleSet)
  : bool :=
  match excluded_words rules with
  | Some words => excluded_hit normalizedMessage words
  | None => false
  end.

(** The loops over [exact_matches] and [keywords]: the first entry that
    [containsKeyword] accepts. *)
Definition first_contained (normalizedMessage : jsstring)
  (phrases : list jsstring) : option jsstring :=
  List.find (fun phrase =>
               containsKeyword normalizedMessage (normalizeText phrase))
            phrases.

(** The loop over the entries of [synonyms]: the main word of the first
    entry whose main word, or one of whose synonyms, occurs in the
    message. *)
Definition synonym_hit (normalizedMessage : jsstring)
  (entry : jsstring * option (list jsstring)) : bool :=
  includes normalizedMessage (normalizeText (fst entry)) ||
  match snd entry with
  | Some synonymList =>
      existsb (fun synonym =>
                 includes normalizedMessage (normalizeText synonym))
              synonymList
  | None => false
  end.

Definition matchKeywords (messageText : jsstring)
  (triggerKeywords : option KeywordRuleSet) : option MatchResult :=
  match messageText, triggerKeywords with
  | [], _ => None
  | _, None => None
  | _, Some rules =>
      let normalizedMessage := normalizeText messageText in
      if vetoed normalizedMessage rules then None
      else
        match from_option (first_contained normalizedMessage) None
                          (exact_matches rules) with
        | Some phrase => Some {| matched := phrase; type := EXACT |}
        | None =>
            match from_option (first_contained normalizedMessage) None
                              (keywords rules) with
            | Some keyword =>
                Some {| matched := keyword; type := KEYWORD |}
            | None =>
                match from_option
                        (List.find (synonym_hit normalizedMessage)) None
                        (synonyms rules) with
                | Some entry =>
                    Some {| matched := fst entry; type := SYNONYM |}
                | None => None
                end
            end
        end
  end.

End KeywordMatcher.

(** ** A tabulated runtime

    An implementation of the two built-ins from a part of the Unicode
    character database: case mapping and canonical decomposition for Basic
    Latin and Latin-1 Supplement (U+0000 to U+00FF), canonical decomposition
    and combining classes for the Combining Diacritical Marks (U+0300 to
    U+036F), and the combining classes of the Hebrew points U+05B0 to U+05B9.
    Every other code unit is taken as a caseless starter without
    decomposition, so the instance computes what the runtime computes on
    strings drawn from the tabulated blocks. *)

Definition in_range (lo hi c : N) : bool := (lo <=? c) && (c <=? hi).

(** Lower case of one unit: A to Z, and the capital letters of Latin-1
    (U+00C0 to U+00DE without the multiplication sign). *)
Definition lower_unit (c : N) : N :=
  if in_range 65 90 c || (in_range 192 222 c && negb (c =? 215))
  then c + 32 else c.

(** Full canonical decompositions. *)
Definition decomposition_table : list (N * list N) :=
  [ (192, [65; 768]); (193, [65; 769]); (194, [65; 770]); (195, [65; 771]);
    (196, [65; 776]); (197, [65; 778]); (199, [67; 807]); (200, [69; 768]);
    (201, [69; 769]); (202, [69; 770]); (203, [69; 776]); (204, [73; 768]);
    (205, [73; 769]); (206, [73; 770]); (207, [73; 776]); (209, [78; 771]);
    (210, [79; 768]); (211, [79; 769]); (212, [79; 770]); (213, [79; 771]);
    (214, [79; 776]); (217, [85; 768]); (218, [85; 769]); (219, [85; 770]);
    (220, [85; 776]); (221, [89; 769]); (224, [97; 768]); (225, [97; 769]);
    (226, [97; 770]); (227, [97; 771]); (228, [97; 776]); (229, [97; 778]);
    (231, [99; 807]); (232, [101; 768]); (233, [101; 769]); (234, [101; 770]);
    (235, [101; 776]); (236, [105; 768]); (237, [105; 769]);
    (238, [105; 770]); (239, [105; 776]); (241, [110; 771]);
    (242, [111; 768]); (243, [111; 769]); (244, [111; 770]);
    (245, [111; 771]); (246, [111; 776]); (249, [117; 768]);
    (250, [117; 769]); (251, [117; 770]); (252, [117; 776]);
    (253, [121; 769]); (255, [121; 776]);
    (832, [768]); (833, [769]); (835, [787]); (836, [776; 769]) ].

Fixpoint assoc_lookup {A} (c : N) (table : list (N * A)) : option A :=
  match table with
  | [] => None
  | (k, v) :: rest => if c =? k then Some v else assoc_lookup c rest
  end.

Definition decompose (c : N) : list N :=
  match assoc_lookup c decomposition_table with
  | Some d => d
  | None => [c]
  end.

(** Canonical combining classes, by range; zero elsewhere. *)
Definition combining_class_table : list (N * N * N) :=
  [ (768, 788, 230); (789, 789, 232); (790, 793, 220); (794, 794, 232);
    (795, 795, 216); (796, 800, 220); (801, 802, 202); (803, 806, 220);
    (807, 808, 202); (809, 819, 220); (820, 824, 1); (825, 828, 220);
    (829, 836, 230); (837, 837, 240); (838, 838, 230); (839, 841, 220);
    (842, 844, 230); (845, 846, 220); (848, 850, 230); (851, 854, 220);
    (855, 855, 230); (856, 856, 232); (857, 858, 220); (859, 859, 230);
    (860, 860, 233); (861, 862, 234); (863, 863, 233); (864, 865, 234);
    (866, 866, 233); (867, 879, 230);
    (1456, 1456, 10); (1457, 1457, 11); (1458, 1458, 12); (1459, 1459, 13);
    (1460, 1460, 14); (1461, 1461, 15); (1462, 1462, 16); (1463, 1463, 17);
    (1464, 1464, 18); (1465, 1465, 19) ].

Fixpoint range_lookup (c : N) (table : list (N * N * N)) : N :=
  match table with
  | [] => 0
  | (lo, hi, k) :: rest => if in_range lo hi c then k else range_lookup c rest
  end.

Definition combining_class (c : N) : N := range_lookup c combining_class_table.

(** Canonical ordering, one unit at a time: a unit of non-zero class moves
    left past the units of greater class that precede it.  [placed] is the
    text already ordered, last unit first. *)
Fixpoint place_unit (c : N) (placed : list N) : list N :=
  match placed with
  | [] => [c]
  | a :: rest =>
      if (0 <? combining_class c) && (combining_class c <? combining_class a)
      then a :: place_unit c rest
      else c :: placed
  end.

Definition canonical_order (s : jsstring) : jsstring :=
  rev (fold_left (fun placed c => place_unit c placed) s []).

Definition tabulated_nfd (s : jsstring) : jsstring :=
  canonical_order (flat_map decompose s).

Definition tabulated_runtime : UnicodeRuntime :=
  {| toLowerCase := List.map lower_unit; normalizeNFD := tabulated_nfd |}.

(** ** The world the services run in

    The tables of the database the services query, the wall clock, the
    configuration, and what the chat client has delivered so far.  Every call
    that leaves the process (a database query, a send through the chat
    client, an HTTP download, a contact lookup) is numbered; [faults] scripts
    which of them fail, and with which error message.  The clock moves only
    when the code sleeps. *)

Local Open Scope Z_scope.

Record RateLimitRow := {
  is_blocked : bool;
  blocked_reason : option jsstring;
  blocked_at : option Z;
  blocked_until : option Z;
  trigger_count_hour : Z;
  trigger_count_day : Z;
  trigger_count_total : Z;
  last_trigger_at : option Z
}.

Inductive Status := INITIATED | IN_PROGRESS | COMPLETED | FAILED | CANCELLED.

Record ConversationRow := {
  user_phone : jsstring;
  user_name : jsstring;
  conv_campaign_id : Z;
  trigger_message : jsstring;
  matched_keyword : jsstring;
  match_type : MatchType;
  corse : option jsstring;
  status : Status;
  messages_sent : Z;
  conversation_started_at : Z;
  last_message_sent_at : option Z;
  conversation_ended_at : option Z;
  failure_reason : option jsstring
}.

(** The [trigger_keywords] column: a string that [JSON.parse] rejects, or a
    document. *)
Inductive StoredRules :=
| Unparsable
| Document (rules : option KeywordRuleSet).

Record CampaignRow := {
  campaign_id : Z;
  campaign_name : jsstring;
  trigger_keywords : StoredRules;
  priority : Z;
  campaign_is_active : bool;
  campaign_deleted_at : option Z
}.

(** A row of [messages] joined with its [message_types] row. *)
Record MessageRow := {
  message_id : Z;
  message_campaign_id : Z;
  type_code : jsstring;
  content : option jsstring;
  sort_order : Z;
  delay_seconds : Z;
  message_is_active : bool;
  message_deleted_at : option Z
}.

Record MediaRow := {
  media_id : Z;
  media_message_id : Z;
  media_type : jsstring;
  file_path : jsstring;
  file_name : jsstring;
  media_sort_order : Z;
  mime_type : option jsstring;
  media_deleted_at : option Z
}.

(** The identifier the chat client gives a delivered message, or the
    placeholder a gallery reports when none of its images went out. *)
Inductive WhatsappId :=
| Serialized (n : nat)
| GalleryPlaceholder (timestamp : Z).

Inductive DeliveryStatus := SENT | FAILED_DELIVERY.

Record LogRow := {
  log_conversation_id : Z;
  log_message_id : Z;
  log_sent_at : Z;
  delivery_status : DeliveryStatus;
  whatsapp_message_id : option WhatsappId;
  error_message : option jsstring
}.

Record MessageMedia := {
  mimetype : jsstring;
  data_from : jsstring;
  filename : jsstring
}.

(** What is handed to the chat client.  A text is the result of
    [replaceVariables] on a template; the substitution is a regular
    expression replacement of the runtime and is kept symbolic. *)
Inductive Payload :=
| Text (template : option jsstring) (variables : list (jsstring * jsstring))
| Attachment (media : MessageMedia).

Record SendOptions := {
  caption : option Payload;
  sendAudioAsVoice : bool;
  sendMediaAsDocument : bool
}.

Record Delivery := {
  recipient : jsstring;
  payload : Payload;
  options : option SendOptions
}.

(** The values read from the configuration module, which is not among the
    sources: the two thresholds of the rate limiter and the base address of
    the media files. *)
Record Config := {
  rateLimits_hour : Z;
  rateLimits_day : Z;
  frontendMediaUrl : jsstring
}.

Record World := {
  now : Z;
  tick : nat;
  faults : nat -> option jsstring;
  config : Config;
  botPhoneNumber : option jsstring;
  blocked_numbers : gset jsstring;
  user_rate_limit : gmap jsstring RateLimitRow;
  campaigns : list CampaignRow;
  messages : list MessageRow;
  message_media : list MediaRow;
  bot_conversations : gmap Z ConversationRow;
  insertId : Z;
  bot_message_log : list LogRow;
  delivered : list Delivery
}.

Definition with_now (t : Z) (w : World) : World :=
  {| now := t; tick := tick w; faults := faults w; config := config w;
     botPhoneNumber := botPhoneNumber w;
     blocked_numbers := blocked_numbers w;
     user_rate_limit := user_rate_limit w; campaigns := campaigns w;
     messages := messages w; message_media := message_media w;
     bot_conversations := bot_conversations w; insertId := insertId w;
     bot_message_log := bot_message_log w; delivered := delivered w |}.

Definition with_tick (n : nat) (w : World) : World :=
  {| now := now w; tick := n; faults := faults w; config := config w;
     botPhoneNumber := botPhoneNumber w;
     blocked_numbers := blocked_numbers w;
     user_rate_limit := user_rate_limit w; campaigns := campaigns w;
     messages := messages w; message_media := message_media w;
     bot_conversations := bot_conversations w; insertId := insertId w;
     bot_message_log := bot_message_log w; delivered := delivered w |}.

Definition with_user_rate_limit (t : gmap jsstring RateLimitRow) (w : World)
  : World :=
  {| now := now w; tick := tick w; faults := faults w; config := config w;
     botPhoneNumber := botPhoneNumber w;
     blocked_numbers := blocked_numbers w;
     user_rate_limit := t; campaigns := campaigns w;
     messages := messages w; message_media := message_media w;
     bot_conversations := bot_conversations w; insertId := insertId w;
     bot_message_log := bot_message_log w; delivered := delivered w |}.

Definition with_bot_conversations (t : gmap Z ConversationRow) (i : Z)
  (w : World) : World :=
  {| now := now w; tick := tick w; faults := faults w; config := config w;
     botPhoneNumber := botPhoneNumber w;
     blocked_numbers := blocked_numbers w;
     user_rate_limit := user_rate_limit w; campaigns := campaigns w;
     messages := messages w; message_media := message_media w;
     bot_conversations := t; insertId := i;
     bot_message_log := bot_message_log w; delivered := delivered w |}.

Definition with_bot_message_log (l : list LogRow) (w : World) : World :=
  {| now := now w; tick := tick w; faults := faults w; config := config w;
     botPhoneNumber := botPhoneNumber w;
     blocked_numbers := blocked_numbers w;
     user_rate_limit := user_rate_limit w; campaigns := campaigns w;
     messages := messages w; message_media := message_media w;
     bot_conversations := bot_conversations w; insertId := insertId w;
     bot_message_log := l; delivered := delivered w |}.

Definition with_delivered (l : list Delivery) (w : World) : World :=
  {| now := now w; tick := tick w; faults := faults w; config := config w;
     botPhoneNumber := botPhoneNumber w;
     blocked_numbers := blocked_numbers w;
     user_rate_limit := user_rate_limit w; campaigns := campaigns w;
     messages := messages w; message_media := message_media w;
     bot_conversations := bot_conversations w; insertId := insertId w;
     bot_message_log := bot_message_log w; delivered := l |}.

Definition with_faults (f : nat -> option jsstring) (w : World) : World :=
  {| now := now w; tick := tick w; faults := f; config := config w;
     botPhoneNumber := botPhoneNumber w;
     blocked_numbers := blocked_numbers w;
     user_rate_limit := user_rate_limit w; campaigns := campaigns w;
     messages := messages w; message_media := message_media w;
     bot_conversations := bot_conversations w; insertId := insertId w;
     bot_message_log := bot_message_log w; delivered := delivered w |}.

Definition with_messages (l : list MessageRow) (w : World) : World :=
  {| now := now w; tick := tick w; faults := faults w; config := config w;
     botPhoneNumber := botPhoneNumber w;
     blocked_numbers := blocked_numbers w;
     user_rate_limit := user_rate_limit w; campaigns := campaigns w;
     messages := l; message_media := message_media w;
     bot_conversations := bot_conversations w; insertId := insertId w;
     bot_message_log := bot_message_log w; delivered := delivered w |}.

Definition with_campaigns (l : list CampaignRow) (w : World) : World :=
  {| now := now w; tick := tick w; faults := faults w; config := config w;
     botPhoneNumber := botPhoneNumber w;
     blocked_numbers := blocked_numbers w;
     user_rate_limit := user_rate_limit w; campaigns := l;
     messages := messages w; message_media := message_media w;
     bot_conversations := bot_conversations w; insertId := insertId w;
     bot_message_log := bot_message_log w; delivered := delivered w |}.

Definition with_message_media (l : list MediaRow) (w : World) : World :=
  {| now := now w; tick := tick w; faults := faults w; config := config w;
     botPhoneNumber := botPhoneNumber w;
     blocked_numbers := blocked_numbers w;
     user_rate_limit := user_rate_limit w; campaigns := campaigns w;
     messages := messages w; message_media := l;
     bot_conversations := bot_conversations w; insertId := insertId w;
     bot_message_log := bot_message_log w; delivered := delivered w |}.

(** ** Computations that may throw *)

Inductive Res (A : Type) :=
| Val (a : A)
| Exn (message : jsstring).
Arguments Val {A} a.
Arguments Exn {A} message.

Definition M (A : Type) : Type := World -> Res A * World.

Definition ret {A} (a : A) : M A := fun w => (Val a, w).

Definition throw {A} (message : jsstring) : M A := fun w => (Exn message, w).

Definition bind {A B} (m : M A) (k : A -> M B) : M B :=
  fun w =>
    match m w with
    | (Val a, w') => k a w'
    | (Exn e, w') => (Exn e, w')
    end.

(** [try { m } catch (error) { handler error }] *)
Definition try_catch {A} (m : M A) (handler : jsstring -> M A) : M A :=
  fun w =>
    match m w with
    | (Val a, w') => (Val a, w')
    | (Exn e, w') => handler e w'
    end.

(** The outcome of [m] as a value, for a [catch] that goes on. *)
Definition attempt {A} (m : M A) : M (Res A) :=
  fun w => let (r, w') := m w in (Val r, w').

Definition gets {A} (f : World -> A) : M A := fun w => (Val (f w), w).

Definition modify (f : World -> World) : M unit := fun w => (Val tt, f w).

Notation "x <- m ;; k" := (bind m (fun x => k))
  (at level 100, m at next level, right associativity).
Notation "m ;; k" := (bind m (fun _ => k))
  (at level 100, right associativity).

(** A call that leaves the process: it takes the next number, and fails when
    the script says so, leaving everything else as it was. *)
Definition external {A} (call : M A) : M A :=
  fun w =>
    let w' := with_tick (S (tick w)) w in
    match faults w (tick w) with
    | Some e => (Exn e, w')
    | None => call w'
    end.

(** [sleep(ms)] *)
Definition sleep (ms : Z) : M unit := modify (fun w => with_now (now w + ms) w).

(** ** services/ratelimit.service.js *)

Inductive Reason :=
| BLOCKED_PERMANENT | BLOCKED_TEMPORARY | UNBLOCKED | NEW_USER
| RATE_LIMIT_HOUR | RATE_LIMIT_DAY | OK | ERROR_CHECK.

Record RateLimitCheck := { allowed : bool; reason : Reason }.

(** The rows a lookup by key returns. *)
Definition rows_of {A} (found : option A) : list A :=
  match found with
  | Some row => [row]
  | None => []
  end.

(** [SELECT phone_number FROM blocked_numbers WHERE phone_number = ?] *)
Definition select_blocked (userPhone : jsstring) : M (list jsstring) :=
  external (gets (fun w =>
    if bool_decide (userPhone ∈ blocked_numbers w) then [userPhone] else [])).

(** [SELECT ... FROM user_rate_limit WHERE user_phone = ?] *)
Definition select_rate_limit (userPhone : jsstring) : M (list RateLimitRow) :=
  external (gets (fun w => rows_of (user_rate_limit w !! userPhone))).

(** [UPDATE user_rate_limit SET is_blocked = FALSE, blocked_until = NULL
    WHERE user_phone = ?] *)
Definition clear_block (row : RateLimitRow) : RateLimitRow :=
  {| is_blocked := false; blocked_reason := blocked_reason row;
     blocked_at := blocked_at row; blocked_until := None;
     trigger_count_hour := trigger_count_hour row;
     trigger_count_day := trigger_count_day row;
     trigger_count_total := trigger_count_total row;
     last_trigger_at := last_trigger_at row |}.

Definition update_unblock (userPhone : jsstring) : M unit :=
  external (modify (fun w =>
    with_user_rate_limit (alter clear_block userPhone (user_rate_limit w)) w)).

Definition checkRateLimit (userPhone : jsstring) : M RateLimitCheck :=
  try_catch
    (blockedRows <- select_blocked userPhone ;;
     if negb (Nat.eqb (length blockedRows) 0) then
       ret {| allowed := false; reason := BLOCKED_PERMANENT |}
     else
       rateLimitRows <- select_rate_limit userPhone ;;
       match rateLimitRows with
       | [] => ret {| allowed := true; reason := NEW_USER |}
       | rateLimitData :: _ =>
           if is_blocked rateLimitData then
             match blocked_until rateLimitData with
             | Some blockedUntil =>
                 now_ <- gets now ;;
                 if blockedUntil <? now_ then
                   update_unblock userPhone ;;
                   ret {| allowed := true; reason := UNBLOCKED |}
                 else ret {| allowed := false; reason := BLOCKED_TEMPORARY |}
             | None => ret {| allowed := false; reason := BLOCKED_TEMPORARY |}
             end
           else
             now_ <- gets now ;;
             hour <- gets (fun w => rateLimits_hour (config w)) ;;
             day <- gets (fun w => rateLimits_day (config w)) ;;
             match last_trigger_at rateLimitData with
             | Some lastTrigger =>
                 let hourAgo := now_ - 60 * 60 * 1000 in
                 if (hourAgo <? lastTrigger)
                    && (hour <=? trigger_count_hour rateLimitData)
                 then ret {| allowed := false; reason := RATE_LIMIT_HOUR |}
                 else
                   let dayAgo := now_ - 24 * 60 * 60 * 1000 in
                   if (dayAgo <? lastTrigger)
                      && (day <=? trigger_count_day rateLimitData)
                   then ret {| allowed := false; reason := RATE_LIMIT_DAY |}
                   else ret {| allowed := true; reason := OK |}
             | None => ret {| allowed := true; reason := OK |}
             end
       end)
    (fun _ => ret {| allowed := true; reason := ERROR_CHECK |}).

(** The [INSERT ... ON DUPLICATE KEY UPDATE] of [updateRateLimit]; the
    assignments read the row as it was. *)
Definition upsert_trigger (hourAgo dayAgo t : Z) (old : option RateLimitRow)
  : RateLimitRow :=
  match old with
  | None =>
      {| is_blocked := false; blocked_reason := None; blocked_at := None;
         blocked_until := None; trigger_count_hour := 1;
         trigger_count_day := 1; trigger_count_total := 1;
         last_trigger_at := Some t |}
  | Some row =>
      let before (bound : Z) :=
        match last_trigger_at row with
        | Some last => last <? bound
        | None => false
        end in
      {| is_blocked := is_blocked row; blocked_reason := blocked_reason row;
         blocked_at := blocked_at row; blocked_until := blocked_until row;
         trigger_count_hour :=
           if before hourAgo then 1 else trigger_count_hour row + 1;
         trigger_count_day :=
           if before dayAgo then 1 else trigger_count_day row + 1;
         trigger_count_total := trigger_count_total row + 1;
         last_trigger_at := Some t |}
  end.

Definition updateRateLimit (userPhone : jsstring) : M unit :=
  now_ <- gets now ;;
  let hourAgo := now_ - 60 * 60 * 1000 in
  let dayAgo := now_ - 24 * 60 * 60 * 1000 in
  external (modify (fun w =>
    with_user_rate_limit
      (<[userPhone :=
           upsert_trigger hourAgo dayAgo (now w) (user_rate_limit w !! userPhone)]>
         (user_rate_limit w)) w)).

(** ** Queries: ORDER BY *)

(** A stable insertion sort on an integer column. *)
Fixpoint insert_by {A} (key : A -> Z) (x : A) (sorted : list A) : list A :=
  match sorted with
  | [] => [x]
  | y :: rest =>
      if key x <=? key y then x :: sorted else y :: insert_by key x rest
  end.

Definition order_by_asc {A} (key : A -> Z) (rows : list A) : list A :=
  fold_right (insert_by key) [] rows.

Definition order_by_desc {A} (key : A -> Z) (rows : list A) : list A :=
  order_by_asc (fun row => - key row) rows.

Definition is_null {A} (x : option A) : bool :=
  match x with Some _ => false | None => true end.

(** A string in a condition: [null] and the empty string are false. *)
Definition truthy (s : option jsstring) : bool :=
  match s with
  | Some (_ :: _) => true
  | _ => false
  end.

(** [a || b] on strings. *)
Definition or_else (a : option jsstring) (b : jsstring) : jsstring :=
  match a with
  | Some (c :: s) => c :: s
  | _ => b
  end.

(** ** The conversation service *)

Definition createConversation
  (userPhone userName : jsstring) (campaignId : Z)
  (triggerMessage matchedKeyword : jsstring) (matchType : MatchType)
  (line : option jsstring) : M Z :=
  external (fun w =>
    let conversationId := insertId w + 1 in
    let row :=
      {| user_phone := userPhone; user_name := userName;
         conv_campaign_id := campaignId; trigger_message := triggerMessage;
         matched_keyword := matchedKeyword; match_type := matchType;
         corse := line; status := INITIATED; messages_sent := 0;
         conversation_started_at := now w; last_message_sent_at := None;
         conversation_ended_at := None; failure_reason := None |} in
    (Val conversationId,
     with_bot_conversations
       (<[conversationId := row]> (bot_conversations w)) conversationId w)).

Definition update_conversation (conversationId : Z)
  (f : Z -> ConversationRow -> ConversationRow) : M unit :=
  external (modify (fun w =>
    with_bot_conversations
      (alter (f (now w)) conversationId (bot_conversations w))
      (insertId w) w)).

Definition incrementMessagesSent (conversationId : Z) : M unit :=
  update_conversation conversationId (fun t row =>
    {| user_phone := user_phone row; user_name := user_name row;
       conv_campaign_id := conv_campaign_id row;
       trigger_message := trigger_message row;
       matched_keyword := matched_keyword row;
       match_type := match_type row; corse := corse row;
       status := IN_PROGRESS; messages_sent := messages_sent row + 1;
       conversation_started_at := conversation_started_at row;
       last_message_sent_at := Some t;
       conversation_ended_at := conversation_ended_at row;
       failure_reason := failure_reason row |}).

Definition end_conversation (s : Status) (why : option jsstring) (t : Z)
  (row : ConversationRow) : ConversationRow :=
  {| user_phone := user_phone row; user_name := user_name row;
     conv_campaign_id := conv_campaign_id row;
     trigger_message := trigger_message row;
     matched_keyword := matched_keyword row;
     match_type := match_type row; corse := corse row;
     status := s; messages_sent := messages_sent row;
     conversation_started_at := conversation_started_at row;
     last_message_sent_at := last_message_sent_at row;
     conversation_ended_at := Some t;
     failure_reason := why |}.

Definition completeConversation (conversationId : Z) : M unit :=
  update_conversation conversationId (fun t row =>
    end_conversation COMPLETED (failure_reason row) t row).

Definition failConversation (conversationId : Z) (why : option jsstring)
  : M unit :=
  update_conversation conversationId (end_conversation FAILED why).

Definition is_active_status (s : Status) : bool :=
  match s with
  | INITIATED | IN_PROGRESS => true
  | _ => false
  end.

(** The most recent conversation of the sender that is still open, on the
    given line when one is given. *)
Definition getActiveConversation (userPhone : jsstring)
  (line : option jsstring) : M (option (Z * ConversationRow)) :=
  external (gets (fun w =>
    head (order_by_desc (fun r => conversation_started_at (snd r))
      (List.filter
         (fun r =>
            jsstring_eqb (user_phone (snd r)) userPhone
            && is_active_status (status (snd r))
            && (if truthy line then bool_decide (corse (snd r) = line)
                else true))
         (map_to_list (bot_conversations w)))))).

(** ** services/campaign.service.js *)

Record CampaignMatch := {
  campaignId : Z;
  campaignName : jsstring;
  matchedKeyword : jsstring;
  matchType : MatchType;
  matchPriority : Z
}.

Section CampaignService.
Context {U : UnicodeRuntime}.

(** The loop over the campaigns: one whose document does not parse is
    passed over. *)
Fixpoint first_campaign (messageText : jsstring) (rows : list CampaignRow)
  : option CampaignMatch :=
  match rows with
  | [] => None
  | campaign :: rest =>
      match trigger_keywords campaign with
      | Unparsable => first_campaign messageText rest
      | Document triggerKeywords =>
          match matchKeywords messageText triggerKeywords with
          | Some m =>
              Some {| campaignId := campaign_id campaign;
                      campaignName := campaign_name campaign;
                      matchedKeyword := matched m;
                      matchType := type m;
                      matchPriority := priority campaign |}
          | None => first_campaign messageText rest
          end
      end
  end.

Definition detectCampaign (messageText : option jsstring)
  : M (option CampaignMatch) :=
  match messageText with
  | None => ret None
  | Some text =>
      if Nat.eqb (length (trim text)) 0 then ret None
      else
        rows <- external (gets (fun w =>
          order_by_desc priority
            (List.filter
               (fun c => campaign_is_active c
                         && is_null (campaign_deleted_at c))
               (campaigns w)))) ;;
        ret (first_campaign text rows)
  end.

End CampaignService.

(** ** services/message.service.js *)

Definition getCampaignMessages (campaign : Z) : M (list MessageRow) :=
  external (gets (fun w =>
    order_by_asc sort_order
      (List.filter
         (fun m => (message_campaign_id m =? campaign)
                   && message_is_active m
                   && is_null (message_deleted_at m))
         (messages w)))).

Definition getMessageMedia (messageId : Z) : M (list MediaRow) :=
  external (gets (fun w =>
    order_by_asc media_sort_order
      (List.filter
         (fun f => (media_message_id f =? messageId)
                   && is_null (media_deleted_at f))
         (message_media w)))).

(** The HTTP download; [data_from] stands for the bytes fetched. *)
Definition downloadMediaFromUrl (fileUrl mimeType name : jsstring)
  : M MessageMedia :=
  external
    (ret {| mimetype := mimeType; data_from := fileUrl; filename := name |}).

(** [String.prototype.replace] with a string pattern: the first occurrence
    only. *)
Fixpoint replace_first (s pattern replacement : jsstring) : jsstring :=
  if startsWith s pattern then replacement ++ drop (length pattern) s
  else match s with
       | [] => []
       | c :: s' => c :: replace_first s' pattern replacement
       end.

Definition buildMediaUrl (cfg : Config) (filePath : jsstring) : jsstring :=
  if startsWith filePath (js "http://") || startsWith filePath (js "https://")
  then filePath
  else
    let cleanPath :=
      if startsWith filePath (js "/") then drop 1 filePath else filePath in
    let cleanPath :=
      if startsWith cleanPath (js "media/")
      then replace_first cleanPath (js "media/campaigns/yanachaga/")
                         (js "post/")
      else cleanPath in
    frontendMediaUrl cfg ++ js "/" ++ cleanPath.

Definition logMessageSent (conversationId messageId : Z)
  (whatsappMessageId : WhatsappId) : M unit :=
  try_catch
    (external (modify (fun w =>
       with_bot_message_log
         (bot_message_log w ++
            [{| log_conversation_id := conversationId;
                log_message_id := messageId; log_sent_at := now w;
                delivery_status := SENT;
                whatsapp_message_id := Some whatsappMessageId;
                error_message := None |}]) w)))
    (fun _ => ret tt).

Definition logMessageFailed (conversationId messageId : Z)
  (errorMessage : jsstring) : M unit :=
  try_catch
    (external (modify (fun w =>
       with_bot_message_log
         (bot_message_log w ++
            [{| log_conversation_id := conversationId;
                log_message_id := messageId; log_sent_at := now w;
                delivery_status := FAILED_DELIVERY;
                whatsapp_message_id := None;
                error_message := Some errorMessage |}]) w)))
    (fun _ => ret tt).

(** [helpers.replaceVariables]: a template that is [null] or empty is
    returned as it is. *)
Definition replaceVariables (template : option jsstring)
  (variables : list (jsstring * jsstring)) : Payload :=
  if truthy template then Text template variables else Text template [].

(** [client.sendMessage] *)
Definition sendMessage (to : jsstring) (what : Payload)
  (how : option SendOptions) : M WhatsappId :=
  external (fun w =>
    (Val (Serialized (length (delivered w))),
     with_delivered
       (delivered w ++
          [{| recipient := to; payload := what; options := how |}]) w)).

Definition sendTextMessage (userPhone : jsstring) (message : MessageRow)
  (variables : list (jsstring * jsstring)) : M WhatsappId :=
  sendMessage userPhone (replaceVariables (content message) variables) None.

Definition caption_of (message : MessageRow)
  (variables : list (jsstring * jsstring)) : Payload :=
  if truthy (content message)
  then replaceVariables (content message) variables
  else Text (Some []) [].

(** The first media file of the message, downloaded; [missing] is thrown
    when there is none. *)
Definition first_media (message : MessageRow) (missing fallbackMime
  name : jsstring) : M MessageMedia :=
  mediaFiles <- getMessageMedia (message_id message) ;;
  match mediaFiles with
  | [] => throw missing
  | mediaFile :: _ =>
      cfg <- gets config ;;
      let mediaUrl := buildMediaUrl cfg (file_path mediaFile) in
      downloadMediaFromUrl mediaUrl
        (or_else (mime_type mediaFile) fallbackMime) name
  end.

Definition no_se_encontro : jsstring := js "No se encontr" ++ [243%N].

Definition sendImageMessage (userPhone : jsstring) (message : MessageRow)
  (variables : list (jsstring * jsstring)) : M WhatsappId :=
  media <- first_media message
             (no_se_encontro ++ js " imagen para este mensaje")
             (js "image/jpeg") (js "file") ;;
  sendMessage userPhone (Attachment media)
    (Some {| caption := Some (caption_of message variables);
             sendAudioAsVoice := false; sendMediaAsDocument := false |}).

Definition sendAudioMessage (userPhone : jsstring) (message : MessageRow)
  : M WhatsappId :=
  media <- first_media message
             (no_se_encontro ++ js " audio para este mensaje")
             (js "audio/mpeg") (js "file") ;;
  sendMessage userPhone (Attachment media)
    (Some {| caption := None; sendAudioAsVoice := true;
             sendMediaAsDocument := false |}).

Definition sendDocumentMessage (userPhone : jsstring) (message : MessageRow)
  (variables : list (jsstring * jsstring)) : M WhatsappId :=
  media <- first_media message
             (no_se_encontro ++ js " documento para este mensaje")
             (js "application/pdf") (js "Brochure.pdf") ;;
  sendMessage userPhone (Attachment media)
    (Some {| caption := Some (caption_of message variables);
             sendAudioAsVoice := false; sendMediaAsDocument := true |}).

(** The loop of [sendGalleryMessage]: an image that fails is passed over. *)
Fixpoint gallery_loop (userPhone : jsstring) (mediaFiles : list MediaRow)
  (lastMessageId : option WhatsappId) : M (option WhatsappId) :=
  match mediaFiles with
  | [] => ret lastMessageId
  | mediaFile :: rest =>
      cfg <- gets config ;;
      let mediaUrl := buildMediaUrl cfg (file_path mediaFile) in
      r <- attempt
             (media <- downloadMediaFromUrl mediaUrl
                         (or_else (mime_type mediaFile) (js "image/jpeg"))
                         (js "file") ;;
              sentId <- sendMessage userPhone (Attachment media) None ;;
              (match rest with
               | [] => ret tt
               | _ :: _ => sleep 500
               end) ;;
              ret sentId) ;;
      gallery_loop userPhone rest
        (match r with
         | Val sentId => Some sentId
         | Exn _ => lastMessageId
         end)
  end.

Definition sendGalleryMessage (userPhone : jsstring) (message : MessageRow)
  : M WhatsappId :=
  mediaFiles <- getMessageMedia (message_id message) ;;
  match mediaFiles with
  | [] =>
      throw (js "No se encontraron im" ++ [225%N] ++ js "genes para la galer"
             ++ [237%N] ++ js "a")
  | _ :: _ =>
      lastMessageId <- gallery_loop userPhone mediaFiles None ;;
      match lastMessageId with
      | Some sentId => ret sentId
      | None => t <- gets now ;; ret (GalleryPlaceholder t)
      end
  end.

Record DispatchResult := {
  success : bool;
  total : nat;
  sent : nat;
  failed : nat
}.

(** The test of the [catch] of the loop for an error that ends the
    dispatch. *)
Definition is_critical (errorMessage : jsstring) : bool :=
  includes errorMessage (js "Connection closed")
  || includes errorMessage (js "Session closed").

(** The [switch] on [type_code]; [None] for a type that is not supported. *)
Definition send_by_type (userPhone : jsstring) (msg : MessageRow)
  (variables : list (jsstring * jsstring)) : option (M WhatsappId) :=
  if jsstring_eqb (type_code msg) (js "TEXT")
  then Some (sendTextMessage userPhone msg variables)
  else if jsstring_eqb (type_code msg) (js "IMAGE")
  then Some (sendImageMessage userPhone msg variables)
  else if jsstring_eqb (type_code msg) (js "AUDIO")
  then Some (sendAudioMessage userPhone msg)
  else if jsstring_eqb (type_code msg) (js "DOCUMENT")
  then Some (sendDocumentMessage userPhone msg variables)
  else if jsstring_eqb (type_code msg) (js "GALLERY")
  then Some (sendGalleryMessage userPhone msg)
  else None.

(** The wait before a message that has a delay. *)
Definition pause (msg : MessageRow) : M unit :=
  if 0 <? delay_seconds msg then sleep (delay_seconds msg * 1000)
  else ret tt.

(** The [try] block of one turn of the loop: [true] when the message went
    out, [false] when its type is not supported. *)
Definition send_one (userPhone : jsstring) (conversationId : Z)
  (msg : MessageRow) (variables : list (jsstring * jsstring)) : M bool :=
  pause msg ;;
  match send_by_type userPhone msg variables with
  | None => ret false
  | Some send =>
      whatsappMessageId <- send ;;
      logMessageSent conversationId (message_id msg) whatsappMessageId ;;
      incrementMessagesSent conversationId ;;
      ret true
  end.

(** The [for] loop of [sendSequentialMessages], with its two counters. *)
Fixpoint send_loop (userPhone : jsstring) (conversationId : Z)
  (remaining : list MessageRow) (variables : list (jsstring * jsstring))
  (successCount failCount : nat) : M (nat * nat) :=
  match remaining with
  | [] => ret (successCount, failCount)
  | msg :: rest =>
      r <- attempt (send_one userPhone conversationId msg variables) ;;
      match r with
      | Val true =>
          send_loop userPhone conversationId rest variables
                    (S successCount) failCount
      | Val false =>
          send_loop userPhone conversationId rest variables
                    successCount failCount
      | Exn errorMessage =>
          logMessageFailed conversationId (message_id msg) errorMessage ;;
          if is_critical errorMessage then throw errorMessage
          else send_loop userPhone conversationId rest variables
                         successCount (S failCount)
      end
  end.

Definition sendSequentialMessages (userPhone : jsstring) (conversationId : Z)
  (plan : list MessageRow) (variables : list (jsstring * jsstring))
  : M DispatchResult :=
  counts <- send_loop userPhone conversationId plan variables 0%nat 0%nat ;;
  ret {| success := true; total := length plan;
         sent := fst counts; failed := snd counts |}.

(** ** The chat service *)

Record IncomingMessage := {
  fromMe : bool;
  from : jsstring;
  body : option jsstring;
  pushname : option jsstring;
  contact_name : option jsstring
}.

Section ChatService.
Context {U : UnicodeRuntime}.

(** The three-way test on the result of the dispatch. *)
Definition settle (conversationId : Z) (plan : list MessageRow)
  (result : DispatchResult) : M unit :=
  if Nat.eqb (sent result) (length plan) then
    completeConversation conversationId
  else if Nat.eqb (failed result) (length plan) then
    failConversation conversationId
      (Some (js "Todos los mensajes fallaron"))
  else completeConversation conversationId.

(** From the fetch of the plan to the end of the [try] block. *)
Definition deliver (userPhone userName : jsstring) (conversationId : Z)
  (campaign : Z) : M unit :=
  plan <- getCampaignMessages campaign ;;
  match plan with
  | [] =>
      failConversation conversationId
        (Some (js "Sin mensajes configurados"))
  | _ :: _ =>
      let variables :=
        [(js "nombre", userName); (js "telefono", userPhone)] in
      result <- sendSequentialMessages userPhone conversationId plan
                  variables ;;
      settle conversationId plan result
  end.

Definition handleIncomingMessage (message : IncomingMessage) : M unit :=
  try_catch
    (if fromMe message then ret tt
     else if includes (from message) (js "@g.us") then ret tt
     else
       let userPhone := from message in
       match body message with
       | None => ret tt
       | Some messageText =>
           if Nat.eqb (length messageText) 0
              || Nat.eqb (length (trim messageText)) 0
           then ret tt
           else
             userName <- external
               (ret (or_else (pushname message)
                       (or_else (contact_name message) (js "Usuario")))) ;;
             activeConversation <- getActiveConversation userPhone None ;;
             match activeConversation with
             | Some _ => ret tt
             | None =>
                 rateLimitCheck <- checkRateLimit userPhone ;;
                 if negb (allowed rateLimitCheck) then ret tt
                 else
                   campaignMatch <- detectCampaign (Some messageText) ;;
                   match campaignMatch with
                   | None => ret tt
                   | Some found =>
                       updateRateLimit userPhone ;;
                       line <- gets botPhoneNumber ;;
                       conversationId <-
                         createConversation userPhone userName
                           (campaignId found) messageText
                           (matchedKeyword found) (matchType found) line ;;
                       deliver userPhone userName conversationId
                               (campaignId found)
                   end
             end
       end)
    (fun _ => ret tt).

End ChatService.

(** ** services/ratelimit.service.js: manual blocks *)




(** ** The conversation service: status by name *)

Definition parse_status (name : jsstring) : option Status :=
  if jsstring_eqb name (js "INITIATED") then Some INITIATED
  else if jsstring_eqb name (js "IN_PROGRESS") then Some IN_PROGRESS
  else if jsstring_eqb name (js "COMPLETED") then Some COMPLETED
  else if jsstring_eqb name (js "FAILED") then Some FAILED
  else if jsstring_eqb name (js "CANCELLED") then Some CANCELLED
  else None.

Definition is_terminal_status (s : Status) : bool :=
  match s with
  | COMPLETED | FAILED | CANCELLED => true
  | _ => false
  end.

Definition updateConversationStatus (conversationId : Z) (name : jsstring)
  : M unit :=
  match parse_status name with
  | None => throw (js "Estado inv" ++ [225%N] ++ js "lido: " ++ name)
  | Some s =>
      update_conversation conversationId (fun t row =>
        {| user_phone := user_phone row; user_name := user_name row;
           conv_campaign_id := conv_campaign_id row;
           trigger_message := trigger_message row;
           matched_keyword := matched_keyword row;
           match_type := match_type row; corse := corse row;
           status := s; messages_sent := messages_sent row;
           conversation_started_at := conversation_started_at row;
           last_message_sent_at := last_message_sent_at row;
           conversation_ended_at :=
             if is_terminal_status s then Some t
             else conversation_ended_at row;
           failure_reason := failure_reason row |})
  end.

(** ** utils/helpers.js *)

(** The class [\d]. *)
Definition is_digit (c : N) : bool := in_range 48 57 c.

(** [phone.replace(/[^\d]/g, '')] *)
Definition formatPhone (phone : jsstring) : jsstring :=
  List.filter is_digit phone.

(** ** What a computation may change *)

(** [m] takes every world to one that [R] relates to it. *)
Definition within (R : World -> World -> Prop) {A} (m : M A) : Prop :=
  forall w, R w (snd (m w)).

(** The chat client has delivered more, and only to [to]. *)
Definition delivers_to (to : jsstring) (w w' : World) : Prop :=
  exists more,
    delivered w' = delivered w ++ more
    /\ Forall (fun d => recipient d = to) more.

(** The conversations are as they were. *)
Definition same_conversations (w w' : World) : Prop :=
  bot_conversations w' = bot_conversations w /\ insertId w' = insertId w.

(** Nothing but the numbering of the calls has changed. *)
Definition only_ticked (w w' : World) : Prop :=
  exists n, w' = with_tick n w.

(** The counter of sent messages and the status of a conversation, when it
    is stored. *)
Definition sent_and_status (w : World) (conversationId : Z)
  : option (Z * Status) :=
  (fun row => (messages_sent row, status row))
    <$> bot_conversations w !! conversationId.

(** ** What an item of a plan sends *)

(** The rows [getMessageMedia] selects for a message. *)
Definition media_rows (stored : list MediaRow) (messageId : Z)
  : list MediaRow :=
  order_by_asc media_sort_order
    (List.filter
       (fun f => (media_message_id f =? messageId)
                 && is_null (media_deleted_at f))
       stored).

(** The file a sender downloads for a media row. *)
Definition attachment (cfg : Config) (fallbackMime name : jsstring)
  (mediaFile : MediaRow) : MessageMedia :=
  {| mimetype := or_else (mime_type mediaFile) fallbackMime;
     data_from := buildMediaUrl cfg (file_path mediaFile);
     filename := name |}.

(** What the senders of an image, an audio and a document hand to
    [client.sendMessage]: the first media row of the message, when there is
    one. *)
Definition first_attachment (userPhone : jsstring) (cfg : Config)
  (stored : list MediaRow) (message : MessageRow)
  (fallbackMime name : jsstring) (how : SendOptions) : list Delivery :=
  match media_rows stored (message_id message) with
  | [] => []
  | mediaFile :: _ =>
      [ {| recipient := userPhone;
           payload := Attachment (attachment cfg fallbackMime name mediaFile);
           options := Some how |} ]
  end.

(** The calls of [client.sendMessage] that the sender of an item makes when
    every call succeeds, in the order in which it makes them: one for a
    text, one for the first media row of an image, an audio or a document,
    one for each media row of a gallery, none for a type the dispatcher does
    not know. *)
Definition item_deliveries (userPhone : jsstring)
  (variables : list (jsstring * jsstring)) (cfg : Config)
  (stored : list MediaRow) (msg : MessageRow) : list Delivery :=
  if jsstring_eqb (type_code msg) (js "TEXT")
  then [ {| recipient := userPhone;
            payload := replaceVariables (content msg) variables;
            options := None |} ]
  else if jsstring_eqb (type_code msg) (js "IMAGE")
  then first_attachment userPhone cfg stored msg (js "image/jpeg") (js "file")
         {| caption := Some (caption_of msg variables);
            sendAudioAsVoice := false; sendMediaAsDocument := false |}
  else if jsstring_eqb (type_code msg) (js "AUDIO")
  then first_attachment userPhone cfg stored msg (js "audio/mpeg") (js "file")
         {| caption := None; sendAudioAsVoice := true;
            sendMediaAsDocument := false |}
  else if jsstring_eqb (type_code msg) (js "DOCUMENT")
  then first_attachment userPhone cfg stored msg (js "application/pdf")
         (js "Brochure.pdf")
         {| caption := Some (caption_of msg variables);
            sendAudioAsVoice := false; sendMediaAsDocument := true |}
  else if jsstring_eqb (type_code msg) (js "GALLERY")
  then List.map
         (fun mediaFile =>
            {| recipient := userPhone;
               payload := Attachment (attachment cfg (js "image/jpeg")
                                        (js "file") mediaFile);
               options := None |})
         (media_rows stored (message_id msg))
  else [].

(** Nothing is delivered, and the script of failures, the configuration and
    the media table stay as they are. *)
Definition idle (w w' : World) : Prop :=
  delivered w' = delivered w /\ faults w' = faults w
  /\ config w' = config w /\ message_media w' = message_media w.

(** ** Sample data *)

Definition yanachaga_message : jsstring :=
  js "Hola! info del Yanachaga Ecovillage, gracias".

Definition yanachaga_rules : KeywordRuleSet :=
  {| exact_matches := None;
     keywords := Some [js "yanachaga ecovillage"];
     synonyms := None;
     excluded_words := None |}.

Definition yanachaga_rules_guarded : KeywordRuleSet :=
  {| exact_matches := Some [js "yanachaga"];
     keywords := Some [js "yanachaga ecovillage"];
     synonyms := Some [(js "info", None)];
     excluded_words := Some [js "adios"; js "GRACIAS!"] |}.

(** Rule sets with an entry made of punctuation only. *)
Definition punctuation_excluded_rules : KeywordRuleSet :=
  {| exact_matches := Some [js "yanachaga"];
     keywords := None;
     synonyms := None;
     excluded_words := Some [js "adios"; js "?!"] |}.

Definition punctuation_keyword_rules : KeywordRuleSet :=
  {| exact_matches := Some [js "brochure"];
     keywords := Some [js "precio"; js "..."];
     synonyms := None;
     excluded_words := Some [js "adios"] |}.

Definition yanachaga_lowered : jsstring :=
  js "hola! info del yanachaga ecovillage, gracias".

Definition yanachaga_keyword : jsstring := js "yanachaga ecovillage".

(** A letter carrying two Hebrew points in canonical order (classes 11 and
    10) kept apart by the combining grapheme joiner U+034F. *)
Definition joiner_text : jsstring := [97; 1457; 847; 1456]%N.

(** Inverted exclamation mark, "Qu", e with acute accent, two spaces, "tal",
    question mark, tab. *)
Definition que_tal : jsstring :=
  [161; 81; 117; 201; 32; 32; 116; 97; 108; 63; 9]%N.

(** A rule set whose only entry is the empty phrase. *)
Definition empty_phrase_rules : KeywordRuleSet :=
  {| exact_matches := Some [[]];
     keywords := None;
     synonyms := None;
     excluded_words := None |}.

Definition sample_config : Config :=
  {| rateLimits_hour := 3;
     rateLimits_day := 8;
     frontendMediaUrl := js "https://frontend.example" |}.

(** A world with empty tables in which every call succeeds. *)
Definition quiet_world : World :=
  {| now := 1700000000000;
     tick := 0;
     faults := fun _ => None;
     config := sample_config;
     botPhoneNumber := Some (js "51900000001");
     blocked_numbers := ∅;
     user_rate_limit := ∅;
     campaigns := [];
     messages := [];
     message_media := [];
     bot_conversations := ∅;
     insertId := 0;
     bot_message_log := [];
     delivered := [] |}.

Definition sender : jsstring := js "51987654321@c.us".

(** A block that ran out a minute ago, and one that has a minute to go. *)
Definition expired_block : RateLimitRow :=
  {| is_blocked := true; blocked_reason := Some (js "spam");
     blocked_at := Some 1699990000000;
     blocked_until := Some (1700000000000 - 60000);
     trigger_count_hour := 3; trigger_count_day := 5;
     trigger_count_total := 9; last_trigger_at := Some 1699990000000 |}.

Definition running_block : RateLimitRow :=
  {| is_blocked := true; blocked_reason := Some (js "spam");
     blocked_at := Some 1699990000000;
     blocked_until := Some (1700000000000 + 60000);
     trigger_count_hour := 3; trigger_count_day := 5;
     trigger_count_total := 9; last_trigger_at := Some 1699990000000 |}.

(** The script in which only the call numbered [n] fails. *)
Definition failing_at (n : nat) (message : jsstring) (k : nat)
  : option jsstring :=
  if Nat.eqb k n then Some message else None.

Definition blocked_world (row : RateLimitRow) : World :=
  with_user_rate_limit (<[sender := row]> ∅) quiet_world.

(** The database is unreachable from the second query on. *)
Definition unreachable_world : World :=
  with_faults (fun k => if Nat.leb 1 k then Some (js "ECONNREFUSED") else None)
    (blocked_world running_block).

(** ** Vocabulary for the dispatch *)

(** The five types the [switch] of the dispatcher handles. *)
Definition supported_type (code : jsstring) : bool :=
  existsb (jsstring_eqb code)
    [js "TEXT"; js "IMAGE"; js "AUDIO"; js "DOCUMENT"; js "GALLERY"].

Definition supported (msg : MessageRow) : bool :=
  supported_type (type_code msg).

(** Every call succeeds. *)
Definition quiet (w : World) : Prop := forall n, faults w n = None.

(** A computation that, when every call succeeds, writes nothing to the
    delivery log and throws no error that would end a dispatch. *)
Definition calm {A} (m : M A) : Prop :=
  forall w, quiet w ->
    quiet (snd (m w))
    /\ bot_message_log (snd (m w)) = bot_message_log w
    /\ match fst (m w) with
       | Exn e => is_critical e = false
       | Val _ => True
       end.

(** The message identifiers of the rows the log has gained. *)
Definition logged_ids (w : World) : list Z :=
  List.map log_message_id (bot_message_log w).

Definition plan_item (id order : Z) (code : string) (text : string)
  : MessageRow :=
  {| message_id := id; message_campaign_id := 7; type_code := js code;
     content := Some (js text); sort_order := order; delay_seconds := 0;
     message_is_active := true; message_deleted_at := None |}.

(** A plan whose second item has a type the dispatcher does not know. *)
Definition mixed_plan : list MessageRow :=
  [ plan_item 1 1 "TEXT" "Hola {nombre}";
    plan_item 2 2 "STICKER" "";
    plan_item 3 3 "TEXT" "Gracias" ].

(** The plan of the specification: sort order 2 listed before sort order
    1. *)
Definition unsorted_plan : list MessageRow :=
  [ plan_item 20 2 "TEXT" "segundo";
    plan_item 10 1 "TEXT" "primero" ].

(** The world after the sender has opened conversation 1. *)
Definition conversation_world : World :=
  snd (createConversation sender (js "Ana") 7 yanachaga_message
         yanachaga_keyword KEYWORD (Some (js "51900000001")) quiet_world).

Definition name_and_phone : list (jsstring * jsstring) :=
  [(js "nombre", js "Ana"); (js "telefono", sender)].

(** The dispatch of the mixed plan in conversation 1. *)
Definition mixed_dispatch : Res DispatchResult * World :=
  sendSequentialMessages sender 1 mixed_plan name_and_phone
    conversation_world.

(** The two items of the unsorted plan as stored rows of campaign 7. *)
Definition stored_world : World := with_messages unsorted_plan conversation_world.

(** ** A session lost in the middle of a dispatch *)

Definition three_texts : list MessageRow :=
  [ plan_item 1 1 "TEXT" "Hola {nombre}";
    plan_item 2 2 "TEXT" "Precios";
    plan_item 3 3 "TEXT" "Gracias" ].

Definition yanachaga_campaign : CampaignRow :=
  {| campaign_id := 7; campaign_name := js "Yanachaga";
     trigger_keywords := Document (Some yanachaga_rules);
     priority := 10; campaign_is_active := true;
     campaign_deleted_at := None |}.

Definition session_closed : jsstring :=
  js "Protocol error (Runtime.callFunctionOn): Session closed.".

(** Campaign 7 with its three texts.  The calls of one run are numbered from
    0: contact, open conversation, two rate-limit reads, campaigns, rate-limit
    write, new conversation, plan, and then per text a send, a log row and a
    counter update.  Call 11 is the send of the second text. *)
Definition session_lost_world : World :=
  with_faults (failing_at 11 session_closed)
    (with_campaigns [yanachaga_campaign]
       (with_messages three_texts quiet_world)).

Definition incoming : IncomingMessage :=
  {| fromMe := false; from := sender; body := Some yanachaga_message;
     pushname := Some (js "Ana"); contact_name := None |}.

Definition after_session_lost : World :=
  snd (@handleIncomingMessage tabulated_runtime incoming session_lost_world).

(** A gallery of one image followed by a text.  In conversation 1 the calls
    of the dispatch are numbered from 1: media rows, download, and call 3,
    the send of the image. *)
Definition gallery_plan : list MessageRow :=
  [ plan_item 1 1 "GALLERY" ""; plan_item 2 2 "TEXT" "Gracias" ].

Definition gallery_world : World :=
  with_faults (failing_at 3 session_closed)
    (with_message_media
       [ {| media_id := 1; media_message_id := 1; media_type := js "image";
            file_path := js "/media/campaigns/yanachaga/lote.jpg";
            file_name := js "lote.jpg"; media_sort_order := 1;
            mime_type := Some (js "image/jpeg");
            media_deleted_at := None |} ]
       conversation_world).

(** The same campaign when every send fails without the session being
    lost: calls 8, 10 and 12 are the three sends. *)
Definition evaluation_failed : jsstring := js "Evaluation failed: timeout".

Definition sends_fail_world : World :=
  with_faults
    (fun k => if Nat.eqb k 8 || Nat.eqb k 10 || Nat.eqb k 12
              then Some evaluation_failed else None)
    (with_campaigns [yanachaga_campaign]
       (with_messages three_texts quiet_world)).

(** The same campaign when only the send of the second text fails, without
    the session being lost: call 11, as above. *)
Definition one_send_fails_world : World :=
  with_faults (failing_at 11 evaluation_failed)
    (with_campaigns [yanachaga_campaign]
       (with_messages three_texts quiet_world)).

(** The deliveries of a computation in a world: they are among [asked], in
    the same order, and they are all of [asked] when every call succeeds.
    The script of failures, the configuration and the media table stay as
    they are. *)
Definition sends {A} (asked : list Delivery) (m : M A) (w : World) : Prop :=
  exists chunk,
    delivered (snd (m w)) = delivered w ++ chunk
    /\ sublist chunk asked
    /\ (quiet w -> chunk = asked)
    /\ faults (snd (m w)) = faults w
    /\ config (snd (m w)) = config w
    /\ message_media (snd (m w)) = message_media w.

(** The unsorted plan as [getCampaignMessages] returns it. *)
Definition fetched_plan : list MessageRow :=
  [ plan_item 10 1 "TEXT" "primero";
    plan_item 20 2 "TEXT" "segundo" ].

(** ** Shapes of normalized text *)

(** White space occurs only as single spaces. *)
Fixpoint single_spaced (s : jsstring) : Prop :=
  match s with
  | [] => True
  | c :: s' =>
      (is_whitespace c = true ->
       c = SPACE /\
       match s' with
       | d :: _ => is_whitespace d = false
       | [] => True
       end)
      /\ single_spaced s'
  end.

Definition no_leading_space (s : jsstring) : Prop :=
  match s with
  | c :: _ => is_whitespace c = false
  | [] => True
  end.

(** A unit the tabulated runtime leaves alone: it is its own lower case, it
    has no decomposition, and it is a starter. *)
Definition settled (c : N) : bool :=
  (lower_unit c =? c)%N && bool_decide (decompose c = [c])
  && (combining_class c =? 0)%N.

(** What the table gives for one unit of Latin-1: its lower case is again in
    Latin-1 and decomposes into settled units and combining diacritical
    marks. *)
Definition latin1_check (c : N) : bool :=
  (lower_unit c <=? 255)%N
  && forallb (fun d => is_combining_mark d || settled d)
             (decompose (lower_unit c)).

Definition latin1_units : list N := List.map N.of_nat (seq 0 256).

(** A rule set in which a price is asked for through a synonym. *)
Definition precio_rules : KeywordRuleSet :=
  {| exact_matches := Some [js "lista de precios"];
     keywords := Some [js "brochure"];
     synonyms := Some [(js "Precio", Some [js "costo"; js "cuanto"])];
     excluded_words := Some [js "adios"] |}.

(** Two campaigns that both match the sample message, and one whose rule
    document does not parse, stored in this order. *)
Definition general_campaign : CampaignRow :=
  {| campaign_id := 3; campaign_name := js "General";
     trigger_keywords :=
       Document (Some {| exact_matches := None; keywords := Some [js "info"];
                         synonyms := None; excluded_words := None |});
     priority := 1; campaign_is_active := true;
     campaign_deleted_at := None |}.

Definition broken_campaign : CampaignRow :=
  {| campaign_id := 9; campaign_name := js "Rota";
     trigger_keywords := Unparsable;
     priority := 50; campaign_is_active := true;
     campaign_deleted_at := None |}.

Definition campaigns_world : World :=
  with_campaigns [general_campaign; broken_campaign; yanachaga_campaign]
    quiet_world.

(** A campaign that can be chosen: active and not deleted. *)
Definition listed (c : CampaignRow) : Prop :=
  campaign_is_active c = true /\ campaign_deleted_at c = None.

(** A sender at the hour threshold of [sample_config], last seen ten
    minutes ago, and one trigger below it. *)
Definition busy_row : RateLimitRow :=
  {| is_blocked := false; blocked_reason := None; blocked_at := None;
     blocked_until := None;
     trigger_count_hour := 3; trigger_count_day := 5;
     trigger_count_total := 9;
     last_trigger_at := Some (1700000000000 - 600000) |}.

Definition nearly_busy_row : RateLimitRow :=
  {| is_blocked := false; blocked_reason := None; blocked_at := None;
     blocked_until := None;
     trigger_count_hour := 2; trigger_count_day := 5;
     trigger_count_total := 9;
     last_trigger_at := Some (1700000000000 - 600000) |}.


(** * The model on small inputs *)

Example split_keeps_empty_pieces :
  split SPACE (js "a  b ") = [js "a"; []; js "b"; []].
Proof. reflexivity. Qed.

Example includes_is_contiguous :
  includes (js "abc") (js "bc") = true /\ includes (js "abc") (js "ac") = false.
Proof. split; reflexivity. Qed.

Example collapse_whitespace_runs :
  collapse_whitespace ([32; 97; 32; 9; 98; 32; 32]%N) = js " a b ".
Proof. reflexivity. Qed.

Example trim_both_ends : trim ([9; 32; 97; 32; 98; 160]%N) = js "a b".
Proof. reflexivity. Qed.

Example nfd_of_e_acute : tabulated_nfd [233%N] = [101; 769]%N.
Proof. reflexivity. Qed.

Example normalizeText_que_tal :
  @normalizeText tabulated_runtime que_tal = js "que tal".
Proof. vm_compute. reflexivity. Qed.

(** The second test of [containsKeyword]: the words of the phrase are all in
    the message, in another order and apart. *)
Example containsKeyword_by_words :
  includes (js "info del ecovillage de yanachaga") (js "yanachaga ecovillage")
  = false
  /\ containsKeyword (js "info del ecovillage de yanachaga")
                     (js "yanachaga ecovillage") = true.
Proof. split; vm_compute; reflexivity. Qed.

Example buildMediaUrl_rewrites_prefix :
  buildMediaUrl sample_config (js "/media/campaigns/yanachaga/lote.jpg")
  = js "https://frontend.example/post/lote.jpg".
Proof. vm_compute. reflexivity. Qed.

Example order_by_asc_is_stable :
  List.map message_id
    (order_by_asc sort_order
       [plan_item 1 2 "TEXT" ""; plan_item 2 1 "TEXT" "";
        plan_item 3 2 "TEXT" ""; plan_item 4 1 "TEXT" ""])
  = [2; 4; 1; 3].
Proof. reflexivity. Qed.

(** * Properties of the keyword matcher *)

Section MatcherFacts.
Context {U : UnicodeRuntime}.

Lemma normalizeText_cons c s :
  normalizeText (c :: s) =
  trim (collapse_whitespace (replace_punctuation (strip_marks
    (normalizeNFD (toLowerCase (c :: s)))))).
Proof. reflexivity. Qed.

Lemma startsWith_nil s : startsWith s [] = true.
Proof. by destruct s. Qed.

Lemma includes_nil s : includes s [] = true.
Proof. destruct s; reflexivity. Qed.

Lemma containsKeyword_nil m : containsKeyword m [] = true.
Proof. unfold containsKeyword. by rewrite includes_nil. Qed.

Lemma excluded_hit_true nm words word :
  In word words -> includes nm (normalizeText word) = true ->
  excluded_hit nm words = true.
Proof.
  intros Hin Hinc. unfold excluded_hit. apply existsb_exists. eauto.
Qed.

Lemma excluded_word_free_veto messageText rules words word :
  excluded_words rules = Some words -> In word words ->
  includes (normalizeText messageText) (normalizeText word) = true ->
  matchKeywords messageText (Some rules) = None.
Proof.
  intros Hw Hin Hinc. unfold matchKeywords, vetoed.
  destruct messageText as [|c s]; [reflexivity|].
  rewrite Hw. by rewrite (excluded_hit_true _ _ _ Hin Hinc).
Qed.

Lemma matchKeywords_vetoed messageText rules words :
  excluded_words rules = Some words ->
  excluded_hit (normalizeText messageText) words = true ->
  matchKeywords messageText (Some rules) = None.
Proof.
  intros Hw Hhit. unfold matchKeywords, vetoed.
  destruct messageText as [|c s]; [reflexivity|].
  by rewrite Hw, Hhit.
Qed.

End MatcherFacts.

(** C2.  Whenever the normalization of some entry of [excluded_words] occurs
    in the normalized message, [matchKeywords] returns nothing, whatever the
    other three fields of the rule set hold. *)
Theorem excluded_word_vetoes_match `{U : UnicodeRuntime}
  (messageText : jsstring) (rules : KeywordRuleSet)
  (words : list jsstring) (word : jsstring) :
  excluded_words rules = Some words ->
  In word words ->
  includes (normalizeText messageText) (normalizeText word) = true ->
  matchKeywords messageText (Some rules) = None.
Proof.
  intros Hw Hin Hinc.
  eapply matchKeywords_vetoed; [exact Hw|].
  eapply excluded_hit_true; eauto.
Qed.

Lemma excluded_word_vetoes_match_witness :
  @matchKeywords tabulated_runtime yanachaga_message
    (Some yanachaga_rules_guarded) = None.
Proof.
  apply (@excluded_word_vetoes_match tabulated_runtime yanachaga_message _
           [js "adios"; js "GRACIAS!"] (js "GRACIAS!")).
  - reflexivity.
  - right. left. reflexivity.
  - vm_compute. reflexivity.
Defined.

(** *** The steps of [normalizeText] on their own output *)

Lemma trimStart_suffix s :
  exists t, s = t ++ trimStart s.
Proof.
  induction s as [|c s [t IH]]; simpl.
  - by exists [].
  - destruct (is_whitespace c).
    + exists (c :: t). simpl. by f_equal.
    + by exists [].
Qed.

Lemma trimEnd_prefix s :
  exists t, s = trimEnd s ++ t.
Proof.
  unfold trimEnd. destruct (trimStart_suffix (rev s)) as [t Ht].
  exists (rev t).
  rewrite <- rev_app_distr, <- Ht. by rewrite rev_involutive.
Qed.

Lemma trimStart_no_leading_space s : no_leading_space (trimStart s).
Proof.
  induction s as [|c s IH]; simpl; [done|].
  destruct (is_whitespace c) eqn:E; [done|]. simpl. exact E.
Qed.

Lemma trimStart_fixed s : no_leading_space s -> trimStart s = s.
Proof. destruct s as [|c s]; simpl; [done|]. by intros ->. Qed.

Lemma trimStart_idempotent s : trimStart (trimStart s) = trimStart s.
Proof. apply trimStart_fixed, trimStart_no_leading_space. Qed.

Lemma trimEnd_idempotent s : trimEnd (trimEnd s) = trimEnd s.
Proof.
  unfold trimEnd. by rewrite rev_involutive, trimStart_idempotent.
Qed.

Lemma trimEnd_no_leading_space s :
  no_leading_space s -> no_leading_space (trimEnd s).
Proof.
  destruct (trimEnd_prefix s) as [t Ht]. intros H.
  destruct (trimEnd s) as [|c r]; [done|].
  rewrite Ht in H. exact H.
Qed.

Lemma trim_idempotent s : trim (trim s) = trim s.
Proof.
  unfold trim.
  rewrite (trimStart_fixed (trimEnd (trimStart s))).
  - apply trimEnd_idempotent.
  - apply trimEnd_no_leading_space, trimStart_no_leading_space.
Qed.

Lemma Forall_trimStart (P : N -> Prop) s : Forall P s -> Forall P (trimStart s).
Proof.
  destruct (trimStart_suffix s) as [t Ht]. intros H.
  rewrite Ht in H. by apply Forall_app in H as [_ H].
Qed.

Lemma Forall_trimEnd (P : N -> Prop) s : Forall P s -> Forall P (trimEnd s).
Proof.
  destruct (trimEnd_prefix s) as [t Ht]. intros H.
  rewrite Ht in H. by apply Forall_app in H as [H _].
Qed.

Lemma Forall_trim (P : N -> Prop) s : Forall P s -> Forall P (trim s).
Proof. intros H. by apply Forall_trimEnd, Forall_trimStart. Qed.

Lemma Forall_collapse_whitespace (P : N -> Prop) s :
  P SPACE -> Forall P s -> Forall P (collapse_whitespace s).
Proof.
  intros Hsp. induction 1 as [|c s Hc Hs IH]; simpl; [constructor|].
  destruct (is_whitespace c).
  - destruct s as [|d s']; [by repeat constructor|].
    destruct (is_whitespace d); [exact IH|by constructor].
  - by constructor.
Qed.

Lemma single_spaced_app a b :
  single_spaced (a ++ b) -> single_spaced a /\ single_spaced b.
Proof.
  induction a as [|c a IH]; simpl; [done|].
  intros [Hc Hrest]. destruct (IH Hrest) as [Ha Hb].
  split; [split|]; [|done|done].
  intros Hw. destruct (Hc Hw) as [-> Hnext]. split; [done|].
  destruct a; [done|exact Hnext].
Qed.

Lemma collapse_whitespace_head c s :
  is_whitespace c = false ->
  exists r, collapse_whitespace (c :: s) = c :: r.
Proof. intros H. simpl. rewrite H. eauto. Qed.

Lemma collapse_whitespace_single_spaced s :
  single_spaced (collapse_whitespace s).
Proof.
  induction s as [|c s IH]; [done|].
  cbn [collapse_whitespace].
  destruct (is_whitespace c) eqn:Ec.
  - destruct s as [|d s']; [simpl; by repeat split|].
    destruct (is_whitespace d) eqn:Ed; [exact IH|].
    split; [|exact IH].
    intros _. split; [done|].
    destruct (collapse_whitespace_head d s' Ed) as [r ->]. exact Ed.
  - split; [|exact IH]. intros H. cbn -[is_whitespace] in H. congruence.
Qed.

Lemma collapse_whitespace_fixed s :
  single_spaced s -> collapse_whitespace s = s.
Proof.
  induction s as [|c s IH]; [done|].
  intros [Hc Hs]. cbn [collapse_whitespace].
  destruct (is_whitespace c) eqn:Ec.
  - destruct (Hc eq_refl) as [-> Hnext].
    destruct s as [|d s']; [done|].
    rewrite Hnext. by rewrite (IH Hs).
  - by rewrite (IH Hs).
Qed.

Lemma replace_punctuation_clean s :
  Forall (fun c => is_punctuation c = false) (replace_punctuation s).
Proof.
  unfold replace_punctuation. apply List.Forall_forall. intros c Hin.
  apply in_map_iff in Hin as (d & <- & _).
  destruct (is_punctuation d) eqn:E; [reflexivity|exact E].
Qed.

Lemma replace_punctuation_fixed s :
  Forall (fun c => is_punctuation c = false) s -> replace_punctuation s = s.
Proof.
  unfold replace_punctuation.
  induction 1 as [|c s Hc Hs IH]; simpl; [done|]. by rewrite Hc, IH.
Qed.

Lemma strip_marks_clean s :
  Forall (fun c => is_combining_mark c = false) (strip_marks s).
Proof.
  unfold strip_marks. apply List.Forall_forall. intros c Hin.
  apply filter_In in Hin as [_ H]. by apply negb_true_iff in H.
Qed.

Lemma strip_marks_fixed s :
  Forall (fun c => is_combining_mark c = false) s -> strip_marks s = s.
Proof.
  unfold strip_marks.
  induction 1 as [|c s Hc Hs IH]; simpl; [done|]. by rewrite Hc, IH.
Qed.

Lemma replace_punctuation_keeps_unmarked s :
  Forall (fun c => is_combining_mark c = false) s ->
  Forall (fun c => is_combining_mark c = false) (replace_punctuation s).
Proof.
  unfold replace_punctuation.
  induction 1 as [|c s Hc Hs IH]; simpl; [constructor|].
  constructor; [|exact IH]. by destruct (is_punctuation c).
Qed.

(** The last four steps of [normalizeText] leave their own result as it
    is. *)
Lemma tidy_steps_fixed z :
  let y := trim (collapse_whitespace (replace_punctuation (strip_marks z))) in
  trim (collapse_whitespace (replace_punctuation (strip_marks y))) = y.
Proof.
  intros y.
  assert (Hm : Forall (fun c => is_combining_mark c = false) y).
  { apply Forall_trim, Forall_collapse_whitespace; [reflexivity|].
    apply replace_punctuation_keeps_unmarked, strip_marks_clean. }
  assert (Hp : Forall (fun c => is_punctuation c = false) y).
  { apply Forall_trim, Forall_collapse_whitespace; [reflexivity|].
    apply replace_punctuation_clean. }
  assert (Hs : single_spaced y).
  { unfold y, trim.
    set (c := collapse_whitespace _).
    pose proof (collapse_whitespace_single_spaced
                  (replace_punctuation (strip_marks z))) as Hc.
    fold c in Hc.
    destruct (trimStart_suffix c) as [t Ht].
    rewrite Ht in Hc. apply single_spaced_app in Hc as [_ Hc].
    destruct (trimEnd_prefix (trimStart c)) as [t' Ht'].
    rewrite Ht' in Hc. by apply single_spaced_app in Hc as [Hc _]. }
  rewrite (strip_marks_fixed y Hm), (replace_punctuation_fixed y Hp),
    (collapse_whitespace_fixed y Hs).
  apply trim_idempotent.
Qed.

(** C7 (amended).  Normalizing twice gives what normalizing once gives, for
    every text whose normalization the runtime leaves alone when it lower-cases
    it and when it decomposes it canonically. *)
Theorem normalizeText_idempotent_on_stable `{U : UnicodeRuntime}
  (x : jsstring) :
  toLowerCase (normalizeText x) = normalizeText x ->
  normalizeNFD (normalizeText x) = normalizeText x ->
  normalizeText (normalizeText x) = normalizeText x.
Proof.
  intros Hlow Hnfd.
  destruct (normalizeText x) as [|c y] eqn:Ey; [reflexivity|].
  rewrite normalizeText_cons, Hlow, Hnfd, <- Ey.
  destruct x as [|d x]; [discriminate|].
  rewrite normalizeText_cons. apply tidy_steps_fixed.
Qed.

Lemma normalizeText_idempotent_on_stable_witness :
  @normalizeText tabulated_runtime (@normalizeText tabulated_runtime que_tal)
  = @normalizeText tabulated_runtime que_tal.
Proof.
  apply (@normalizeText_idempotent_on_stable tabulated_runtime que_tal).
  - vm_compute. reflexivity.
  - vm_compute. reflexivity.
Defined.

(** C7, as stated, fails: once the joiner is stripped the two points are out
    of canonical order, and the second normalization swaps them. *)
Lemma normalizeText_not_idempotent :
  @normalizeText tabulated_runtime (@normalizeText tabulated_runtime joiner_text)
  <> @normalizeText tabulated_runtime joiner_text.
Proof. vm_compute. discriminate. Qed.

(** *** Latin-1 text on the tabulated runtime *)

Lemma latin1_checked (c : N) : (c <= 255)%N -> latin1_check c = true.
Proof.
  intros Hc.
  assert (Hall : forallb latin1_check latin1_units = true)
    by (vm_compute; reflexivity).
  rewrite forallb_forall in Hall. apply Hall.
  unfold latin1_units. apply in_map_iff. exists (N.to_nat c).
  split; [apply N2Nat.id|]. apply in_seq. lia.
Qed.

Lemma Forall_place_unit (P : N -> Prop) c placed :
  P c -> Forall P placed -> Forall P (place_unit c placed).
Proof.
  intros Hc. induction 1 as [|a placed Ha Hp IH]; cbn.
  - by repeat constructor.
  - destruct (_ && _); constructor; auto.
Qed.

Lemma Forall_canonical_order (P : N -> Prop) s :
  Forall P s -> Forall P (canonical_order s).
Proof.
  intros Hs. unfold canonical_order. apply Forall_rev.
  assert (Hgen : forall placed,
             Forall P placed ->
             Forall P (fold_left (fun placed c => place_unit c placed) s placed)).
  { induction Hs as [|c s Hc Hs IH]; intros placed Hp; cbn; [exact Hp|].
    apply IH. by apply Forall_place_unit. }
  apply Hgen. constructor.
Qed.

Lemma canonical_order_starters s :
  Forall (fun c => combining_class c = 0%N) s -> canonical_order s = s.
Proof.
  intros Hs. unfold canonical_order.
  assert (Hgen : forall placed,
             fold_left (fun placed c => place_unit c placed) s placed
             = rev s ++ placed).
  { induction Hs as [|c s Hc Hs IH]; intros placed; cbn; [reflexivity|].
    assert (Hplace : place_unit c placed = c :: placed).
    { destruct placed as [|a placed]; cbn [place_unit]; [reflexivity|].
      by rewrite Hc. }
    rewrite Hplace, IH, <- app_assoc. reflexivity. }
  rewrite Hgen, app_nil_r. apply rev_involutive.
Qed.

Lemma settled_parts c :
  settled c = true ->
  lower_unit c = c /\ decompose c = [c] /\ combining_class c = 0%N.
Proof.
  unfold settled. intros H.
  apply andb_prop in H as [H Hclass]. apply andb_prop in H as [Hlow Hdec].
  apply N.eqb_eq in Hlow, Hclass. apply bool_decide_eq_true in Hdec.
  by repeat split.
Qed.

(** Text made of settled units is left alone by both built-ins. *)
Lemma settled_text_fixed y :
  Forall (fun c => settled c = true) y ->
  @toLowerCase tabulated_runtime y = y
  /\ @normalizeNFD tabulated_runtime y = y.
Proof.
  intros Hy. cbn [toLowerCase normalizeNFD tabulated_runtime].
  assert (Hlow : List.map lower_unit y = y).
  { induction Hy as [|c y Hc Hy IH]; cbn [List.map]; [reflexivity|].
    destruct (settled_parts c Hc) as (-> & _). by rewrite IH. }
  assert (Hdec : flat_map decompose y = y).
  { clear Hlow.
    induction Hy as [|c y Hc Hy IH]; cbn [flat_map]; [reflexivity|].
    destruct (settled_parts c Hc) as (_ & -> & _). cbn [app].
    by rewrite IH. }
  split; [exact Hlow|]. unfold tabulated_nfd. rewrite Hdec.
  apply canonical_order_starters.
  eapply List.Forall_impl; [|exact Hy].
  intros c Hc. by destruct (settled_parts c Hc) as (_ & _ & ->).
Qed.

Lemma strip_marks_settles s :
  Forall (fun d => is_combining_mark d || settled d = true) s ->
  Forall (fun c => settled c = true) (strip_marks s).
Proof.
  unfold strip_marks. induction 1 as [|d s Hd Hs IH]; cbn; [constructor|].
  destruct (is_combining_mark d) eqn:Em; cbn; [exact IH|].
  constructor; [exact Hd|exact IH].
Qed.

Lemma replace_punctuation_keeps_settled s :
  Forall (fun c => settled c = true) s ->
  Forall (fun c => settled c = true) (replace_punctuation s).
Proof.
  unfold replace_punctuation.
  induction 1 as [|c s Hc Hs IH]; cbn [List.map]; constructor; [|exact IH].
  destruct (is_punctuation c); [reflexivity|exact Hc].
Qed.

(** On the tabulated runtime the normalization of Latin-1 text is made of
    settled units. *)
Lemma latin1_normalization_is_settled x :
  Forall (fun c => (c <= 255)%N) x ->
  Forall (fun c => settled c = true) (@normalizeText tabulated_runtime x).
Proof.
  intros Hx. destruct x as [|c x]; [constructor|].
  rewrite normalizeText_cons. set (text := c :: x) in *. clearbody text.
  cbn [toLowerCase normalizeNFD tabulated_runtime].
  apply Forall_trim, Forall_collapse_whitespace; [reflexivity|].
  apply replace_punctuation_keeps_settled, strip_marks_settles.
  unfold tabulated_nfd. apply Forall_canonical_order.
  induction Hx as [|d text Hd Hx IH]; cbn [List.map flat_map];
    [constructor|].
  apply Forall_app. split; [|exact IH].
  pose proof (latin1_checked d Hd) as Hcheck. unfold latin1_check in Hcheck.
  apply andb_prop in Hcheck as [_ Hparts].
  rewrite forallb_forall in Hparts. apply List.Forall_forall. exact Hparts.
Qed.

(** C7 on the tabulated runtime: for every text of Latin-1 units,
    normalizing twice gives what normalizing once gives. *)
Corollary normalizeText_idempotent_latin1 x :
  Forall (fun c => (c <= 255)%N) x ->
  @normalizeText tabulated_runtime (@normalizeText tabulated_runtime x)
  = @normalizeText tabulated_runtime x.
Proof.
  intros Hx.
  destruct (settled_text_fixed _ (latin1_normalization_is_settled x Hx))
    as [Hlow Hnfd].
  destruct (@normalizeText tabulated_runtime x) as [|c y] eqn:Ey;
    [reflexivity|].
  rewrite normalizeText_cons, Hlow, Hnfd, <- Ey.
  destruct x as [|d x]; [discriminate|].
  rewrite normalizeText_cons. apply tidy_steps_fixed.
Qed.

(** *** The example of the specification *)

(** C8 (amended).  The example message matches the keyword rule with type
    KEYWORD and the keyword as matched text, on every runtime that lower-cases
    the message as expected and keeps plain ASCII text under canonical
    decomposition; the normalized keyword is a contiguous part of the
    normalized message, so [containsKeyword] accepts it at its first test. *)
Theorem yanachaga_matches_by_substring `{U : UnicodeRuntime} :
  toLowerCase yanachaga_message = yanachaga_lowered ->
  normalizeNFD yanachaga_lowered = yanachaga_lowered ->
  toLowerCase yanachaga_keyword = yanachaga_keyword ->
  normalizeNFD yanachaga_keyword = yanachaga_keyword ->
  matchKeywords yanachaga_message (Some yanachaga_rules)
  = Some {| matched := yanachaga_keyword; type := KEYWORD |}
  /\ includes (normalizeText yanachaga_message)
              (normalizeText yanachaga_keyword) = true.
Proof.
  intros Hm1 Hm2 Hk1 Hk2.
  assert (Hm : normalizeText yanachaga_message
               = js "hola info del yanachaga ecovillage gracias").
  { change yanachaga_message with (72%N :: List.tl yanachaga_message) at 1.
    rewrite normalizeText_cons.
    change (72%N :: List.tl yanachaga_message) with yanachaga_message.
    rewrite Hm1, Hm2. vm_compute. reflexivity. }
  assert (Hk : normalizeText yanachaga_keyword = yanachaga_keyword).
  { change yanachaga_keyword with (121%N :: List.tl yanachaga_keyword) at 1.
    rewrite normalizeText_cons.
    change (121%N :: List.tl yanachaga_keyword) with yanachaga_keyword.
    rewrite Hk1, Hk2. vm_compute. reflexivity. }
  split.
  - change yanachaga_message with (72%N :: List.tl yanachaga_message).
    cbn [matchKeywords].
    change (72%N :: List.tl yanachaga_message) with yanachaga_message.
    rewrite Hm. unfold vetoed, yanachaga_rules. cbn [excluded_words
      exact_matches keywords from_option first_contained List.find].
    change (js "yanachaga ecovillage") with yanachaga_keyword.
    rewrite Hk.
    replace (containsKeyword _ _) with true by (vm_compute; reflexivity).
    reflexivity.
  - rewrite Hm, Hk. vm_compute. reflexivity.
Qed.

Lemma yanachaga_matches_by_substring_witness :
  @matchKeywords tabulated_runtime yanachaga_message (Some yanachaga_rules)
  = Some {| matched := yanachaga_keyword; type := KEYWORD |}
  /\ includes (@normalizeText tabulated_runtime yanachaga_message)
              (@normalizeText tabulated_runtime yanachaga_keyword) = true.
Proof.
  apply (@yanachaga_matches_by_substring tabulated_runtime);
    vm_compute; reflexivity.
Defined.

(** C8, as stated, fails: the match is of type KEYWORD, but the keyword is a
    contiguous part of the normalized message. *)
Lemma yanachaga_phrase_is_contiguous :
  ~ (@matchKeywords tabulated_runtime yanachaga_message (Some yanachaga_rules)
     = Some {| matched := yanachaga_keyword; type := KEYWORD |}
     /\ includes (@normalizeText tabulated_runtime yanachaga_message)
                 (@normalizeText tabulated_runtime yanachaga_keyword) = false).
Proof. vm_compute. intros [_ H]. discriminate H. Qed.

(** *** Entries that normalize to the empty phrase *)

Lemma find_finds {A} (f : A -> bool) (l : list A) (x : A) :
  In x l -> f x = true -> exists y, List.find f l = Some y.
Proof.
  induction l as [|a l IH]; simpl; [done|].
  intros [->|Hin] Hx.
  - rewrite Hx. eauto.
  - destruct (f a); eauto.
Qed.

Section EmptyPhrase.
Context {U : UnicodeRuntime}.

Lemma first_contained_empty_phrase nm phrases phrase :
  In phrase phrases -> normalizeText phrase = [] ->
  exists found, first_contained nm phrases = Some found.
Proof.
  intros Hin He. unfold first_contained.
  apply (find_finds _ _ phrase Hin).
  rewrite He. apply containsKeyword_nil.
Qed.

End EmptyPhrase.

(** C9 (amended).  The empty phrase is contained in every message.  So an
    entry of [excluded_words] that normalizes to the empty string makes
    [matchKeywords] return nothing for every message; and an entry of
    [exact_matches] or of [keywords] that normalizes to the empty string
    passes [containsKeyword] for every message, and makes [matchKeywords]
    return a match (of type EXACT when the entry is in [exact_matches]) for
    every message that is not empty and not vetoed by [excluded_words]. *)
Theorem empty_phrase_matches_everything `{U : UnicodeRuntime} :
  (forall m : jsstring, containsKeyword m [] = true)
  /\ (forall messageText rules words word,
        excluded_words rules = Some words -> In word words ->
        normalizeText word = [] ->
        matchKeywords messageText (Some rules) = None)
  /\ (forall messageText rules phrases phrase,
        In phrase phrases -> normalizeText phrase = [] ->
        exact_matches rules = Some phrases \/ keywords rules = Some phrases ->
        containsKeyword (normalizeText messageText) (normalizeText phrase)
        = true
        /\ (messageText <> [] ->
            vetoed (normalizeText messageText) rules = false ->
            exists r, matchKeywords messageText (Some rules) = Some r
                      /\ (type r = EXACT \/ type r = KEYWORD)
                      /\ (exact_matches rules = Some phrases ->
                          type r = EXACT))).
Proof.
  split; [exact containsKeyword_nil|]. split.
  - intros messageText rules words word Hw Hin He.
    eapply excluded_word_free_veto; eauto.
    rewrite He. apply includes_nil.
  - intros messageText rules phrases phrase Hin He Hwhere.
    split; [rewrite He; apply containsKeyword_nil|].
    intros Hne Hveto.
    destruct messageText as [|c s]; [done|].
    cbn [matchKeywords]. rewrite Hveto.
    destruct (first_contained_empty_phrase (normalizeText (c :: s))
                phrases phrase Hin He) as [found Hfound].
    destruct Hwhere as [Hex|Hkw].
    + rewrite Hex. cbn [from_option]. rewrite Hfound.
      eexists. split; [reflexivity|]. cbn. auto.
    + destruct (from_option (first_contained (normalizeText (c :: s))) None
                  (exact_matches rules)) as [hit|] eqn:Eexact.
      * eexists. split; [reflexivity|]. cbn. auto.
      * rewrite Hkw. cbn [from_option]. rewrite Hfound.
        eexists. split; [reflexivity|]. cbn. split; [auto|].
        intros Hex. rewrite Hex in Eexact. cbn [from_option] in Eexact.
        congruence.
Qed.

Lemma empty_phrase_matches_everything_witness :
  @matchKeywords tabulated_runtime yanachaga_message
    (Some punctuation_excluded_rules) = None
  /\ exists r,
       @matchKeywords tabulated_runtime yanachaga_message
         (Some punctuation_keyword_rules) = Some r
       /\ (type r = EXACT \/ type r = KEYWORD)
       /\ (exact_matches punctuation_keyword_rules
           = Some [js "precio"; js "..."] -> type r = EXACT).
Proof.
  destruct (@empty_phrase_matches_everything tabulated_runtime)
    as (_ & Hexcluded & Htier).
  split.
  - apply (Hexcluded yanachaga_message punctuation_excluded_rules
             [js "adios"; js "?!"] (js "?!")).
    + reflexivity.
    + right. left. reflexivity.
    + vm_compute. reflexivity.
  - apply (Htier yanachaga_message punctuation_keyword_rules
             [js "precio"; js "..."] (js "...")).
    + right. left. reflexivity.
    + vm_compute. reflexivity.
    + right. reflexivity.
    + discriminate.
    + vm_compute. reflexivity.
Defined.

(** C9, as stated, fails on the empty message: it is not vetoed, the only
    entry of [exact_matches] normalizes to the empty string, and
    [matchKeywords] still returns nothing, because it gives up on an empty
    message before looking at any rule. *)
Lemma empty_message_is_never_matched :
  exact_matches empty_phrase_rules = Some [[]]
  /\ @normalizeText tabulated_runtime [] = []
  /\ @vetoed tabulated_runtime (@normalizeText tabulated_runtime [])
       empty_phrase_rules = false
  /\ @matchKeywords tabulated_runtime [] (Some empty_phrase_rules) = None.
Proof. repeat split. Qed.

(** * Properties of the rate limiter *)

Lemma alter_present `{Countable K} {A} (f : A -> A) (k : K) (m : gmap K A)
  (x : A) :
  m !! k = Some x -> alter f k m = <[k := f x]> m.
Proof.
  intros Hx. apply map_eq. intros j.
  destruct (decide (k = j)) as [->|Hne].
  - rewrite lookup_alter_eq, lookup_insert_eq, Hx. reflexivity.
  - by rewrite lookup_alter_ne, lookup_insert_ne.
Qed.

Ltac run_monad :=
  unfold try_catch, bind, attempt, external, gets, modify, ret, throw;
  cbn [fst snd faults tick now config user_rate_limit blocked_numbers
       bot_conversations insertId bot_message_log delivered messages
       message_media campaigns botPhoneNumber
       with_tick with_now with_user_rate_limit with_bot_conversations
       with_bot_message_log with_delivered
       length Nat.eqb negb rows_of].

(** C5.  A sender that is not on the permanent list and whose record is
    blocked: when [blocked_until] is set and past, the check allows with
    reason UNBLOCKED and clears the block in the same call; when it is not
    set, or not yet past, the check denies with reason BLOCKED_TEMPORARY and
    the table stays as it is.  The queries of the call (two reads, and the
    update when the block is cleared) are taken to succeed. *)
Theorem blocked_sender_is_unblocked_or_denied
  (userPhone : jsstring) (w : World) (row : RateLimitRow) :
  userPhone ∉ blocked_numbers w ->
  user_rate_limit w !! userPhone = Some row ->
  is_blocked row = true ->
  faults w (tick w) = None ->
  faults w (S (tick w)) = None ->
  (forall t, blocked_until row = Some t -> t < now w ->
     faults w (S (S (tick w))) = None ->
     fst (checkRateLimit userPhone w)
     = Val {| allowed := true; reason := UNBLOCKED |}
     /\ user_rate_limit (snd (checkRateLimit userPhone w))
        = <[userPhone := clear_block row]> (user_rate_limit w)
     /\ is_blocked (clear_block row) = false
     /\ blocked_until (clear_block row) = None)
  /\ (blocked_until row = None
      \/ (exists t, blocked_until row = Some t /\ now w <= t) ->
      fst (checkRateLimit userPhone w)
      = Val {| allowed := false; reason := BLOCKED_TEMPORARY |}
      /\ user_rate_limit (snd (checkRateLimit userPhone w))
         = user_rate_limit w).
Proof.
  intros Hperm Hrow Hblocked F0 F1.
  split.
  - intros t Ht Hpast F2.
    unfold checkRateLimit, select_blocked, select_rate_limit, update_unblock.
    run_monad. rewrite F0. run_monad.
    rewrite (bool_decide_eq_false_2 _ Hperm). run_monad.
    rewrite F1. run_monad. rewrite Hrow. run_monad.
    rewrite Hblocked, Ht. run_monad.
    replace (t <? now w) with true by (symmetry; apply Z.ltb_lt; lia).
    run_monad. rewrite F2. run_monad.
    repeat split. by apply alter_present.
  - intros Hcase.
    unfold checkRateLimit, select_blocked, select_rate_limit, update_unblock.
    run_monad. rewrite F0. run_monad.
    rewrite (bool_decide_eq_false_2 _ Hperm). run_monad.
    rewrite F1. run_monad. rewrite Hrow. run_monad.
    rewrite Hblocked.
    destruct Hcase as [->|(t & -> & Hfuture)].
    + run_monad. by split.
    + run_monad.
      replace (t <? now w) with false by (symmetry; apply Z.ltb_ge; lia).
      run_monad. by split.
Qed.

Lemma blocked_sender_is_unblocked_or_denied_witness :
  (fst (checkRateLimit sender (blocked_world expired_block))
   = Val {| allowed := true; reason := UNBLOCKED |}
   /\ user_rate_limit (snd (checkRateLimit sender (blocked_world expired_block)))
      = <[sender := clear_block expired_block]>
          (user_rate_limit (blocked_world expired_block)))
  /\ (fst (checkRateLimit sender (blocked_world running_block))
      = Val {| allowed := false; reason := BLOCKED_TEMPORARY |}
      /\ user_rate_limit (snd (checkRateLimit sender (blocked_world running_block)))
         = user_rate_limit (blocked_world running_block)).
Proof.
  split.
  - destruct (blocked_sender_is_unblocked_or_denied sender
                (blocked_world expired_block) expired_block) as [Hpast _].
    + apply not_elem_of_empty.
    + apply lookup_insert_eq.
    + reflexivity.
    + reflexivity.
    + reflexivity.
    + destruct (Hpast (1700000000000 - 60000)) as (Hr & Ht & _).
      * reflexivity.
      * simpl. lia.
      * reflexivity.
      * split; [exact Hr|exact Ht].
  - destruct (blocked_sender_is_unblocked_or_denied sender
                (blocked_world running_block) running_block) as [_ Hfuture].
    + apply not_elem_of_empty.
    + apply lookup_insert_eq.
    + reflexivity.
    + reflexivity.
    + reflexivity.
    + apply Hfuture. right. exists (1700000000000 + 60000).
      split; [reflexivity|simpl; lia].
Defined.

Ltac split_run :=
  repeat (run_monad;
    match goal with
    | |- context [match faults ?w ?n with _ => _ end] =>
        destruct (faults w n) eqn:?
    | |- context [bool_decide ?P] => destruct (bool_decide P) eqn:?
    | |- context [rows_of ?o] => destruct o eqn:?
    | |- context [if is_blocked ?r then _ else _] =>
        destruct (is_blocked r) eqn:?
    | |- context [match blocked_until ?r with _ => _ end] =>
        destruct (blocked_until r) eqn:?
    | |- context [match last_trigger_at ?r with _ => _ end] =>
        destruct (last_trigger_at r) eqn:?
    | |- context [if (?a <? ?b)%Z then _ else _] => destruct (a <? b)%Z eqn:?
    | |- context [if ?a && ?b then _ else _] => destruct (a && b) eqn:?
    end);
  run_monad.

(** [checkRateLimit] returns; no error leaves it. *)
Lemma checkRateLimit_never_throws (userPhone : jsstring) (w : World) :
  exists r, fst (checkRateLimit userPhone w) = Val r.
Proof.
  unfold checkRateLimit, select_blocked, select_rate_limit, update_unblock.
  split_run; eauto.
Qed.

(** C6.  When one of the queries that a call of [checkRateLimit] performs
    fails, the call does not throw: it returns "allowed" with reason
    ERROR_CHECK.  The queries performed are the calls numbered from the tick
    at entry up to the tick at exit. *)
Theorem checkRateLimit_fails_open (userPhone : jsstring) (w : World)
  (k : nat) :
  (tick w <= k < tick (snd (checkRateLimit userPhone w)))%nat ->
  faults w k <> None ->
  fst (checkRateLimit userPhone w)
  = Val {| allowed := true; reason := ERROR_CHECK |}.
Proof.
  unfold checkRateLimit, select_blocked, select_rate_limit, update_unblock.
  split_run; try reflexivity; intros Hk Hfault; exfalso;
    repeat match goal with
           | H : faults w ?n = None |- _ =>
               destruct (decide (k = n)) as [->|?]; [congruence|]; revert H
           end; lia.
Qed.

Lemma checkRateLimit_fails_open_witness :
  fst (checkRateLimit sender unreachable_world)
  = Val {| allowed := true; reason := ERROR_CHECK |}.
Proof.
  apply (checkRateLimit_fails_open sender unreachable_world 1%nat).
  - vm_compute. lia.
  - vm_compute. discriminate.
Defined.

(** * Properties of the dispatcher *)

(** *** The counters *)

Lemma send_by_type_supported userPhone msg variables :
  supported msg = false <-> send_by_type userPhone msg variables = None.
Proof.
  unfold supported, supported_type, send_by_type. cbn [existsb].
  repeat (destruct (jsstring_eqb (type_code msg) _); [cbn; split; discriminate|]).
  cbn. split; reflexivity.
Qed.

Lemma logMessageFailed_returns conversationId messageId e w :
  fst (logMessageFailed conversationId messageId e w) = Val tt.
Proof.
  unfold logMessageFailed. run_monad. by destruct (faults w (tick w)).
Qed.

Lemma logMessageSent_returns conversationId messageId i w :
  fst (logMessageSent conversationId messageId i w) = Val tt.
Proof.
  unfold logMessageSent. run_monad. by destruct (faults w (tick w)).
Qed.

Lemma sleep_returns ms w : fst (sleep ms w) = Val tt.
Proof. reflexivity. Qed.

Lemma pause_returns msg w : pause msg w = (Val tt, snd (pause msg w)).
Proof. unfold pause. by destruct (0 <? delay_seconds msg). Qed.

(** One turn of the loop: what [send_one] returns tells whether the type is
    supported. *)
Lemma send_one_outcome userPhone conversationId msg variables w :
  match fst (send_one userPhone conversationId msg variables w) with
  | Val true => supported msg = true
  | Val false => supported msg = false
  | Exn _ => supported msg = true
  end.
Proof.
  unfold send_one. unfold bind at 1. rewrite pause_returns.
  set (w0 := snd (pause msg w)).
  pose proof (send_by_type_supported userPhone msg variables) as Hs.
  destruct (send_by_type userPhone msg variables) as [send|].
  - assert (Hsup : supported msg = true).
    { destruct (supported msg); [done|].
      destruct Hs as [Hs _]. by discriminate Hs. }
    unfold bind.
    destruct (send w0) as [[i|e] w1]; [|exact Hsup].
    pose proof (logMessageSent_returns conversationId (message_id msg) i w1)
      as Hl.
    destruct (logMessageSent conversationId (message_id msg) i w1)
      as [[[]|e] w2]; [|discriminate Hl].
    destruct (incrementMessagesSent conversationId w2) as [[[]|e] w3];
      cbn; exact Hsup.
  - cbn. by apply Hs.
Qed.

Lemma send_loop_counts userPhone conversationId variables plan :
  forall successCount failCount w,
    match send_loop userPhone conversationId plan variables
                    successCount failCount w with
    | (Val counts, _) =>
        (fst counts + snd counts
         = successCount + failCount + length (List.filter supported plan))%nat
    | (Exn e, _) => is_critical e = true
    end.
Proof.
  induction plan as [|msg rest IH]; intros successCount failCount w.
  - cbn. lia.
  - cbn [send_loop List.filter]. unfold bind at 1, attempt.
    pose proof (send_one_outcome userPhone conversationId msg variables w)
      as Hone.
    destruct (send_one userPhone conversationId msg variables w)
      as [[[|]|e] w1]; cbn [fst] in Hone; rewrite Hone.
    + specialize (IH (S successCount) failCount w1).
      destruct (send_loop _ _ rest _ _ _ w1) as [[counts|e] w2];
        [cbn [length]; lia|exact IH].
    + specialize (IH successCount failCount w1).
      destruct (send_loop _ _ rest _ _ _ w1) as [[counts|e] w2];
        [lia|exact IH].
    + unfold bind at 1.
      pose proof (logMessageFailed_returns conversationId (message_id msg)
                    e w1) as Hl.
      destruct (logMessageFailed conversationId (message_id msg) e w1)
        as [[[]|e'] w2]; [|discriminate Hl].
      destruct (is_critical e) eqn:Ecrit; [exact Ecrit|].
      specialize (IH successCount (S failCount) w2).
      destruct (send_loop _ _ rest _ _ _ w2) as [[counts|e'] w3];
        [cbn [length]; lia|exact IH].
Qed.

Lemma filter_length_le {A} (f : A -> bool) (l : list A) :
  (length (List.filter f l) <= length l)%nat.
Proof.
  induction l as [|a l IH]; cbn; [lia|]. destruct (f a); cbn; lia.
Qed.

Lemma filter_length_lt {A} (f : A -> bool) (l : list A) :
  Exists (fun a => f a = false) l ->
  (length (List.filter f l) < length l)%nat.
Proof.
  induction 1 as [a l Ha|a l _ IH]; cbn.
  - rewrite Ha. pose proof (filter_length_le f l). lia.
  - destruct (f a); cbn; lia.
Qed.

(** What leaves the dispatcher: a result whose counters add up to the number
    of items of a supported type, or the error that ends a dispatch. *)
Lemma dispatch_outcome userPhone conversationId plan variables w :
  match sendSequentialMessages userPhone conversationId plan variables w with
  | (Val r, _) =>
      total r = length plan
      /\ (sent r + failed r = length (List.filter supported plan))%nat
  | (Exn e, _) => is_critical e = true
  end.
Proof.
  unfold sendSequentialMessages, bind.
  pose proof (send_loop_counts userPhone conversationId variables plan
                0%nat 0%nat w) as Hc.
  destruct (send_loop _ _ plan _ _ _ w) as [[counts|e] w1]; [|exact Hc].
  cbn [ret total sent failed]. cbn [Nat.add] in Hc. by split.
Qed.

(** C10.  Whenever the dispatcher returns a result, [total] is the length of
    the plan and [sent + failed] is the number of items of a supported type,
    hence at most [total], and less than [total] as soon as the plan has an
    item of another type.  The only other way out of the dispatcher is the
    error that ends a dispatch. *)
Theorem dispatch_counts_bounded
  (userPhone : jsstring) (conversationId : Z) (plan : list MessageRow)
  (variables : list (jsstring * jsstring)) (w : World) :
  match sendSequentialMessages userPhone conversationId plan variables w with
  | (Val r, _) =>
      total r = length plan
      /\ (sent r + failed r = length (List.filter supported plan))%nat
      /\ (sent r + failed r <= total r)%nat
      /\ (Exists (fun msg => supported msg = false) plan ->
          (sent r + failed r < total r)%nat)
  | (Exn e, _) => is_critical e = true
  end.
Proof.
  pose proof (dispatch_outcome userPhone conversationId plan variables w)
    as Hout.
  destruct (sendSequentialMessages userPhone conversationId plan variables w)
    as [[r|e] w1]; [|exact Hout].
  destruct Hout as [Htotal Hsum].
  split; [exact Htotal|]. split; [exact Hsum|]. rewrite Hsum, Htotal.
  split.
  - apply filter_length_le.
  - apply filter_length_lt.
Qed.

Lemma dispatch_counts_bounded_witness :
  exists r w',
    sendSequentialMessages sender 1 mixed_plan [] quiet_world = (Val r, w')
    /\ total r = 3%nat
    /\ (sent r + failed r < total r)%nat.
Proof.
  pose proof (dispatch_counts_bounded sender 1 mixed_plan [] quiet_world)
    as H.
  destruct (sendSequentialMessages sender 1 mixed_plan [] quiet_world)
    as [[r|e] w'] eqn:E.
  - exists r, w'. split; [reflexivity|].
    destruct H as (Ht & _ & _ & Hlt). split; [exact Ht|].
    apply Hlt. right. left. reflexivity.
  - vm_compute in E. discriminate E.
Defined.

(** * Properties of the conversation life cycle *)

Lemma update_conversation_sets conversationId f w row :
  faults w (tick w) = None ->
  bot_conversations w !! conversationId = Some row ->
  bot_conversations (snd (update_conversation conversationId f w))
    !! conversationId = Some (f (now w) row).
Proof.
  intros Hf Hrow. unfold update_conversation. run_monad. rewrite Hf.
  run_monad. rewrite lookup_alter_eq, Hrow. reflexivity.
Qed.

(** * The order of a dispatch *)

(** *** Computations that leave the log alone *)

Lemma calm_ret {A} (a : A) : calm (ret a).
Proof. intros w Hq. by repeat split. Qed.

Lemma calm_throw {A} e : is_critical e = false -> calm (@throw A e).
Proof. intros He w Hq. by repeat split. Qed.

Lemma calm_gets {A} (f : World -> A) : calm (gets f).
Proof. intros w Hq. by repeat split. Qed.

Lemma calm_modify (f : World -> World) :
  (forall w, faults (f w) = faults w
             /\ bot_message_log (f w) = bot_message_log w) ->
  calm (modify f).
Proof.
  intros Hf w Hq. destruct (Hf w) as [Hfa Hlog]. cbn.
  repeat split; [|exact Hlog]. intros n. rewrite Hfa. apply Hq.
Qed.

Lemma calm_bind {A B} (m : M A) (k : A -> M B) :
  calm m -> (forall a, calm (k a)) -> calm (bind m k).
Proof.
  intros Hm Hk w Hq. unfold bind.
  destruct (Hm w Hq) as (Hq1 & Hlog1 & Hr1).
  destruct (m w) as [[a|e] w1]; cbn [fst snd] in *.
  - destruct (Hk a w1 Hq1) as (Hq2 & Hlog2 & Hr2).
    repeat split; [exact Hq2|congruence|exact Hr2].
  - by repeat split.
Qed.

Lemma calm_external {A} (call : M A) : calm call -> calm (external call).
Proof.
  intros Hc w Hq. unfold external. rewrite (Hq (tick w)).
  apply (Hc (with_tick (S (tick w)) w)). exact Hq.
Qed.

Lemma calm_attempt {A} (m : M A) : calm m -> calm (attempt m).
Proof.
  intros Hm w Hq. unfold attempt.
  destruct (Hm w Hq) as (Hq1 & Hlog1 & _).
  destruct (m w) as [r w1]. by repeat split.
Qed.

Lemma calm_sleep ms : calm (sleep ms).
Proof. apply calm_modify. intros w. by split. Qed.

Lemma calm_pause msg : calm (pause msg).
Proof.
  unfold pause. destruct (0 <? delay_seconds msg);
    [apply calm_sleep|apply calm_ret].
Qed.

Lemma calm_sendMessage to what how : calm (sendMessage to what how).
Proof.
  unfold sendMessage. apply calm_external. intros w Hq. by repeat split.
Qed.

Lemma calm_getMessageMedia messageId : calm (getMessageMedia messageId).
Proof. apply calm_external, calm_gets. Qed.

Lemma calm_downloadMediaFromUrl fileUrl mimeType name :
  calm (downloadMediaFromUrl fileUrl mimeType name).
Proof. apply calm_external, calm_ret. Qed.

Lemma calm_first_media message missing fallbackMime name :
  is_critical missing = false ->
  calm (first_media message missing fallbackMime name).
Proof.
  intros Hm. unfold first_media.
  apply calm_bind; [apply calm_getMessageMedia|].
  intros [|mediaFile rest]; [by apply calm_throw|].
  apply calm_bind; [apply calm_gets|].
  intros cfg. apply calm_downloadMediaFromUrl.
Qed.

Lemma calm_gallery_loop userPhone mediaFiles :
  forall lastMessageId, calm (gallery_loop userPhone mediaFiles lastMessageId).
Proof.
  induction mediaFiles as [|mediaFile rest IH]; intros lastMessageId;
    cbn [gallery_loop].
  - apply calm_ret.
  - apply calm_bind; [apply calm_gets|]. intros cfg.
    apply calm_bind.
    + apply calm_attempt.
      apply calm_bind; [apply calm_downloadMediaFromUrl|]. intros media.
      apply calm_bind; [apply calm_sendMessage|]. intros sentId.
      apply calm_bind; [|intros; apply calm_ret].
      destruct rest; [apply calm_ret|apply calm_sleep].
    + intros r. apply IH.
Qed.

Lemma calm_send_by_type userPhone msg variables send :
  send_by_type userPhone msg variables = Some send -> calm send.
Proof.
  unfold send_by_type.
  repeat (destruct (jsstring_eqb (type_code msg) _);
          [intros [= <-]|]); [| | | | |discriminate].
  - apply calm_sendMessage.
  - unfold sendImageMessage.
    apply calm_bind; [by apply calm_first_media|].
    intros media. apply calm_sendMessage.
  - unfold sendAudioMessage.
    apply calm_bind; [by apply calm_first_media|].
    intros media. apply calm_sendMessage.
  - unfold sendDocumentMessage.
    apply calm_bind; [by apply calm_first_media|].
    intros media. apply calm_sendMessage.
  - unfold sendGalleryMessage.
    apply calm_bind; [apply calm_getMessageMedia|].
    intros [|mediaFile rest]; [by apply calm_throw|].
    apply calm_bind; [apply calm_gallery_loop|].
    intros [sentId|]; [apply calm_ret|].
    apply calm_bind; [apply calm_gets|]. intros t. apply calm_ret.
Qed.

(** *** One turn of the loop when every call succeeds *)

Lemma logMessageSent_quiet conversationId messageId i w :
  quiet w ->
  quiet (snd (logMessageSent conversationId messageId i w))
  /\ logged_ids (snd (logMessageSent conversationId messageId i w))
     = logged_ids w ++ [messageId].
Proof.
  intros Hq. unfold logMessageSent, logged_ids. run_monad.
  rewrite (Hq (tick w)). run_monad. split; [exact Hq|].
  by rewrite map_app.
Qed.

Lemma logMessageFailed_quiet conversationId messageId e w :
  quiet w ->
  quiet (snd (logMessageFailed conversationId messageId e w))
  /\ logged_ids (snd (logMessageFailed conversationId messageId e w))
     = logged_ids w ++ [messageId].
Proof.
  intros Hq. unfold logMessageFailed, logged_ids. run_monad.
  rewrite (Hq (tick w)). run_monad. split; [exact Hq|].
  by rewrite map_app.
Qed.

Lemma incrementMessagesSent_quiet conversationId w :
  quiet w ->
  fst (incrementMessagesSent conversationId w) = Val tt
  /\ quiet (snd (incrementMessagesSent conversationId w))
  /\ logged_ids (snd (incrementMessagesSent conversationId w)) = logged_ids w.
Proof.
  intros Hq. unfold incrementMessagesSent, update_conversation, logged_ids.
  run_monad. rewrite (Hq (tick w)). run_monad. by repeat split.
Qed.

Lemma send_one_quiet userPhone conversationId msg variables w :
  quiet w ->
  quiet (snd (send_one userPhone conversationId msg variables w))
  /\ match fst (send_one userPhone conversationId msg variables w) with
     | Val true =>
         logged_ids (snd (send_one userPhone conversationId msg variables w))
         = logged_ids w ++ [message_id msg]
     | Val false =>
         logged_ids (snd (send_one userPhone conversationId msg variables w))
         = logged_ids w
     | Exn e =>
         is_critical e = false
         /\ logged_ids (snd (send_one userPhone conversationId msg variables w))
            = logged_ids w
     end.
Proof.
  intros Hq.
  destruct (send_one userPhone conversationId msg variables w) as [r w']
    eqn:E.
  unfold send_one in E. unfold bind at 1 in E.
  destruct (calm_pause msg w Hq) as (Hq0 & Hlog0 & _).
  rewrite pause_returns in E. set (w0 := snd (pause msg w)) in *.
  assert (Hids0 : logged_ids w0 = logged_ids w)
    by (unfold logged_ids; by rewrite Hlog0).
  destruct (send_by_type userPhone msg variables) as [send|] eqn:Esend.
  - destruct (calm_send_by_type _ _ _ _ Esend w0 Hq0) as (Hq1 & Hlog1 & Hr1).
    unfold bind in E.
    destruct (send w0) as [[i|e] w1]; cbn [fst snd] in *.
    + destruct (logMessageSent_quiet conversationId (message_id msg) i w1 Hq1)
        as [Hq2 Hids2].
      pose proof (logMessageSent_returns conversationId (message_id msg) i w1)
        as Hret.
      destruct (logMessageSent conversationId (message_id msg) i w1)
        as [[[]|e] w2]; [|discriminate Hret]. cbn [fst snd] in *.
      destruct (incrementMessagesSent_quiet conversationId w2 Hq2)
        as (Hret3 & Hq3 & Hids3).
      destruct (incrementMessagesSent conversationId w2) as [[[]|e] w3];
        [|discriminate Hret3]. cbn [fst snd] in *.
      injection E as <- <-.
      split; [exact Hq3|]. rewrite Hids3, Hids2.
      unfold logged_ids. by rewrite Hlog1, Hlog0.
    + injection E as <- <-.
      split; [exact Hq1|]. split; [exact Hr1|].
      unfold logged_ids. by rewrite Hlog1, Hlog0.
  - injection E as <- <-. by split.
Qed.

(** When every call succeeds the dispatcher returns, and the log gains one
    row for each item of a supported type, in the order of the plan. *)
Lemma send_loop_quiet userPhone conversationId variables plan :
  forall successCount failCount w,
    quiet w ->
    exists counts w',
      send_loop userPhone conversationId plan variables
                successCount failCount w = (Val counts, w')
      /\ quiet w'
      /\ logged_ids w'
         = logged_ids w ++ List.map message_id (List.filter supported plan).
Proof.
  induction plan as [|msg rest IH]; intros successCount failCount w Hq.
  - exists (successCount, failCount), w. cbn. by rewrite app_nil_r.
  - cbn [send_loop List.filter]. unfold bind at 1, attempt.
    pose proof (send_one_outcome userPhone conversationId msg variables w)
      as Hone.
    destruct (send_one_quiet userPhone conversationId msg variables w Hq)
      as [Hq1 Hlog1].
    destruct (send_one userPhone conversationId msg variables w)
      as [[[|]|e] w1]; cbn [fst snd] in *; rewrite Hone.
    + destruct (IH (S successCount) failCount w1 Hq1)
        as (counts & w' & Hrun & Hq' & Hids).
      exists counts, w'. split; [exact Hrun|]. split; [exact Hq'|].
      rewrite Hids, Hlog1. cbn [List.map]. by rewrite <- app_assoc.
    + destruct (IH successCount failCount w1 Hq1)
        as (counts & w' & Hrun & Hq' & Hids).
      exists counts, w'. split; [exact Hrun|]. split; [exact Hq'|].
      by rewrite Hids, Hlog1.
    + destruct Hlog1 as [Hcrit Hlog1]. unfold bind at 1.
      destruct (logMessageFailed_quiet conversationId (message_id msg) e w1
                  Hq1) as [Hq2 Hids2].
      pose proof (logMessageFailed_returns conversationId (message_id msg)
                    e w1) as Hret.
      destruct (logMessageFailed conversationId (message_id msg) e w1)
        as [[[]|e'] w2]; [|discriminate Hret]. cbn [fst snd] in *.
      rewrite Hcrit.
      destruct (IH successCount (S failCount) w2 Hq2)
        as (counts & w' & Hrun & Hq' & Hids).
      exists counts, w'. split; [exact Hrun|]. split; [exact Hq'|].
      rewrite Hids, Hids2, Hlog1. cbn [List.map]. by rewrite <- app_assoc.
Qed.

(** *** The order of a fetched plan *)

Lemma insert_by_sorted {A} (key : A -> Z) (x : A) (l : list A) :
  StronglySorted (fun a b => key a <= key b) l ->
  StronglySorted (fun a b => key a <= key b) (insert_by key x l).
Proof.
  induction 1 as [|y l Hs IH Hy]; cbn.
  - repeat constructor.
  - destruct (Z.leb_spec (key x) (key y)) as [Hle|Hgt].
    + constructor; [by constructor|].
      constructor; [exact Hle|].
      eapply List.Forall_impl; [|exact Hy]. cbn. intros; lia.
    + constructor; [exact IH|].
      assert (Hin : forall z, In z (insert_by key x l) -> z = x \/ In z l).
      { clear. induction l as [|a l IH]; cbn.
        - intros z [->|[]]; auto.
        - destruct (key x <=? key a); cbn.
          + intros z [->|[->|Hz]]; auto.
          + intros z [->|Hz]; [auto|].
            destruct (IH z Hz); auto. }
      apply List.Forall_forall. intros z Hz.
      destruct (Hin z Hz) as [->|Hz']; [lia|].
      rewrite List.Forall_forall in Hy. by apply Hy.
Qed.

Lemma order_by_asc_sorted {A} (key : A -> Z) (rows : list A) :
  StronglySorted (fun a b => key a <= key b) (order_by_asc key rows).
Proof.
  induction rows as [|row rows IH]; cbn; [constructor|].
  by apply insert_by_sorted.
Qed.

Lemma filter_sorted {A} (R : A -> A -> Prop) (f : A -> bool) (l : list A) :
  StronglySorted R l -> StronglySorted R (List.filter f l).
Proof.
  induction 1 as [|x l Hs IH Hx]; cbn; [constructor|].
  destruct (f x); [|exact IH].
  constructor; [exact IH|].
  apply List.Forall_forall. intros z Hz.
  apply filter_In in Hz as [Hz _].
  rewrite List.Forall_forall in Hx. by apply Hx.
Qed.

(** The loop goes through a plan from left to right, whatever happens: the
    dispatch of two plans one after the other is the dispatch of the first,
    then, unless that one was cut short, of the second. *)
Lemma send_loop_app userPhone conversationId variables first second :
  forall successCount failCount w,
    send_loop userPhone conversationId (first ++ second) variables
              successCount failCount w
    = bind (send_loop userPhone conversationId first variables
                      successCount failCount)
           (fun counts =>
              send_loop userPhone conversationId second variables
                        (fst counts) (snd counts)) w.
Proof.
  induction first as [|msg rest IH]; intros successCount failCount w.
  - reflexivity.
  - cbn [app send_loop]. unfold bind in *. unfold attempt.
    destruct (send_one userPhone conversationId msg variables w)
      as [[[|]|e] w1].
    + apply IH.
    + apply IH.
    + destruct (logMessageFailed conversationId (message_id msg) e w1)
        as [[[]|e'] w2]; [|reflexivity].
      destruct (is_critical e); [reflexivity|apply IH].
Qed.

(** C3, as stated, fails: handed the plan that lists sort order 2 before
    sort order 1, the dispatcher sends the item of sort order 2 first. *)
Lemma unsorted_plan_is_sent_as_listed :
  List.map sort_order unsorted_plan = [2; 1]
  /\ List.map payload
       (delivered (snd (sendSequentialMessages sender 1 unsorted_plan
                          name_and_phone conversation_world)))
     = [ Text (Some (js "segundo")) name_and_phone;
         Text (Some (js "primero")) name_and_phone ]
  /\ logged_ids (snd (sendSequentialMessages sender 1 unsorted_plan
                        name_and_phone conversation_world))
     = [20; 10].
Proof. vm_compute. repeat split. Qed.

(** * A send that fails because the session is gone *)

(** The dispatcher stops at the item whose send fails with such an error: it
    logs the failure and throws, and the rest of the plan is not touched. *)
Lemma critical_error_aborts userPhone conversationId variables msg rest
  successCount failCount w e w1 :
  send_one userPhone conversationId msg variables w = (Exn e, w1) ->
  is_critical e = true ->
  send_loop userPhone conversationId (msg :: rest) variables
            successCount failCount w
  = (Exn e, snd (logMessageFailed conversationId (message_id msg) e w1)).
Proof.
  intros Hone Hcrit. cbn [send_loop]. unfold bind, attempt. rewrite Hone.
  pose proof (logMessageFailed_returns conversationId (message_id msg) e w1)
    as Hret.
  destruct (logMessageFailed conversationId (message_id msg) e w1)
    as [[[]|e'] w2]; [|discriminate Hret].
  rewrite Hcrit. reflexivity.
Qed.

(** The error reaches [handleIncomingMessage] through [deliver] with the
    world as the dispatcher left it: nothing is done to the conversation on
    the way. *)
Lemma deliver_propagates userPhone userName conversationId campaign
  w msg plan w1 e w2 :
  getCampaignMessages campaign w = (Val (msg :: plan), w1) ->
  sendSequentialMessages userPhone conversationId (msg :: plan)
    [(js "nombre", userName); (js "telefono", userPhone)] w1 = (Exn e, w2) ->
  deliver userPhone userName conversationId campaign w = (Exn e, w2).
Proof.
  intros Hfetch Hrun. unfold deliver. unfold bind at 1. rewrite Hfetch.
  unfold bind at 1. by rewrite Hrun.
Qed.

(** C1, the code on the failing input.  The session is lost at the send of
    the second of three texts.  [handleIncomingMessage] returns; the first
    text is the only one delivered; the log has the first text as sent and
    the second as failed; and the conversation is left IN_PROGRESS with no
    end time: it is not marked FAILED. *)
Theorem session_lost_leaves_conversation_open :
  fst (@handleIncomingMessage tabulated_runtime incoming session_lost_world)
  = Val tt
  /\ List.map payload (delivered after_session_lost)
     = [ Text (Some (js "Hola {nombre}"))
              [(js "nombre", js "Ana"); (js "telefono", sender)] ]
  /\ List.map (fun row => (log_message_id row, delivery_status row))
       (bot_message_log after_session_lost)
     = [ (1, SENT); (2, FAILED_DELIVERY) ]
  /\ (status <$> bot_conversations after_session_lost !! 1) = Some IN_PROGRESS
  /\ (conversation_ended_at <$> bot_conversations after_session_lost !! 1)
     = Some None
  /\ tick after_session_lost = 13%nat.
Proof. vm_compute. repeat split. Qed.

(** Inside a gallery the same error is caught with the image: the gallery
    is counted as sent and the dispatch goes on with the text. *)
Lemma gallery_swallows_session_loss :
  is_critical session_closed = true
  /\ fst (sendSequentialMessages sender 1 gallery_plan name_and_phone
            gallery_world)
     = Val {| success := true; total := 2; sent := 2; failed := 0 |}
  /\ List.map payload
       (delivered (snd (sendSequentialMessages sender 1 gallery_plan
                          name_and_phone gallery_world)))
     = [ Text (Some (js "Gracias")) name_and_phone ].
Proof. vm_compute. repeat split. Qed.

(** The neighbouring path: when each of the three sends fails with an error
    that does not end the dispatch, the same function marks the conversation
    FAILED and gives it an end time. *)
Lemma failed_sends_mark_conversation_failed :
  is_critical evaluation_failed = false
  /\ (status <$>
        bot_conversations
          (snd (@handleIncomingMessage tabulated_runtime incoming
                  sends_fail_world)) !! 1)
     = Some FAILED
  /\ (is_null <$>
        (conversation_ended_at <$>
           bot_conversations
             (snd (@handleIncomingMessage tabulated_runtime incoming
                     sends_fail_world)) !! 1))
     = Some false.
Proof. vm_compute. repeat split. Qed.

(** What the open conversation costs: the next message of the same sender,
    with the session back, is dropped at the gate of the open conversation
    and nothing more is delivered. *)
Lemma open_conversation_gates_sender :
  delivered
    (snd (@handleIncomingMessage tabulated_runtime incoming
            (with_faults (fun _ => None) after_session_lost)))
  = delivered after_session_lost
  /\ tick (snd (@handleIncomingMessage tabulated_runtime incoming
                  (with_faults (fun _ => None) after_session_lost)))
     = 15%nat.
Proof. vm_compute. repeat split. Qed.

(** * Further properties of the keyword matcher *)

Lemma single_spaced_no_double_space s :
  single_spaced s -> includes s [SPACE; SPACE] = false.
Proof.
  induction s as [|c s IH]; [reflexivity|].
  intros [Hc Hs]. cbn [includes]. rewrite (IH Hs), orb_false_r.
  cbn [startsWith].
  destruct (N.eqb_spec SPACE c) as [<-|Hne]; [|reflexivity].
  destruct (Hc eq_refl) as [_ Hnext].
  destruct s as [|d s']; [reflexivity|]. cbn [andb startsWith].
  destruct (N.eqb_spec SPACE d) as [<-|Hd]; [|reflexivity].
  discriminate Hnext.
Qed.

Lemma single_spaced_only_spaces s :
  single_spaced s -> Forall (fun c => is_whitespace c = true -> c = SPACE) s.
Proof.
  induction s as [|c s IH]; [constructor|].
  intros [Hc Hs]. constructor; [|by apply IH].
  intros Hw. by destruct (Hc Hw).
Qed.

Lemma trimEnd_no_trailing_space s : no_leading_space (rev (trimEnd s)).
Proof.
  unfold trimEnd. rewrite rev_involutive. apply trimStart_no_leading_space.
Qed.

(** X1.  Whatever the runtime does when it lower-cases and decomposes, the
    text [normalizeText] returns has no unit of the punctuation class and no
    combining diacritical mark, its only white space is the plain space,
    never two in a row, and it neither starts nor ends with white space. *)
Theorem normalizeText_shape `{U : UnicodeRuntime} (text : jsstring) :
  Forall (fun c => is_punctuation c = false) (normalizeText text)
  /\ Forall (fun c => is_combining_mark c = false) (normalizeText text)
  /\ Forall (fun c => is_whitespace c = true -> c = SPACE) (normalizeText text)
  /\ includes (normalizeText text) [SPACE; SPACE] = false
  /\ no_leading_space (normalizeText text)
  /\ no_leading_space (rev (normalizeText text)).
Proof.
  destruct text as [|c s]; [by repeat split|].
  rewrite normalizeText_cons.
  set (z := normalizeNFD (toLowerCase (c :: s))).
  set (collapsed := collapse_whitespace (replace_punctuation (strip_marks z))).
  assert (Hs : single_spaced (trim collapsed)).
  { unfold trim.
    pose proof (collapse_whitespace_single_spaced
                  (replace_punctuation (strip_marks z))) as Hc.
    fold collapsed in Hc.
    destruct (trimStart_suffix collapsed) as [t Ht].
    rewrite Ht in Hc. apply single_spaced_app in Hc as [_ Hc].
    destruct (trimEnd_prefix (trimStart collapsed)) as [t' Ht'].
    rewrite Ht' in Hc. by apply single_spaced_app in Hc as [Hc _]. }
  split.
  { apply Forall_trim, Forall_collapse_whitespace; [reflexivity|].
    apply replace_punctuation_clean. }
  split.
  { apply Forall_trim, Forall_collapse_whitespace; [reflexivity|].
    apply replace_punctuation_keeps_unmarked, strip_marks_clean. }
  split; [by apply single_spaced_only_spaces|].
  split; [by apply single_spaced_no_double_space|].
  split.
  - unfold trim. apply trimEnd_no_leading_space, trimStart_no_leading_space.
  - unfold trim. apply trimEnd_no_trailing_space.
Qed.

Section MatchTiers.
Context {U : UnicodeRuntime}.

Lemma matchKeywords_unfold c s rules :
  matchKeywords (c :: s) (Some rules) =
  let nm := normalizeText (c :: s) in
  if vetoed nm rules then None
  else
    match from_option (first_contained nm) None (exact_matches rules) with
    | Some phrase => Some {| matched := phrase; type := EXACT |}
    | None =>
        match from_option (first_contained nm) None (keywords rules) with
        | Some keyword => Some {| matched := keyword; type := KEYWORD |}
        | None =>
            match from_option (List.find (synonym_hit nm)) None
                              (synonyms rules) with
            | Some entry => Some {| matched := fst entry; type := SYNONYM |}
            | None => None
            end
        end
    end.
Proof. reflexivity. Qed.

Lemma first_contained_some nm phrases phrase :
  first_contained nm phrases = Some phrase ->
  In phrase phrases /\ containsKeyword nm (normalizeText phrase) = true.
Proof. unfold first_contained. intros H. by apply find_some in H. Qed.

Lemma first_contained_none nm phrases :
  first_contained nm phrases = None ->
  forall phrase, In phrase phrases ->
                 containsKeyword nm (normalizeText phrase) = false.
Proof.
  unfold first_contained. intros H phrase Hin.
  exact (find_none _ _ H phrase Hin).
Qed.

Lemma first_contained_hit nm phrases phrase :
  In phrase phrases -> containsKeyword nm (normalizeText phrase) = true ->
  exists found, first_contained nm phrases = Some found.
Proof.
  intros Hin Hc. unfold first_contained.
  by apply (find_finds _ _ phrase Hin).
Qed.

End MatchTiers.

(** X2.  An entry of [exact_matches] that the message contains wins over
    everything in [keywords] and [synonyms]: for a message that is not empty
    and not vetoed, the result has type EXACT and its text is an entry of
    [exact_matches] that the message contains. *)
Theorem exact_match_takes_precedence `{U : UnicodeRuntime}
  (messageText : jsstring) (rules : KeywordRuleSet)
  (phrases : list jsstring) (phrase : jsstring) :
  messageText <> [] ->
  vetoed (normalizeText messageText) rules = false ->
  exact_matches rules = Some phrases ->
  In phrase phrases ->
  containsKeyword (normalizeText messageText) (normalizeText phrase) = true ->
  exists r,
    matchKeywords messageText (Some rules) = Some r
    /\ type r = EXACT
    /\ In (matched r) phrases
    /\ containsKeyword (normalizeText messageText)
                       (normalizeText (matched r)) = true.
Proof.
  intros Hne Hveto Hex Hin Hc.
  destruct messageText as [|c s]; [done|].
  rewrite matchKeywords_unfold. cbn zeta. rewrite Hveto, Hex.
  cbn [from_option].
  destruct (first_contained_hit _ _ _ Hin Hc) as [found Hfound].
  rewrite Hfound. eexists. split; [reflexivity|]. cbn [type matched].
  split; [reflexivity|]. by apply first_contained_some.
Qed.

Lemma exact_match_takes_precedence_witness :
  exists r,
    @matchKeywords tabulated_runtime yanachaga_message
      (Some {| exact_matches := Some [js "precio"; js "Ecovillage"];
               keywords := Some [js "yanachaga ecovillage"];
               synonyms := Some [(js "info", None)];
               excluded_words := Some [js "adios"] |}) = Some r
    /\ type r = EXACT
    /\ In (matched r) [js "precio"; js "Ecovillage"]
    /\ containsKeyword (@normalizeText tabulated_runtime yanachaga_message)
         (@normalizeText tabulated_runtime (matched r)) = true.
Proof.
  apply (@exact_match_takes_precedence tabulated_runtime yanachaga_message _
           [js "precio"; js "Ecovillage"] (js "Ecovillage")).
  - discriminate.
  - vm_compute. reflexivity.
  - reflexivity.
  - right. left. reflexivity.
  - vm_compute. reflexivity.
Defined.

(** X3.  Every match is justified by the rule set as it is written: the
    message is not empty and not vetoed; an EXACT match is an entry of
    [exact_matches] that the message contains; a KEYWORD match is an entry of
    [keywords] that the message contains, and then no entry of
    [exact_matches] is contained; a SYNONYM match is the main word of an
    entry of [synonyms] that hits, never one of its synonyms, and then no
    entry of the two lists is contained. *)
Theorem match_is_justified `{U : UnicodeRuntime}
  (messageText : jsstring) (rules : KeywordRuleSet) (r : MatchResult) :
  matchKeywords messageText (Some rules) = Some r ->
  messageText <> []
  /\ vetoed (normalizeText messageText) rules = false
  /\ match type r with
     | EXACT =>
         exists phrases,
           exact_matches rules = Some phrases /\ In (matched r) phrases
           /\ containsKeyword (normalizeText messageText)
                              (normalizeText (matched r)) = true
     | KEYWORD =>
         (exists list, keywords rules = Some list /\ In (matched r) list
            /\ containsKeyword (normalizeText messageText)
                               (normalizeText (matched r)) = true)
         /\ (forall phrases phrase,
               exact_matches rules = Some phrases -> In phrase phrases ->
               containsKeyword (normalizeText messageText)
                               (normalizeText phrase) = false)
     | SYNONYM =>
         (exists entries entry,
            synonyms rules = Some entries /\ In entry entries
            /\ matched r = fst entry
            /\ synonym_hit (normalizeText messageText) entry = true)
         /\ (forall phrases phrase,
               exact_matches rules = Some phrases
               \/ keywords rules = Some phrases ->
               In phrase phrases ->
               containsKeyword (normalizeText messageText)
                               (normalizeText phrase) = false)
     end.
Proof.
  intros Hm. destruct messageText as [|c s]; [discriminate Hm|].
  split; [discriminate|].
  rewrite matchKeywords_unfold in Hm. cbn zeta in Hm.
  set (nm := normalizeText (c :: s)) in *.
  destruct (vetoed nm rules); [discriminate Hm|]. split; [reflexivity|].
  destruct (exact_matches rules) as [phrases|] eqn:Eex; cbn [from_option] in Hm.
  - destruct (first_contained nm phrases) as [phrase|] eqn:Efirst.
    { injection Hm as <-. cbn [type matched]. exists phrases.
      split; [reflexivity|]. by apply first_contained_some. }
    pose proof (first_contained_none _ _ Efirst) as Hnone.
    destruct (keywords rules) as [list|] eqn:Ekw; cbn [from_option] in Hm.
    + destruct (first_contained nm list) as [keyword|] eqn:Ekfirst.
      { injection Hm as <-. cbn [type matched]. split.
        - exists list. split; [reflexivity|]. by apply first_contained_some.
        - intros ps p [= <-] Hp. by apply Hnone. }
      pose proof (first_contained_none _ _ Ekfirst) as Hknone.
      destruct (synonyms rules) as [entries|]; cbn [from_option] in Hm;
        [|discriminate Hm].
      destruct (List.find (synonym_hit nm) entries) as [entry|] eqn:Esyn;
        [|discriminate Hm].
      injection Hm as <-. cbn [type matched]. split.
      * exists entries, entry. apply find_some in Esyn as [Hin Hhit].
        by repeat split.
      * intros ps p [[= <-]|[= <-]] Hp; [by apply Hnone|by apply Hknone].
    + destruct (synonyms rules) as [entries|]; cbn [from_option] in Hm;
        [|discriminate Hm].
      destruct (List.find (synonym_hit nm) entries) as [entry|] eqn:Esyn;
        [|discriminate Hm].
      injection Hm as <-. cbn [type matched]. split.
      * exists entries, entry. apply find_some in Esyn as [Hin Hhit].
        by repeat split.
      * intros ps p [[= <-]|[=]] Hp. by apply Hnone.
  - destruct (keywords rules) as [list|] eqn:Ekw; cbn [from_option] in Hm.
    + destruct (first_contained nm list) as [keyword|] eqn:Ekfirst.
      { injection Hm as <-. cbn [type matched]. split.
        - exists list. split; [reflexivity|]. by apply first_contained_some.
        - intros ps p [=]. }
      pose proof (first_contained_none _ _ Ekfirst) as Hknone.
      destruct (synonyms rules) as [entries|]; cbn [from_option] in Hm;
        [|discriminate Hm].
      destruct (List.find (synonym_hit nm) entries) as [entry|] eqn:Esyn;
        [|discriminate Hm].
      injection Hm as <-. cbn [type matched]. split.
      * exists entries, entry. apply find_some in Esyn as [Hin Hhit].
        by repeat split.
      * intros ps p [[=]|[= <-]] Hp. by apply Hknone.
    + destruct (synonyms rules) as [entries|]; cbn [from_option] in Hm;
        [|discriminate Hm].
      destruct (List.find (synonym_hit nm) entries) as [entry|] eqn:Esyn;
        [|discriminate Hm].
      injection Hm as <-. cbn [type matched]. split.
      * exists entries, entry. apply find_some in Esyn as [Hin Hhit].
        by repeat split.
      * intros ps p [[=]|[=]].
Qed.

Lemma match_is_justified_witness :
  @matchKeywords tabulated_runtime (js "Cuanto cuesta?") (Some precio_rules)
  = Some {| matched := js "Precio"; type := SYNONYM |}
  /\ exists entries entry,
       synonyms precio_rules = Some entries /\ In entry entries
       /\ js "Precio" = fst entry.
Proof.
  assert (Hrun : @matchKeywords tabulated_runtime (js "Cuanto cuesta?")
                   (Some precio_rules)
                 = Some {| matched := js "Precio"; type := SYNONYM |})
    by (vm_compute; reflexivity).
  split; [exact Hrun|].
  destruct (@match_is_justified tabulated_runtime _ _ _ Hrun)
    as (_ & _ & (entries & entry & Hs & Hin & Hm & _) & _).
  exists entries, entry. by repeat split.
Defined.

(** X4.  [matchKeywords] returns nothing in exactly three cases: the message
    is empty; an excluded word occurs in it; or no entry of [exact_matches]
    and of [keywords] is contained in it and no entry of [synonyms] hits. *)
Theorem no_match_exactly_when `{U : UnicodeRuntime}
  (messageText : jsstring) (rules : KeywordRuleSet) :
  matchKeywords messageText (Some rules) = None <->
  messageText = []
  \/ vetoed (normalizeText messageText) rules = true
  \/ ((forall phrases phrase,
         exact_matches rules = Some phrases \/ keywords rules = Some phrases ->
         In phrase phrases ->
         containsKeyword (normalizeText messageText) (normalizeText phrase)
         = false)
      /\ (forall entries entry,
            synonyms rules = Some entries -> In entry entries ->
            synonym_hit (normalizeText messageText) entry = false)).
Proof.
  destruct messageText as [|c s]; [split; [by left|reflexivity]|].
  rewrite matchKeywords_unfold. cbn zeta.
  set (nm := normalizeText (c :: s)).
  destruct (vetoed nm rules); [split; [by right; left|reflexivity]|].
  split.
  - intros Hm. right. right.
    destruct (from_option (first_contained nm) None (exact_matches rules))
      as [?|] eqn:Eex; [discriminate Hm|].
    destruct (from_option (first_contained nm) None (keywords rules))
      as [?|] eqn:Ekw; [discriminate Hm|].
    destruct (from_option (List.find (synonym_hit nm)) None (synonyms rules))
      as [?|] eqn:Esyn; [discriminate Hm|].
    split.
    + intros phrases phrase [Hw|Hw] Hin.
      * rewrite Hw in Eex. by apply (first_contained_none _ _ Eex).
      * rewrite Hw in Ekw. by apply (first_contained_none _ _ Ekw).
    + intros entries entry Hw Hin. rewrite Hw in Esyn.
      exact (find_none _ _ Esyn entry Hin).
  - intros [Hempty|[Hveto|[Hlists Hsyn]]]; [discriminate|discriminate|].
    destruct (exact_matches rules) as [phrases|] eqn:Eex; cbn [from_option].
    + destruct (first_contained nm phrases) as [phrase|] eqn:Efirst.
      { apply first_contained_some in Efirst as [Hin Hc].
        rewrite (Hlists phrases phrase (or_introl eq_refl) Hin) in Hc.
        discriminate Hc. }
      destruct (keywords rules) as [list|] eqn:Ekw; cbn [from_option].
      * destruct (first_contained nm list) as [keyword|] eqn:Ekfirst.
        { apply first_contained_some in Ekfirst as [Hin Hc].
          rewrite (Hlists list keyword (or_intror eq_refl) Hin) in Hc.
          discriminate Hc. }
        destruct (synonyms rules) as [entries|]; cbn [from_option];
          [|reflexivity].
        destruct (List.find (synonym_hit nm) entries) as [entry|] eqn:Esyn;
          [|reflexivity].
        apply find_some in Esyn as [Hin Hhit].
        rewrite (Hsyn entries entry eq_refl Hin) in Hhit. discriminate Hhit.
      * destruct (synonyms rules) as [entries|]; cbn [from_option];
          [|reflexivity].
        destruct (List.find (synonym_hit nm) entries) as [entry|] eqn:Esyn;
          [|reflexivity].
        apply find_some in Esyn as [Hin Hhit].
        rewrite (Hsyn entries entry eq_refl Hin) in Hhit. discriminate Hhit.
    + destruct (keywords rules) as [list|] eqn:Ekw; cbn [from_option].
      * destruct (first_contained nm list) as [keyword|] eqn:Ekfirst.
        { apply first_contained_some in Ekfirst as [Hin Hc].
          rewrite (Hlists list keyword (or_intror eq_refl) Hin) in Hc.
          discriminate Hc. }
        destruct (synonyms rules) as [entries|]; cbn [from_option];
          [|reflexivity].
        destruct (List.find (synonym_hit nm) entries) as [entry|] eqn:Esyn;
          [|reflexivity].
        apply find_some in Esyn as [Hin Hhit].
        rewrite (Hsyn entries entry eq_refl Hin) in Hhit. discriminate Hhit.
      * destruct (synonyms rules) as [entries|]; cbn [from_option];
          [|reflexivity].
        destruct (List.find (synonym_hit nm) entries) as [entry|] eqn:Esyn;
          [|reflexivity].
        apply find_some in Esyn as [Hin Hhit].
        rewrite (Hsyn entries entry eq_refl Hin) in Hhit. discriminate Hhit.
Qed.

(** * Properties of the campaign selection *)

Lemma In_insert_by {A} (key : A -> Z) (x z : A) (l : list A) :
  In z (insert_by key x l) <-> z = x \/ In z l.
Proof.
  induction l as [|y l IH]; cbn.
  - split; [intros [->|[]]; auto|intros [->|[]]; auto].
  - destruct (key x <=? key y); cbn; [split; intros [->|H]; auto|].
    rewrite IH. split.
    + intros [->|[->|H]]; auto.
    + intros [->|[->|H]]; auto.
Qed.

Lemma In_order_by_asc {A} (key : A -> Z) (z : A) (rows : list A) :
  In z (order_by_asc key rows) <-> In z rows.
Proof.
  induction rows as [|row rows IH]; cbn; [reflexivity|].
  rewrite In_insert_by, IH. split; intros [->|H]; auto.
Qed.

Lemma sorted_suffix {A} (R : A -> A -> Prop) (l1 l2 : list A) :
  StronglySorted R (l1 ++ l2) -> StronglySorted R l2.
Proof.
  induction l1 as [|x l1 IH]; cbn; [done|].
  intros H. apply StronglySorted_inv in H as [H _]. by apply IH.
Qed.

Section Selection.
Context {U : UnicodeRuntime}.

(** Whether a campaign, taken alone, is triggered by the message. *)
Lemma first_campaign_some text rows found :
  first_campaign text rows = Some found ->
  exists before c after tk m,
    rows = before ++ c :: after
    /\ trigger_keywords c = Document tk
    /\ matchKeywords text tk = Some m
    /\ found = {| campaignId := campaign_id c;
                  campaignName := campaign_name c;
                  matchedKeyword := matched m; matchType := type m;
                  matchPriority := priority c |}
    /\ forall b tk', In b before -> trigger_keywords b = Document tk' ->
                     matchKeywords text tk' = None.
Proof.
  induction rows as [|c rows IH]; [discriminate|].
  cbn [first_campaign].
  destruct (trigger_keywords c) as [|tk] eqn:Etk.
  - intros H. destruct (IH H) as (before & c0 & after & tk0 & m & -> & ?).
    exists (c :: before), c0, after, tk0, m. split; [reflexivity|].
    destruct H0 as (? & ? & ? & Hb). repeat split; try assumption.
    intros b tk' [<-|Hin] Hd; [congruence|eauto].
  - destruct (matchKeywords text tk) as [m|] eqn:Em.
    + intros [= <-]. exists [], c, rows, tk, m.
      repeat split; try assumption. intros b tk' [].
    + intros H. destruct (IH H) as (before & c0 & after & tk0 & m & -> & ?).
      exists (c :: before), c0, after, tk0, m. split; [reflexivity|].
      destruct H0 as (? & ? & ? & Hb). repeat split; try assumption.
      intros b tk' [<-|Hin] Hd; [congruence|eauto].
Qed.


Lemma detectCampaign_query text w :
  trim text <> [] ->
  faults w (tick w) = None ->
  detectCampaign (Some text) w
  = (Val (first_campaign text
            (order_by_desc priority
               (List.filter
                  (fun c => campaign_is_active c
                            && is_null (campaign_deleted_at c))
                  (campaigns w)))),
     with_tick (S (tick w)) w).
Proof.
  intros Hne Hf. unfold detectCampaign.
  destruct (trim text) as [|c t] eqn:Et; [done|]. cbn [length Nat.eqb].
  unfold bind, external, gets, ret. by rewrite Hf.
Qed.

Lemma listed_rows c w :
  In c (order_by_desc priority
          (List.filter
             (fun c => campaign_is_active c && is_null (campaign_deleted_at c))
             (campaigns w)))
  <-> In c (campaigns w) /\ listed c.
Proof.
  unfold order_by_desc. rewrite In_order_by_asc, filter_In. unfold listed.
  split.
  - intros [Hin H]. apply andb_prop in H as [Ha Hd].
    split; [exact Hin|]. split; [exact Ha|].
    by destruct (campaign_deleted_at c).
  - intros [Hin [Ha Hd]]. split; [exact Hin|]. by rewrite Ha, Hd.
Qed.

End Selection.

(** X5.  The campaign that [detectCampaign] returns is stored, active and
    not deleted, its own rule set matches the message with the reported text
    and type, and no active campaign of strictly higher priority matches
    (those are unparsable or do not match). *)
Theorem detectCampaign_returns_highest_priority `{U : UnicodeRuntime}
  (text : jsstring) (w w' : World) (found : CampaignMatch) :
  detectCampaign (Some text) w = (Val (Some found), w') ->
  exists c tk m,
    In c (campaigns w) /\ listed c
    /\ campaign_id c = campaignId found
    /\ campaign_name c = campaignName found
    /\ priority c = matchPriority found
    /\ trigger_keywords c = Document tk
    /\ matchKeywords text tk = Some m
    /\ matched m = matchedKeyword found /\ type m = matchType found
    /\ forall c' tk',
         In c' (campaigns w) -> listed c' -> priority c < priority c' ->
         trigger_keywords c' = Document tk' ->
         matchKeywords text tk' = None.
Proof.
  intros Hrun.
  destruct (trim text) as [|u t] eqn:Et.
  { unfold detectCampaign in Hrun. rewrite Et in Hrun. discriminate Hrun. }
  destruct (faults w (tick w)) as [e|] eqn:Ef.
  { unfold detectCampaign in Hrun. rewrite Et in Hrun.
    cbn [length Nat.eqb] in Hrun.
    unfold bind, external, gets in Hrun. rewrite Ef in Hrun.
    discriminate Hrun. }
  rewrite detectCampaign_query in Hrun; [|by rewrite Et|exact Ef].
  injection Hrun as Hfirst _.
  set (rows := order_by_desc priority _) in Hfirst.
  destruct (first_campaign_some _ _ _ Hfirst)
    as (before & c & after & tk & m & Hrows & Htk & Hm & -> & Hbefore).
  assert (Hsorted : StronglySorted (fun a b => - priority a <= - priority b)
                      rows) by apply order_by_asc_sorted.
  assert (Hc : In c rows) by (rewrite Hrows; apply in_elt).
  apply listed_rows in Hc as [Hc Hlisted].
  exists c, tk, m. repeat split; try assumption; try apply Hlisted.
  intros c' tk' Hin' Hlisted' Hprio Htk'.
  assert (Hin_rows : In c' rows) by (by apply listed_rows).
  rewrite Hrows in Hin_rows, Hsorted.
  apply in_app_or in Hin_rows as [Hb|Ha]; [by eapply Hbefore|].
  exfalso. apply sorted_suffix in Hsorted.
  apply StronglySorted_inv in Hsorted as [_ Hs].
  destruct Ha as [<-|Ha]; [lia|].
  rewrite List.Forall_forall in Hs. specialize (Hs c' Ha). cbn in Hs. lia.
Qed.

Lemma detectCampaign_returns_highest_priority_witness :
  exists c,
    In c (campaigns campaigns_world)
    /\ campaign_id c = 7 /\ priority c = 10
    /\ forall c' tk',
         In c' (campaigns campaigns_world) -> listed c' ->
         priority c < priority c' ->
         trigger_keywords c' = Document tk' ->
         @matchKeywords tabulated_runtime yanachaga_message tk' = None.
Proof.
  destruct (@detectCampaign_returns_highest_priority tabulated_runtime
              yanachaga_message campaigns_world
              (with_tick 1 campaigns_world)
              {| campaignId := 7; campaignName := js "Yanachaga";
                 matchedKeyword := yanachaga_keyword; matchType := KEYWORD;
                 matchPriority := 10 |})
    as (c & tk & m & Hin & _ & Hid & _ & Hp & _ & _ & _ & _ & Hhigher).
  - vm_compute. reflexivity.
  - exists c. repeat split; assumption.
Defined.



(** * Further properties of the rate limiter *)

(** What [checkRateLimit] does once its two reads have found the sender
    off the permanent list and with a record. *)
Lemma checkRateLimit_reads userPhone w row :
  userPhone ∉ blocked_numbers w ->
  user_rate_limit w !! userPhone = Some row ->
  faults w (tick w) = None ->
  faults w (S (tick w)) = None ->
  checkRateLimit userPhone w =
  let w2 := with_tick (S (S (tick w))) w in
  if is_blocked row then
    match blocked_until row with
    | Some t =>
        if t <? now w then
          match faults w (S (S (tick w))) with
          | None =>
              (Val {| allowed := true; reason := UNBLOCKED |},
               with_user_rate_limit
                 (alter clear_block userPhone (user_rate_limit w))
                 (with_tick (S (S (S (tick w)))) w2))
          | Some _ =>
              (Val {| allowed := true; reason := ERROR_CHECK |},
               with_tick (S (S (S (tick w)))) w2)
          end
        else (Val {| allowed := false; reason := BLOCKED_TEMPORARY |}, w2)
    | None => (Val {| allowed := false; reason := BLOCKED_TEMPORARY |}, w2)
    end
  else
    match last_trigger_at row with
    | Some lastTrigger =>
        if (now w - 60 * 60 * 1000 <? lastTrigger)
           && (rateLimits_hour (config w) <=? trigger_count_hour row)
        then (Val {| allowed := false; reason := RATE_LIMIT_HOUR |}, w2)
        else if (now w - 24 * 60 * 60 * 1000 <? lastTrigger)
                && (rateLimits_day (config w) <=? trigger_count_day row)
        then (Val {| allowed := false; reason := RATE_LIMIT_DAY |}, w2)
        else (Val {| allowed := true; reason := OK |}, w2)
    | None => (Val {| allowed := true; reason := OK |}, w2)
    end.
Proof.
  intros Hperm Hrow F0 F1. cbn zeta.
  unfold checkRateLimit, select_blocked, select_rate_limit, update_unblock.
  run_monad. rewrite F0. run_monad.
  rewrite (bool_decide_eq_false_2 _ Hperm). run_monad.
  rewrite F1. run_monad. rewrite Hrow. run_monad.
  destruct (is_blocked row).
  - destruct (blocked_until row) as [t|]; run_monad; [|reflexivity].
    destruct (t <? now w); run_monad; [|reflexivity].
    destruct (faults w (S (S (tick w)))); reflexivity.
  - run_monad. destruct (last_trigger_at row) as [l|]; [|reflexivity].
    destruct (_ && _); [reflexivity|]. destruct (_ && _); reflexivity.
Qed.

(** X7.  For a sender that is not blocked in any way, with the two reads
    answered: the check denies with RATE_LIMIT_HOUR exactly when the last
    trigger is less than an hour old and the hour counter has reached its
    threshold; failing that, it denies with RATE_LIMIT_DAY exactly when the
    last trigger is less than a day old and the day counter has reached its
    threshold; in every other case, stale counters included, it allows with
    OK.  The table is not written. *)
Theorem unblocked_sender_decision
  (userPhone : jsstring) (w : World) (row : RateLimitRow) :
  userPhone ∉ blocked_numbers w ->
  user_rate_limit w !! userPhone = Some row ->
  is_blocked row = false ->
  faults w (tick w) = None ->
  faults w (S (tick w)) = None ->
  let fresh (span : Z) :=
    exists lastTrigger,
      last_trigger_at row = Some lastTrigger /\ now w - span < lastTrigger in
  let hour_full :=
    fresh (60 * 60 * 1000)
    /\ rateLimits_hour (config w) <= trigger_count_hour row in
  let day_full :=
    fresh (24 * 60 * 60 * 1000)
    /\ rateLimits_day (config w) <= trigger_count_day row in
  exists r,
    fst (checkRateLimit userPhone w) = Val r
    /\ (reason r = RATE_LIMIT_HOUR <-> hour_full)
    /\ (reason r = RATE_LIMIT_DAY <-> ~ hour_full /\ day_full)
    /\ (reason r = OK <-> ~ hour_full /\ ~ day_full)
    /\ (allowed r = true <-> reason r = OK)
    /\ user_rate_limit (snd (checkRateLimit userPhone w)) = user_rate_limit w.
Proof.
  intros Hperm Hrow Hblocked F0 F1 fresh hour_full day_full.
  rewrite (checkRateLimit_reads userPhone w row Hperm Hrow F0 F1).
  cbn zeta. rewrite Hblocked.
  destruct (last_trigger_at row) as [l|] eqn:El.
  - assert (Hh : (now w - 60 * 60 * 1000 <? l)
                 && (rateLimits_hour (config w) <=? trigger_count_hour row)
                 = true <-> hour_full).
    { rewrite andb_true_iff, Z.ltb_lt, Z.leb_le. unfold hour_full, fresh.
      split; [intros [? ?]; eauto|intros [(l' & [= <-] & ?) ?]; auto]. }
    assert (Hd : (now w - 24 * 60 * 60 * 1000 <? l)
                 && (rateLimits_day (config w) <=? trigger_count_day row)
                 = true <-> day_full).
    { rewrite andb_true_iff, Z.ltb_lt, Z.leb_le. unfold day_full, fresh.
      split; [intros [? ?]; eauto|intros [(l' & [= <-] & ?) ?]; auto]. }
    destruct (_ && _) eqn:Eh in |- *.
    + apply Hh in Eh. clear Hh Hd. clearbody hour_full day_full.
      eexists. split; [reflexivity|]. cbn.
      intuition (try discriminate; try congruence).
    + assert (Hnh : ~ hour_full) by (rewrite <- Hh, Eh; discriminate).
      destruct (_ && _) eqn:Ed in |- *.
      * apply Hd in Ed. clear Hh Hd. clearbody hour_full day_full.
        eexists. split; [reflexivity|]. cbn.
        intuition (try discriminate; try congruence).
      * assert (Hnd : ~ day_full) by (rewrite <- Hd, Ed; discriminate).
        clear Hh Hd. clearbody hour_full day_full.
        eexists. split; [reflexivity|]. cbn.
        intuition (try discriminate; try congruence).
  - assert (Hnh : ~ hour_full)
      by (intros [(l & Hl & _) _]; discriminate Hl).
    assert (Hnd : ~ day_full)
      by (intros [(l & Hl & _) _]; discriminate Hl).
    clearbody hour_full day_full.
    eexists. split; [reflexivity|]. cbn.
    intuition (try discriminate; try congruence).
Qed.

Lemma unblocked_sender_decision_witness :
  exists r,
    fst (checkRateLimit sender (blocked_world busy_row)) = Val r
    /\ reason r = RATE_LIMIT_HOUR /\ allowed r = false.
Proof.
  destruct (unblocked_sender_decision sender (blocked_world busy_row) busy_row)
    as (r & Hr & Hhour & _ & _ & Hallowed & _).
  - apply not_elem_of_empty.
  - apply lookup_insert_eq.
  - reflexivity.
  - reflexivity.
  - reflexivity.
  - exists r. split; [exact Hr|].
    assert (Hreason : reason r = RATE_LIMIT_HOUR).
    { apply Hhour. split.
      - exists (1700000000000 - 600000). split; [reflexivity|]. cbn. lia.
      - cbn. lia. }
    split; [exact Hreason|].
    destruct (allowed r); [|reflexivity].
    destruct Hallowed as [Hallowed _]. rewrite Hreason in Hallowed.
    discriminate (Hallowed eq_refl).
Defined.

(** X8.  The check reads: unless it answers UNBLOCKED, it leaves every
    table as it found it, in every world, failing queries included.  When it
    answers UNBLOCKED the record of the sender is the only thing written. *)
Theorem checkRateLimit_writes_only_to_unblock
  (userPhone : jsstring) (w : World) (r : RateLimitCheck) :
  fst (checkRateLimit userPhone w) = Val r ->
  (reason r <> UNBLOCKED -> only_ticked w (snd (checkRateLimit userPhone w)))
  /\ only_ticked
       (with_user_rate_limit
          (user_rate_limit (snd (checkRateLimit userPhone w))) w)
       (snd (checkRateLimit userPhone w))
  /\ forall other, other <> userPhone ->
       user_rate_limit (snd (checkRateLimit userPhone w)) !! other
       = user_rate_limit w !! other.
Proof.
  unfold checkRateLimit, select_blocked, select_rate_limit, update_unblock,
    only_ticked.
  split_run; intros [= <-]; cbn [reason];
    (split; [intros Hne; first [done|eexists; reflexivity]|]);
    (split; [eexists; reflexivity|]);
    intros other Hother; first [reflexivity|by rewrite lookup_alter_ne].
Qed.

Lemma checkRateLimit_writes_only_to_unblock_witness :
  only_ticked unreachable_world
    (snd (checkRateLimit sender unreachable_world)).
Proof.
  destruct (checkRateLimit_writes_only_to_unblock sender unreachable_world
              {| allowed := true; reason := ERROR_CHECK |}) as [Hsame _].
  - vm_compute. reflexivity.
  - apply Hsame. discriminate.
Defined.

Lemma updateRateLimit_ok userPhone w :
  faults w (tick w) = None ->
  updateRateLimit userPhone w =
  (Val tt,
   with_user_rate_limit
     (<[userPhone :=
          upsert_trigger (now w - 60 * 60 * 1000) (now w - 24 * 60 * 60 * 1000)
            (now w) (user_rate_limit w !! userPhone)]> (user_rate_limit w))
     (with_tick (S (tick w)) w)).
Proof.
  intros Hf. unfold updateRateLimit. run_monad. rewrite Hf. reflexivity.
Qed.



(** X10.  Right after a successful [updateRateLimit] the window tests of the
    check always pass, so the answer for a sender that is not blocked depends
    on the new counters alone: RATE_LIMIT_HOUR when the hour counter has
    reached its threshold, else RATE_LIMIT_DAY when the day counter has,
    else OK. *)
Theorem check_after_update
  (userPhone : jsstring) (w : World) :
  userPhone ∉ blocked_numbers w ->
  (forall row, user_rate_limit w !! userPhone = Some row ->
               is_blocked row = false) ->
  faults w (tick w) = None ->
  faults w (S (tick w)) = None ->
  faults w (S (S (tick w))) = None ->
  let row' :=
    upsert_trigger (now w - 60 * 60 * 1000) (now w - 24 * 60 * 60 * 1000)
      (now w) (user_rate_limit w !! userPhone) in
  fst ((updateRateLimit userPhone ;; checkRateLimit userPhone) w)
  = Val (if rateLimits_hour (config w) <=? trigger_count_hour row'
         then {| allowed := false; reason := RATE_LIMIT_HOUR |}
         else if rateLimits_day (config w) <=? trigger_count_day row'
         then {| allowed := false; reason := RATE_LIMIT_DAY |}
         else {| allowed := true; reason := OK |}).
Proof.
  intros Hperm Hfree F0 F1 F2 row'.
  unfold bind at 1. rewrite (updateRateLimit_ok userPhone w F0).
  fold row'.
  set (w1 := with_user_rate_limit _ _).
  rewrite (checkRateLimit_reads userPhone w1 row'); try done;
    [|apply lookup_insert_eq].
  cbn zeta.
  assert (Hb : is_blocked row' = false).
  { unfold row'. destruct (user_rate_limit w !! userPhone) as [row|] eqn:E;
      cbn; [by apply Hfree|reflexivity]. }
  assert (Hl : last_trigger_at row' = Some (now w)).
  { unfold row'. by destruct (user_rate_limit w !! userPhone). }
  rewrite Hb, Hl. cbn [now w1 with_user_rate_limit with_tick config].
  replace (now w - 60 * 60 * 1000 <? now w) with true
    by (symmetry; apply Z.ltb_lt; lia).
  replace (now w - 24 * 60 * 60 * 1000 <? now w) with true
    by (symmetry; apply Z.ltb_lt; lia).
  cbn [andb].
  destruct (_ <=? trigger_count_hour row'); [reflexivity|].
  destruct (_ <=? trigger_count_day row'); reflexivity.
Qed.

Lemma check_after_update_witness :
  fst ((updateRateLimit sender ;; checkRateLimit sender)
         (blocked_world nearly_busy_row))
  = Val {| allowed := false; reason := RATE_LIMIT_HOUR |}.
Proof.
  apply (check_after_update sender (blocked_world nearly_busy_row)).
  - apply not_elem_of_empty.
  - intros row Hrow.
    assert (Hr : Some row = Some nearly_busy_row).
    { rewrite <- Hrow. apply lookup_insert_eq. }
    injection Hr as ->. reflexivity.
  - reflexivity.
  - reflexivity.
  - reflexivity.
Defined.






(** * Properties of the conversation service *)

Lemma head_order_by_desc {A} (key : A -> Z) (rows : list A) :
  match head (order_by_desc key rows) with
  | Some top => In top rows /\ forall r, In r rows -> key r <= key top
  | None => rows = []
  end.
Proof.
  unfold order_by_desc.
  pose proof (order_by_asc_sorted (fun row => - key row) rows) as Hs.
  pose proof (In_order_by_asc (fun row => - key row)) as Hin.
  destruct (order_by_asc (fun row => - key row) rows) as [|top rest] eqn:E.
  - destruct rows as [|r rows]; [reflexivity|].
    exfalso. assert (Hr : In r (r :: rows)) by (by left).
    apply (Hin r (r :: rows)) in Hr. rewrite E in Hr. exact Hr.
  - cbn [head]. split.
    + apply (Hin top rows). rewrite E. by left.
    + intros r Hr. apply (Hin r rows) in Hr. rewrite E in Hr.
      apply StronglySorted_inv in Hs as [_ Hs].
      destruct Hr as [<-|Hr]; [lia|].
      rewrite List.Forall_forall in Hs. specialize (Hs r Hr). cbn in Hs. lia.
Qed.

Lemma getActiveConversation_ok userPhone w :
  faults w (tick w) = None ->
  getActiveConversation userPhone None w =
  (Val (head (order_by_desc (fun r => conversation_started_at (snd r))
          (List.filter
             (fun r => jsstring_eqb (user_phone (snd r)) userPhone
                       && is_active_status (status (snd r)) && true)
             (map_to_list (bot_conversations w))))),
   with_tick (S (tick w)) w).
Proof.
  intros Hf. unfold getActiveConversation, external, gets. rewrite Hf.
  reflexivity.
Qed.

Lemma open_rows_In userPhone (table : gmap Z ConversationRow) id row :
  In (id, row)
     (List.filter
        (fun r => jsstring_eqb (user_phone (snd r)) userPhone
                  && is_active_status (status (snd r)) && true)
        (map_to_list table))
  <-> table !! id = Some row /\ user_phone row = userPhone
      /\ is_active_status (status row) = true.
Proof.
  rewrite filter_In, <- list_elem_of_In, elem_of_map_to_list. cbn [snd].
  rewrite andb_true_r, andb_true_iff. unfold jsstring_eqb.
  rewrite bool_decide_eq_true. tauto.
Qed.

(** The gate on a table: the most recent open conversation of the sender. *)
Lemma open_rows_head userPhone (table : gmap Z ConversationRow) :
  match head (order_by_desc (fun r => conversation_started_at (snd r))
          (List.filter
             (fun r => jsstring_eqb (user_phone (snd r)) userPhone
                       && is_active_status (status (snd r)) && true)
             (map_to_list table))) with
  | Some (id, row) =>
      table !! id = Some row /\ user_phone row = userPhone
      /\ is_active_status (status row) = true
      /\ forall id' row',
           table !! id' = Some row' -> user_phone row' = userPhone ->
           is_active_status (status row') = true ->
           conversation_started_at row' <= conversation_started_at row
  | None =>
      forall id' row',
        table !! id' = Some row' -> user_phone row' = userPhone ->
        is_active_status (status row') = false
  end.
Proof.
  pose proof (head_order_by_desc
                (fun r : Z * ConversationRow =>
                   conversation_started_at (snd r))
                (List.filter
                   (fun r => jsstring_eqb (user_phone (snd r)) userPhone
                             && is_active_status (status (snd r)) && true)
                   (map_to_list table))) as Hhead.
  destruct (head _) as [[id row]|].
  - destruct Hhead as [Hin Hmax].
    apply open_rows_In in Hin as (Hrow & Huser & Hopen).
    repeat split; try assumption.
    intros id' row' Hrow' Huser' Hopen'.
    apply (Hmax (id', row')). by apply open_rows_In.
  - intros id' row' Hrow' Huser'.
    destruct (is_active_status (status row')) eqn:Eopen; [|reflexivity].
    exfalso.
    assert (Hin : In (id', row')
                     (List.filter
                        (fun r => jsstring_eqb (user_phone (snd r)) userPhone
                                  && is_active_status (status (snd r)) && true)
                        (map_to_list table)))
      by (by apply open_rows_In).
    rewrite Hhead in Hin. exact Hin.
Qed.

(** X13.  With its query answered, [getActiveConversation] returns a stored
    conversation of that sender whose status is INITIATED or IN_PROGRESS and
    which started no earlier than any other such conversation of the sender;
    it returns nothing exactly when the sender has no such conversation.  It
    writes nothing. *)
Theorem getActiveConversation_is_latest_open
  (userPhone : jsstring) (w : World) :
  faults w (tick w) = None ->
  only_ticked w (snd (getActiveConversation userPhone None w))
  /\ match fst (getActiveConversation userPhone None w) with
     | Val (Some (id, row)) =>
         bot_conversations w !! id = Some row /\ user_phone row = userPhone
         /\ is_active_status (status row) = true
         /\ forall id' row',
              bot_conversations w !! id' = Some row' ->
              user_phone row' = userPhone ->
              is_active_status (status row') = true ->
              conversation_started_at row' <= conversation_started_at row
     | Val None =>
         forall id' row',
           bot_conversations w !! id' = Some row' ->
           user_phone row' = userPhone ->
           is_active_status (status row') = false
     | Exn _ => False
     end.
Proof.
  intros Hf. rewrite (getActiveConversation_ok userPhone w Hf).
  cbn [fst snd]. split; [by eexists|].
  apply open_rows_head.
Qed.

Lemma getActiveConversation_is_latest_open_witness :
  match fst (getActiveConversation sender None (snd mixed_dispatch)) with
  | Val (Some (id, row)) => id = 1 /\ status row = IN_PROGRESS
  | _ => False
  end.
Proof.
  destruct (getActiveConversation_is_latest_open sender (snd mixed_dispatch))
    as [_ H].
  - reflexivity.
  - destruct (fst (getActiveConversation sender None (snd mixed_dispatch)))
      as [[[id row]|]|e] eqn:E; [| |exact H].
    + vm_compute in E. injection E as <- <-. by split.
    + vm_compute in E. discriminate E.
Defined.

Lemma update_conversation_ok conversationId f w :
  faults w (tick w) = None ->
  update_conversation conversationId f w =
  (Val tt,
   with_bot_conversations
     (alter (f (now w)) conversationId (bot_conversations w)) (insertId w)
     (with_tick (S (tick w)) w)).
Proof.
  intros Hf. unfold update_conversation, external, modify. rewrite Hf.
  reflexivity.
Qed.

Lemma createConversation_ok userPhone userName campaign triggerMessage
  matchedKeyword matchType line w :
  faults w (tick w) = None ->
  createConversation userPhone userName campaign triggerMessage
    matchedKeyword matchType line w =
  (Val (insertId w + 1),
   with_bot_conversations
     (<[insertId w + 1 :=
          {| user_phone := userPhone; user_name := userName;
             conv_campaign_id := campaign;
             trigger_message := triggerMessage;
             matched_keyword := matchedKeyword; match_type := matchType;
             corse := line; status := INITIATED; messages_sent := 0;
             conversation_started_at := now w;
             last_message_sent_at := None; conversation_ended_at := None;
             failure_reason := None |}]> (bot_conversations w))
     (insertId w + 1) (with_tick (S (tick w)) w)).
Proof.
  intros Hf. unfold createConversation, external. rewrite Hf. reflexivity.
Qed.

(** X14.  For a sender without an open conversation: once
    [createConversation] has run, [getActiveConversation] returns the new
    conversation, in status INITIATED; once that conversation has been
    completed or failed, it returns nothing again. *)
Theorem conversation_opens_and_closes_gate
  (userPhone userName : jsstring) (campaign : Z)
  (triggerMessage matchedKeyword : jsstring) (matchType : MatchType)
  (line : option jsstring) (finish : Z -> M unit) (w : World) :
  (forall id row, bot_conversations w !! id = Some row ->
                  user_phone row = userPhone ->
                  is_active_status (status row) = false) ->
  finish = completeConversation
  \/ (exists why, finish = fun id => failConversation id why) ->
  (forall k, (k < 4)%nat -> faults w (tick w + k)%nat = None) ->
  exists row,
    fst ((conversationId <-
            createConversation userPhone userName campaign triggerMessage
              matchedKeyword matchType line ;;
          during <- getActiveConversation userPhone None ;;
          finish conversationId ;;
          after <- getActiveConversation userPhone None ;;
          ret (conversationId, during, after)) w)
    = Val (insertId w + 1, Some (insertId w + 1, row), None)
    /\ status row = INITIATED /\ user_phone row = userPhone.
Proof.
  intros Hclosed Hfinish Hf.
  assert (F0 : faults w (tick w) = None)
    by (specialize (Hf 0%nat); rewrite Nat.add_0_r in Hf; apply Hf; lia).
  assert (F1 : faults w (S (tick w)) = None)
    by (specialize (Hf 1%nat); rewrite Nat.add_1_r in Hf; apply Hf; lia).
  assert (F2 : faults w (S (S (tick w))) = None).
  { specialize (Hf 2%nat). replace (tick w + 2)%nat with (S (S (tick w)))
      in Hf by lia. apply Hf. lia. }
  assert (F3 : faults w (S (S (S (tick w)))) = None).
  { specialize (Hf 3%nat). replace (tick w + 3)%nat with (S (S (S (tick w))))
      in Hf by lia. apply Hf. lia. }
  unfold bind at 1. rewrite createConversation_ok by exact F0.
  set (cid := insertId w + 1).
  set (row0 := {| user_phone := userPhone; status := INITIATED |}).
  set (w1 := with_bot_conversations _ _ _).
  unfold bind at 1. rewrite (getActiveConversation_ok userPhone w1) by exact F1.
  pose proof (open_rows_head userPhone (bot_conversations w1)) as Hduring.
  destruct (head _) as [[id row]|].
  2:{ exfalso. specialize (Hduring cid row0).
      assert (is_active_status (status row0) = false); [|discriminate].
      apply Hduring; [apply lookup_insert_eq|reflexivity]. }
  cbv beta iota in Hduring.
  destruct Hduring as [Hrow [Huser [Hopen Hlatest]]]. clear Hlatest.
  assert (Hid : id = cid).
  { destruct (decide (id = cid)) as [|Hne]; [done|]. exfalso.
    unfold w1 in Hrow. cbn [bot_conversations with_bot_conversations] in Hrow.
    rewrite lookup_insert_ne in Hrow by done.
    rewrite (Hclosed id row Hrow Huser) in Hopen. discriminate Hopen. }
  subst id.
  assert (Hrow0 : row = row0).
  { unfold w1 in Hrow. cbn [bot_conversations with_bot_conversations] in Hrow.
    rewrite lookup_insert_eq in Hrow. by injection Hrow. }
  subst row.
  set (w2 := with_tick (S (tick w1)) w1).
  assert (Hfin : exists s why,
            finish cid w2 =
            (Val tt,
             with_bot_conversations
               (alter (end_conversation s why (now w2)) cid
                      (bot_conversations w2)) (insertId w2)
               (with_tick (S (tick w2)) w2))
            /\ is_active_status s = false).
  { destruct Hfinish as [->|[why ->]].
    - exists COMPLETED, (failure_reason row0).
      unfold completeConversation.
      rewrite update_conversation_ok by exact F2.
      split; [|reflexivity]. f_equal. f_equal.
      apply map_eq. intros i. destruct (decide (cid = i)) as [<-|Hne].
      + rewrite !lookup_alter_eq. unfold w2, w1.
        cbn [bot_conversations with_bot_conversations with_tick].
        by rewrite lookup_insert_eq.
      + by rewrite !lookup_alter_ne.
    - exists FAILED, why. unfold failConversation.
      rewrite update_conversation_ok by exact F2. by split. }
  destruct Hfin as (s & why & Hfin & Hs).
  unfold bind at 1. rewrite Hfin.
  set (w3 := with_bot_conversations _ _ _).
  unfold bind at 1. rewrite (getActiveConversation_ok userPhone w3) by exact F3.
  pose proof (open_rows_head userPhone (bot_conversations w3)) as Hafter.
  destruct (head (order_by_desc _
                    (List.filter _ (map_to_list (bot_conversations w3)))))
    as [[id row]|].
  { exfalso. cbv beta iota in Hafter.
    destruct Hafter as (Hrow' & Huser' & Hopen' & _).
    unfold w3 in Hrow'.
    cbn [bot_conversations with_bot_conversations] in Hrow'.
    destruct (decide (id = cid)) as [->|Hne].
    - rewrite lookup_alter_eq in Hrow'. unfold w2, w1 in Hrow'.
      cbn [bot_conversations with_bot_conversations with_tick] in Hrow'.
      rewrite lookup_insert_eq in Hrow'. cbn in Hrow'.
      injection Hrow' as <-. cbn in Hopen'. congruence.
    - rewrite lookup_alter_ne in Hrow' by done. unfold w2, w1 in Hrow'.
      cbn [bot_conversations with_bot_conversations with_tick] in Hrow'.
      rewrite lookup_insert_ne in Hrow' by done.
      rewrite (Hclosed id row Hrow' Huser') in Hopen'. discriminate Hopen'. }
  exists row0. by repeat split.
Qed.

Lemma conversation_opens_and_closes_gate_witness :
  exists row,
    fst ((conversationId <-
            createConversation sender (js "Ana") 7 yanachaga_message
              yanachaga_keyword KEYWORD (Some (js "51900000001")) ;;
          during <- getActiveConversation sender None ;;
          completeConversation conversationId ;;
          after <- getActiveConversation sender None ;;
          ret (conversationId, during, after)) quiet_world)
    = Val (insertId quiet_world + 1,
           Some (insertId quiet_world + 1, row), None)
    /\ status row = INITIATED /\ user_phone row = sender.
Proof.
  apply (conversation_opens_and_closes_gate sender (js "Ana") 7
           yanachaga_message yanachaga_keyword KEYWORD
           (Some (js "51900000001")) completeConversation quiet_world).
  - intros id row Hrow. cbn in Hrow. rewrite lookup_empty in Hrow.
    discriminate Hrow.
  - left. reflexivity.
  - intros k _. reflexivity.
Defined.

Lemma parse_status_none name :
  parse_status name = None <->
  ~ In name [js "INITIATED"; js "IN_PROGRESS"; js "COMPLETED"; js "FAILED";
             js "CANCELLED"].
Proof.
  unfold parse_status, jsstring_eqb. cbn [In].
  repeat (case_bool_decide;
          [split; [discriminate|intros Hn; exfalso; apply Hn; auto 10]|]).
  split; [|reflexivity]. intros _ Hin.
  repeat (destruct Hin as [Hin|Hin]; [congruence|]). exact Hin.
Qed.

(** X15.  [updateConversationStatus] accepts the five status names and no
    other: any other name makes it throw before it queries, the world
    untouched.  With an accepted name and its update done on a stored
    conversation, the status is the one named, the end time becomes now when
    the status is COMPLETED, FAILED or CANCELLED and stays as it was
    otherwise, and the counter of sent messages is not changed.  With the name
    COMPLETED it does what [completeConversation] does. *)
Theorem updateConversationStatus_by_name
  (conversationId : Z) (name : jsstring) (w : World) :
  (~ In name [js "INITIATED"; js "IN_PROGRESS"; js "COMPLETED"; js "FAILED";
              js "CANCELLED"] ->
   exists e, updateConversationStatus conversationId name w = (Exn e, w))
  /\ (forall s row,
        parse_status name = Some s ->
        faults w (tick w) = None ->
        bot_conversations w !! conversationId = Some row ->
        exists row',
          bot_conversations
            (snd (updateConversationStatus conversationId name w))
            !! conversationId = Some row'
          /\ status row' = s
          /\ conversation_ended_at row'
             = (if is_terminal_status s then Some (now w)
                else conversation_ended_at row)
          /\ messages_sent row' = messages_sent row)
  /\ (name = js "COMPLETED" ->
      updateConversationStatus conversationId name w
      = completeConversation conversationId w).
Proof.
  split; [|split].
  - intros Hnone. apply parse_status_none in Hnone.
    unfold updateConversationStatus. rewrite Hnone. by eexists.
  - intros s row Hs Hf Hrow. unfold updateConversationStatus. rewrite Hs.
    rewrite update_conversation_ok by exact Hf.
    cbn [snd bot_conversations with_bot_conversations].
    rewrite lookup_alter_eq, Hrow. eexists. split; [reflexivity|].
    by repeat split.
  - intros ->. reflexivity.
Qed.

Lemma updateConversationStatus_by_name_witness :
  (exists e, updateConversationStatus 1 (js "DONE") conversation_world
             = (Exn e, conversation_world))
  /\ exists row',
       bot_conversations
         (snd (updateConversationStatus 1 (js "CANCELLED") conversation_world))
         !! 1 = Some row'
       /\ status row' = CANCELLED.
Proof.
  destruct (updateConversationStatus_by_name 1 (js "DONE") conversation_world)
    as (Hbad & _ & _).
  destruct (updateConversationStatus_by_name 1 (js "CANCELLED")
              conversation_world) as (_ & Hgood & _).
  split.
  - apply Hbad. apply parse_status_none. reflexivity.
  - edestruct (Hgood CANCELLED) as (row' & Hrow' & Hstatus & _).
    + reflexivity.
    + reflexivity.
    + vm_compute. reflexivity.
    + exists row'. by split.
Defined.



(** * What the services change *)

Section Footprint.
Variable R : World -> World -> Prop.
Hypothesis R_refl : forall w, R w w.
Hypothesis R_trans : forall a b c, R a b -> R b c -> R a c.
Hypothesis R_tick : forall n w, R w (with_tick n w).

Lemma within_ret {A} (a : A) : within R (ret a).
Proof. intros w. apply R_refl. Qed.

Lemma within_throw {A} e : within R (@throw A e).
Proof. intros w. apply R_refl. Qed.

Lemma within_gets {A} (f : World -> A) : within R (gets f).
Proof. intros w. apply R_refl. Qed.

Lemma within_modify (f : World -> World) :
  (forall w, R w (f w)) -> within R (modify f).
Proof. intros Hf w. apply Hf. Qed.

Lemma within_bind {A B} (m : M A) (k : A -> M B) :
  within R m -> (forall a, within R (k a)) -> within R (bind m k).
Proof.
  intros Hm Hk w. unfold bind. specialize (Hm w).
  destruct (m w) as [[a|e] w1]; cbn [snd] in *; [|exact Hm].
  eapply R_trans; [exact Hm|apply Hk].
Qed.

Lemma within_try_catch {A} (m : M A) (handler : jsstring -> M A) :
  within R m -> (forall e, within R (handler e)) ->
  within R (try_catch m handler).
Proof.
  intros Hm Hh w. unfold try_catch. specialize (Hm w).
  destruct (m w) as [[a|e] w1]; cbn [snd] in *; [exact Hm|].
  eapply R_trans; [exact Hm|apply Hh].
Qed.

Lemma within_attempt {A} (m : M A) : within R m -> within R (attempt m).
Proof.
  intros Hm w. unfold attempt. specialize (Hm w).
  by destruct (m w) as [r w1].
Qed.

Lemma within_external {A} (call : M A) :
  within R call -> within R (external call).
Proof.
  intros Hc w. unfold external.
  destruct (faults w (tick w)); cbn [snd]; [apply R_tick|].
  eapply R_trans; [apply (R_tick (S (tick w)))|apply Hc].
Qed.

End Footprint.

(** *** Deliveries *)

Lemma delivers_to_same to w w' :
  delivered w' = delivered w -> delivers_to to w w'.
Proof. intros H. exists []. by rewrite app_nil_r. Qed.

Lemma delivers_to_trans to a b c :
  delivers_to to a b -> delivers_to to b c -> delivers_to to a c.
Proof.
  intros (m1 & H1 & F1) (m2 & H2 & F2). exists (m1 ++ m2).
  split; [by rewrite H2, H1, app_assoc|by apply Forall_app].
Qed.

(** One step of a proof that a computation delivers to one recipient
    only. *)
Ltac delivery_step to :=
  first
    [ apply (within_bind (delivers_to to));
        [apply delivers_to_trans| |intros ?]
    | apply (within_try_catch (delivers_to to));
        [apply delivers_to_trans| |intros ?]
    | apply (within_attempt (delivers_to to))
    | apply (within_external (delivers_to to));
        [apply delivers_to_trans
        |intros ? ?; by apply delivers_to_same|]
    | apply (within_ret (delivers_to to)); intros ?; by apply delivers_to_same
    | apply (within_throw (delivers_to to)); intros ?;
        by apply delivers_to_same
    | apply (within_gets (delivers_to to)); intros ?; by apply delivers_to_same
    | apply (within_modify (delivers_to to)); intros ?;
        by apply delivers_to_same
    | match goal with
      | |- within _ (match ?x with _ => _ end) => destruct x
      | |- within _ (if ?b then _ else _) => destruct b
      end ].

Lemma sendMessage_delivers to what how :
  within (delivers_to to) (sendMessage to what how).
Proof.
  unfold sendMessage.
  apply (within_external (delivers_to to));
    [apply delivers_to_trans|intros ? ?; by apply delivers_to_same|].
  intros w. cbn [snd]. eexists. split; [reflexivity|].
  by repeat constructor.
Qed.

Lemma gallery_loop_delivers to mediaFiles :
  forall lastMessageId,
    within (delivers_to to) (gallery_loop to mediaFiles lastMessageId).
Proof.
  induction mediaFiles as [|mediaFile rest IH]; intros lastMessageId;
    cbn [gallery_loop].
  - repeat delivery_step to.
  - delivery_step to; [repeat delivery_step to|].
    delivery_step to; [|apply IH].
    delivery_step to. unfold downloadMediaFromUrl, sleep.
    delivery_step to; [repeat delivery_step to|].
    delivery_step to; [apply sendMessage_delivers|].
    repeat delivery_step to.
Qed.

Lemma send_by_type_delivers to msg variables send :
  send_by_type to msg variables = Some send -> within (delivers_to to) send.
Proof.
  unfold send_by_type.
  repeat (destruct (jsstring_eqb (type_code msg) _);
          [intros [= <-]|]); [| | | | |discriminate].
  - apply sendMessage_delivers.
  - unfold sendImageMessage, first_media, getMessageMedia,
      downloadMediaFromUrl.
    delivery_step to; [|apply sendMessage_delivers].
    repeat delivery_step to.
  - unfold sendAudioMessage, first_media, getMessageMedia,
      downloadMediaFromUrl.
    delivery_step to; [|apply sendMessage_delivers].
    repeat delivery_step to.
  - unfold sendDocumentMessage, first_media, getMessageMedia,
      downloadMediaFromUrl.
    delivery_step to; [|apply sendMessage_delivers].
    repeat delivery_step to.
  - unfold sendGalleryMessage, getMessageMedia.
    delivery_step to; [repeat delivery_step to|].
    delivery_step to; [repeat delivery_step to|].
    delivery_step to; [apply gallery_loop_delivers|].
    repeat delivery_step to.
Qed.

Lemma send_loop_delivers to conversationId variables plan :
  forall successCount failCount,
    within (delivers_to to)
      (send_loop to conversationId plan variables successCount failCount).
Proof.
  induction plan as [|msg rest IH]; intros successCount failCount;
    cbn [send_loop].
  - repeat delivery_step to.
  - delivery_step to.
    + delivery_step to. unfold send_one, pause, sleep.
      delivery_step to; [repeat delivery_step to|].
      destruct (send_by_type to msg variables) as [send|] eqn:Esend;
        [|repeat delivery_step to].
      delivery_step to; [by eapply send_by_type_delivers|].
      unfold logMessageSent, incrementMessagesSent, update_conversation.
      repeat delivery_step to.
    + destruct a as [[|]|e]; [apply IH|apply IH|].
      unfold logMessageFailed.
      delivery_step to; [repeat delivery_step to|].
      destruct (is_critical e); [repeat delivery_step to|apply IH].
Qed.

Lemma deliver_delivers to userName conversationId campaign :
  within (delivers_to to) (deliver to userName conversationId campaign).
Proof.
  unfold deliver, getCampaignMessages.
  delivery_step to; [repeat delivery_step to|].
  destruct a as [|msg plan].
  - unfold failConversation, update_conversation. repeat delivery_step to.
  - unfold sendSequentialMessages.
    delivery_step to.
    + delivery_step to; [apply send_loop_delivers|repeat delivery_step to].
    + unfold settle, completeConversation, failConversation,
        update_conversation.
      repeat delivery_step to.
Qed.

(** X17.  Whatever the message, the tables and the failures of the calls,
    one run of [handleIncomingMessage] only adds to what the chat client has
    delivered, and every delivery it adds goes to the sender of the message:
    nobody else is ever written to. *)
Theorem handleIncomingMessage_delivers_to_sender `{U : UnicodeRuntime}
  (message : IncomingMessage) (w : World) :
  exists more,
    delivered (snd (handleIncomingMessage message w)) = delivered w ++ more
    /\ Forall (fun d => recipient d = from message) more.
Proof.
  revert w. change (within (delivers_to (from message))
                      (handleIncomingMessage message)).
  unfold handleIncomingMessage.
  delivery_step (from message); [|repeat delivery_step (from message)].
  destruct (fromMe message); [repeat delivery_step (from message)|].
  destruct (includes _ _); [repeat delivery_step (from message)|].
  destruct (body message) as [messageText|];
    [|repeat delivery_step (from message)].
  destruct (_ || _); [repeat delivery_step (from message)|].
  delivery_step (from message); [repeat delivery_step (from message)|].
  unfold getActiveConversation.
  delivery_step (from message); [repeat delivery_step (from message)|].
  destruct a0; [repeat delivery_step (from message)|].
  delivery_step (from message).
  { unfold checkRateLimit, select_blocked, select_rate_limit, update_unblock.
    repeat delivery_step (from message). }
  destruct (negb _); [repeat delivery_step (from message)|].
  delivery_step (from message).
  { unfold detectCampaign. repeat delivery_step (from message). }
  destruct a1 as [found|]; [|repeat delivery_step (from message)].
  delivery_step (from message).
  { unfold updateRateLimit. repeat delivery_step (from message). }
  delivery_step (from message); [repeat delivery_step (from message)|].
  delivery_step (from message).
  { unfold createConversation.
    apply (within_external (delivers_to (from message)));
      [apply delivers_to_trans|intros ? ?; by apply delivers_to_same|].
    intros w. by apply delivers_to_same. }
  apply deliver_delivers.
Qed.

(** *** The counter of a conversation *)

Lemma same_conversations_trans a b c :
  same_conversations a b -> same_conversations b c -> same_conversations a c.
Proof. intros [H1 H2] [H3 H4]. split; congruence. Qed.

Ltac conversations_step :=
  first
    [ apply (within_bind same_conversations);
        [apply same_conversations_trans| |intros ?]
    | apply (within_try_catch same_conversations);
        [apply same_conversations_trans| |intros ?]
    | apply (within_attempt same_conversations)
    | apply (within_external same_conversations);
        [apply same_conversations_trans|intros ? ?; by split|]
    | apply (within_ret same_conversations); intros ?; by split
    | apply (within_throw same_conversations); intros ?; by split
    | apply (within_gets same_conversations); intros ?; by split
    | apply (within_modify same_conversations); intros ?; by split
    | intros ?; by split
    | match goal with
      | |- within _ (match ?x with _ => _ end) => destruct x
      | |- within _ (if ?b then _ else _) => destruct b
      end ].

Lemma gallery_loop_keeps_conversations to mediaFiles :
  forall lastMessageId,
    within same_conversations (gallery_loop to mediaFiles lastMessageId).
Proof.
  induction mediaFiles as [|mediaFile rest IH]; intros lastMessageId;
    cbn [gallery_loop].
  - repeat conversations_step.
  - conversations_step; [repeat conversations_step|].
    conversations_step; [|apply IH].
    unfold downloadMediaFromUrl, sendMessage, sleep.
    repeat conversations_step.
Qed.

Lemma send_by_type_keeps_conversations to msg variables send :
  send_by_type to msg variables = Some send -> within same_conversations send.
Proof.
  unfold send_by_type.
  repeat (destruct (jsstring_eqb (type_code msg) _);
          [intros [= <-]|]); [| | | | |discriminate].
  - unfold sendTextMessage, sendMessage. repeat conversations_step.
  - unfold sendImageMessage, first_media, getMessageMedia,
      downloadMediaFromUrl, sendMessage.
    repeat conversations_step.
  - unfold sendAudioMessage, first_media, getMessageMedia,
      downloadMediaFromUrl, sendMessage.
    repeat conversations_step.
  - unfold sendDocumentMessage, first_media, getMessageMedia,
      downloadMediaFromUrl, sendMessage.
    repeat conversations_step.
  - unfold sendGalleryMessage, getMessageMedia.
    conversations_step; [repeat conversations_step|].
    conversations_step; [repeat conversations_step|].
    conversations_step; [apply gallery_loop_keeps_conversations|].
    repeat conversations_step.
Qed.

Lemma logMessageSent_keeps_conversations conversationId messageId i :
  within same_conversations (logMessageSent conversationId messageId i).
Proof. unfold logMessageSent. repeat conversations_step. Qed.

Lemma logMessageFailed_keeps_conversations conversationId messageId e :
  within same_conversations (logMessageFailed conversationId messageId e).
Proof. unfold logMessageFailed. repeat conversations_step. Qed.

Lemma incrementMessagesSent_counts conversationId w :
  match fst (incrementMessagesSent conversationId w) with
  | Val _ =>
      sent_and_status (snd (incrementMessagesSent conversationId w))
        conversationId
      = (fun p => (fst p + 1, IN_PROGRESS))
          <$> sent_and_status w conversationId
  | Exn _ =>
      sent_and_status (snd (incrementMessagesSent conversationId w))
        conversationId
      = sent_and_status w conversationId
  end.
Proof.
  unfold incrementMessagesSent, update_conversation, external, modify,
    sent_and_status.
  destruct (faults w (tick w)); cbn [fst snd bot_conversations
    with_bot_conversations with_tick]; [reflexivity|].
  rewrite lookup_alter_eq.
  by destruct (bot_conversations w !! conversationId).
Qed.

Lemma send_one_counts to conversationId msg variables w :
  match fst (send_one to conversationId msg variables w) with
  | Val true =>
      sent_and_status (snd (send_one to conversationId msg variables w))
        conversationId
      = (fun p => (fst p + 1, IN_PROGRESS))
          <$> sent_and_status w conversationId
  | _ =>
      sent_and_status (snd (send_one to conversationId msg variables w))
        conversationId
      = sent_and_status w conversationId
  end.
Proof.
  destruct (send_one to conversationId msg variables w) as [r w'] eqn:E.
  unfold send_one in E. unfold bind at 1 in E.
  assert (H0 : same_conversations w (snd (pause msg w))).
  { unfold pause, sleep. destruct (0 <? delay_seconds msg); by split. }
  rewrite pause_returns in E. set (w0 := snd (pause msg w)) in *.
  assert (S0 : sent_and_status w0 conversationId
               = sent_and_status w conversationId).
  { unfold sent_and_status. destruct H0 as [-> _]. reflexivity. }
  destruct (send_by_type to msg variables) as [send|] eqn:Esend.
  - pose proof (send_by_type_keeps_conversations _ _ _ _ Esend w0) as H1.
    unfold bind in E.
    destruct (send w0) as [[i|e] w1]; cbn [snd] in H1.
    + pose proof (logMessageSent_keeps_conversations conversationId
                    (message_id msg) i w1) as H2.
      pose proof (logMessageSent_returns conversationId (message_id msg) i w1)
        as Hret.
      destruct (logMessageSent conversationId (message_id msg) i w1)
        as [[[]|e] w2]; [|discriminate Hret]. cbn [snd] in H2.
      pose proof (incrementMessagesSent_counts conversationId w2) as H3.
      assert (S2 : sent_and_status w2 conversationId
                   = sent_and_status w conversationId).
      { rewrite <- S0. unfold sent_and_status.
        destruct H2 as [-> _]. destruct H1 as [-> _]. reflexivity. }
      destruct (incrementMessagesSent conversationId w2) as [[[]|e] w3];
        cbn [fst snd] in H3; injection E as <- <-; cbn [fst snd];
        by rewrite H3, S2.
    + injection E as <- <-. cbn [fst snd]. rewrite <- S0.
      unfold sent_and_status. destruct H1 as [-> _]. reflexivity.
  - injection E as <- <-. cbn [fst snd]. exact S0.
Qed.

Lemma send_loop_counts_sent to conversationId variables plan :
  forall successCount failCount w counts w',
    send_loop to conversationId plan variables successCount failCount w
    = (Val counts, w') ->
    (successCount <= fst counts)%nat
    /\ sent_and_status w' conversationId
       = (fun p => (fst p + Z.of_nat (fst counts - successCount),
                    if Nat.eqb (fst counts) successCount then snd p
                    else IN_PROGRESS))
           <$> sent_and_status w conversationId.
Proof.
  induction plan as [|msg rest IH];
    intros successCount failCount w counts w'; cbn [send_loop].
  - intros [= <- <-]. cbn [fst]. split; [lia|].
    rewrite Nat.sub_diag, Nat.eqb_refl.
    destruct (sent_and_status w conversationId) as [[m st]|]; cbn;
      [|reflexivity].
    by rewrite Z.add_0_r.
  - unfold bind at 1, attempt.
    pose proof (send_one_counts to conversationId msg variables w) as Hone.
    destruct (send_one to conversationId msg variables w) as [[[|]|e] w1];
      cbn [fst snd] in Hone.
    + intros Hrun. destruct (IH _ _ _ _ _ Hrun) as [Hle Hrest].
      split; [lia|]. rewrite Hrest, Hone.
      destruct (sent_and_status w conversationId) as [[m st]|]; cbn;
        [|reflexivity].
      destruct (Nat.eqb_spec (fst counts) successCount) as [Heq|Hne];
        [lia|].
      f_equal. f_equal; [lia|].
      by destruct (fst counts =? S successCount)%nat.
    + intros Hrun. destruct (IH _ _ _ _ _ Hrun) as [Hle Hrest].
      split; [exact Hle|]. by rewrite Hrest, Hone.
    + unfold bind at 1.
      pose proof (logMessageFailed_keeps_conversations conversationId
                    (message_id msg) e w1) as Hlog.
      pose proof (logMessageFailed_returns conversationId (message_id msg)
                    e w1) as Hret.
      destruct (logMessageFailed conversationId (message_id msg) e w1)
        as [[[]|e'] w2]; [|discriminate Hret]. cbn [snd] in Hlog.
      destruct (is_critical e); [discriminate|].
      intros Hrun. destruct (IH _ _ _ _ _ Hrun) as [Hle Hrest].
      split; [exact Hle|]. rewrite Hrest. f_equal. rewrite <- Hone.
      unfold sent_and_status. destruct Hlog as [-> _]. reflexivity.
Qed.

(** X18.  When the dispatcher returns a result, the counter of the
    conversation has grown by exactly [sent], in every world: an item is
    counted as sent only when its counter update went through.  The status
    is IN_PROGRESS as soon as one item was sent and is left as it was when
    none was. *)
Theorem dispatch_counter_matches_sent
  (userPhone : jsstring) (conversationId : Z) (plan : list MessageRow)
  (variables : list (jsstring * jsstring)) (w w' : World)
  (r : DispatchResult) (row : ConversationRow) :
  sendSequentialMessages userPhone conversationId plan variables w
  = (Val r, w') ->
  bot_conversations w !! conversationId = Some row ->
  exists row',
    bot_conversations w' !! conversationId = Some row'
    /\ messages_sent row' = messages_sent row + Z.of_nat (sent r)
    /\ status row' = (if Nat.eqb (sent r) 0 then status row else IN_PROGRESS).
Proof.
  intros Hrun Hrow. unfold sendSequentialMessages, bind in Hrun.
  destruct (send_loop _ _ plan _ _ _ w) as [[counts|e] w1] eqn:Eloop;
    [|discriminate Hrun].
  injection Hrun as <- <-. cbn [sent].
  destruct (send_loop_counts_sent _ _ _ _ _ _ _ _ _ Eloop) as [_ Hs].
  unfold sent_and_status in Hs. rewrite Hrow in Hs. cbn in Hs.
  destruct (bot_conversations w1 !! conversationId) as [row'|];
    [|discriminate Hs].
  exists row'. split; [reflexivity|]. cbn in Hs. injection Hs as Hm Hst.
  rewrite Nat.sub_0_r in Hm. by split.
Qed.

Lemma dispatch_counter_matches_sent_witness :
  exists row',
    bot_conversations (snd mixed_dispatch) !! 1 = Some row'
    /\ messages_sent row' = 2 /\ status row' = IN_PROGRESS.
Proof.
  edestruct (dispatch_counter_matches_sent sender 1 mixed_plan name_and_phone
               conversation_world (snd mixed_dispatch)
               {| success := true; total := 3; sent := 2; failed := 0 |})
    as (row' & Hrow' & Hm & Hs).
  - vm_compute. reflexivity.
  - vm_compute. reflexivity.
  - exists row'. split; [exact Hrow'|]. split; [exact Hm|exact Hs].
Defined.

(** * The order in which a dispatch sends *)

(** *** Computations that deliver nothing *)

Lemma idle_refl w : idle w w.
Proof. by repeat split. Qed.

Lemma idle_trans a b c : idle a b -> idle b c -> idle a c.
Proof.
  intros (H1 & H2 & H3 & H4) (H5 & H6 & H7 & H8).
  repeat split; congruence.
Qed.

Ltac idle_step :=
  first
    [ apply (within_bind idle); [apply idle_trans| |intros ?]
    | apply (within_try_catch idle); [apply idle_trans| |intros ?]
    | apply (within_attempt idle)
    | apply (within_external idle);
        [apply idle_trans|intros ? ?; by repeat split|]
    | apply (within_ret idle); intros ?; by repeat split
    | apply (within_throw idle); intros ?; by repeat split
    | apply (within_gets idle); intros ?; by repeat split
    | apply (within_modify idle); intros ?; by repeat split
    | match goal with
      | |- within _ (match ?x with _ => _ end) => destruct x
      | |- within _ (if ?b then _ else _) => destruct b
      end ].

Lemma pause_idle msg : within idle (pause msg).
Proof. unfold pause, sleep. repeat idle_step. Qed.

Lemma logMessageSent_idle conversationId messageId i :
  within idle (logMessageSent conversationId messageId i).
Proof. unfold logMessageSent. repeat idle_step. Qed.

Lemma logMessageFailed_idle conversationId messageId e :
  within idle (logMessageFailed conversationId messageId e).
Proof. unfold logMessageFailed. repeat idle_step. Qed.

Lemma incrementMessagesSent_idle conversationId :
  within idle (incrementMessagesSent conversationId).
Proof.
  unfold incrementMessagesSent, update_conversation. repeat idle_step.
Qed.

(** *** What one item sends *)

Ltac sent_nothing F :=
  exists []; split; [cbn; by rewrite app_nil_r|];
  split; [apply sublist_nil_l|];
  split; [intros Hq; rewrite Hq in F; discriminate F|cbn; by repeat split].

Lemma sendMessage_sends to what how w :
  sends [ {| recipient := to; payload := what; options := how |} ]
    (sendMessage to what how) w.
Proof.
  unfold sends, sendMessage, external.
  destruct (faults w (tick w)) eqn:F; [sent_nothing F|].
  eexists. split; [reflexivity|]. split; [reflexivity|].
  split; [reflexivity|by repeat split].
Qed.

Lemma media_sender_sends to message missing fallbackMime name how w :
  sends
    (first_attachment to (config w) (message_media w) message fallbackMime
       name how)
    (media <- first_media message missing fallbackMime name ;;
     sendMessage to (Attachment media) (Some how)) w.
Proof.
  unfold sends, first_attachment, media_rows, first_media, getMessageMedia,
    downloadMediaFromUrl, sendMessage.
  run_monad.
  destruct (faults w (tick w)) eqn:F0; [sent_nothing F0|].
  run_monad.
  destruct (order_by_asc media_sort_order _) as [|mediaFile rest].
  { exists []. split; [cbn; by rewrite app_nil_r|].
    split; [reflexivity|]. split; [reflexivity|by repeat split]. }
  run_monad.
  destruct (faults w (S (tick w))) eqn:F1; [sent_nothing F1|].
  run_monad.
  destruct (faults w (S (S (tick w)))) eqn:F2; [sent_nothing F2|].
  eexists. split; [reflexivity|]. split; [reflexivity|].
  split; [reflexivity|by repeat split].
Qed.

(** A computation whose outcome is caught, followed by another: what the two
    send, one after the other. *)
Lemma sends_attempt_then {A B} asked1 asked2 (m : M A) (k : Res A -> M B) w :
  sends asked1 m w ->
  (forall r w1, m w = (r, w1) -> sends asked2 (k r) w1) ->
  sends (asked1 ++ asked2) (bind (attempt m) k) w.
Proof.
  intros (c1 & Hd1 & Hs1 & Hq1 & Hf1 & Hc1 & Hm1) Hk.
  unfold sends, bind, attempt.
  destruct (m w) as [r w1] eqn:E. cbn [snd] in *.
  destruct (Hk r w1 eq_refl) as (c2 & Hd2 & Hs2 & Hq2 & Hf2 & Hc2 & Hm2).
  exists (c1 ++ c2). split; [by rewrite Hd2, Hd1, app_assoc|].
  split; [by apply sublist_app|].
  split; [|repeat split; congruence].
  intros Hq. rewrite (Hq1 Hq). f_equal. apply Hq2.
  intros n. rewrite Hf1. apply Hq.
Qed.

Lemma sends_gets {A B} asked (f : World -> A) (k : A -> M B) w :
  sends asked (k (f w)) w -> sends asked (bind (gets f) k) w.
Proof. exact id. Qed.

Lemma gallery_loop_sends to mediaFiles :
  forall cfg lastMessageId w,
    config w = cfg ->
    sends
      (List.map
         (fun mediaFile =>
            {| recipient := to;
               payload := Attachment (attachment cfg (js "image/jpeg")
                                        (js "file") mediaFile);
               options := None |})
         mediaFiles)
      (gallery_loop to mediaFiles lastMessageId) w.
Proof.
  induction mediaFiles as [|mediaFile rest IH]; intros cfg lastMessageId w Hcfg;
    cbn [gallery_loop List.map].
  - exists []. split; [cbn; by rewrite app_nil_r|].
    split; [reflexivity|]. split; [reflexivity|by repeat split].
  - apply sends_gets. rewrite Hcfg.
    apply (sends_attempt_then [_] _).
    + unfold sends, downloadMediaFromUrl, sendMessage, sleep. run_monad.
      destruct (faults w (tick w)) eqn:F0; [sent_nothing F0|].
      run_monad.
      destruct (faults w (S (tick w))) eqn:F1; [sent_nothing F1|].
      destruct rest; run_monad;
        (eexists; split; [reflexivity|]; split; [reflexivity|];
         split; [reflexivity|by repeat split]).
    + intros r w1 Hrun. apply IH.
      assert (Hidle : config w1 = config w); [|congruence].
      revert Hrun. unfold downloadMediaFromUrl, sendMessage, sleep.
      run_monad.
      destruct (faults w (tick w)); [by intros [= _ <-]|].
      run_monad.
      destruct (faults w (S (tick w))); [by intros [= _ <-]|].
      destruct rest; run_monad; by intros [= _ <-].
Qed.

Lemma item_deliveries_unsupported to msg variables cfg stored :
  send_by_type to msg variables = None ->
  item_deliveries to variables cfg stored msg = [].
Proof.
  unfold send_by_type, item_deliveries.
  repeat (destruct (jsstring_eqb (type_code msg) _); [discriminate|]).
  reflexivity.
Qed.

Lemma send_by_type_sends to msg variables send w :
  send_by_type to msg variables = Some send ->
  sends (item_deliveries to variables (config w) (message_media w) msg)
    send w.
Proof.
  unfold send_by_type, item_deliveries.
  repeat (destruct (jsstring_eqb (type_code msg) _);
          [intros [= <-]|]); [| | | | |discriminate].
  - apply sendMessage_sends.
  - apply media_sender_sends.
  - apply media_sender_sends.
  - apply media_sender_sends.
  - unfold sends, sendGalleryMessage, getMessageMedia, media_rows.
    run_monad.
    destruct (faults w (tick w)) eqn:F0; [sent_nothing F0|].
    run_monad.
    destruct (order_by_asc media_sort_order _) as [|mediaFile rest].
    { exists []. split; [cbn; by rewrite app_nil_r|].
      split; [reflexivity|]. split; [reflexivity|by repeat split]. }
    destruct (gallery_loop_sends to (mediaFile :: rest) (config w) None
                (with_tick (S (tick w)) w) eq_refl)
      as (chunk & Hd & Hs & Hq & Hf & Hc & Hm).
    destruct (gallery_loop to (mediaFile :: rest) None _)
      as [[[sentId|]|e] w2]; cbn [snd fst] in *;
      (exists chunk; split; [exact Hd|]; split; [exact Hs|];
       split; [exact Hq|by repeat split]).
Qed.

Lemma sends_of_run {A} asked (m : M A) w r w' :
  m w = (r, w') ->
  (exists chunk,
     delivered w' = delivered w ++ chunk
     /\ sublist chunk asked
     /\ (quiet w -> chunk = asked)
     /\ faults w' = faults w
     /\ config w' = config w
     /\ message_media w' = message_media w) ->
  sends asked m w.
Proof. intros E H. unfold sends. by rewrite E. Qed.

Lemma send_one_sends to conversationId msg variables w :
  sends (item_deliveries to variables (config w) (message_media w) msg)
    (send_one to conversationId msg variables) w.
Proof.
  destruct (send_one to conversationId msg variables w) as [r w'] eqn:E.
  apply (sends_of_run _ _ _ _ _ E).
  unfold send_one in E. unfold bind at 1 in E.
  destruct (pause_idle msg w) as (Hd0 & Hf0 & Hc0 & Hm0).
  rewrite pause_returns in E. set (w0 := snd (pause msg w)) in *.
  destruct (send_by_type to msg variables) as [send|] eqn:Esend.
  - destruct (send_by_type_sends _ _ _ _ w0 Esend)
      as (chunk & Hd & Hs & Hq & Hf & Hc & Hm).
    rewrite Hc0, Hm0 in Hs, Hq.
    assert (Hq' : quiet w -> chunk
                  = item_deliveries to variables (config w)
                      (message_media w) msg).
    { intros Hquiet. apply Hq. intros n. rewrite Hf0. apply Hquiet. }
    clear Hq. unfold bind at 1 in E.
    destruct (send w0) as [[i|e] w1]; cbn [snd] in *.
    + destruct (logMessageSent_idle conversationId (message_id msg) i w1)
        as (Hd2 & Hf2 & Hc2 & Hm2).
      unfold bind at 1 in E.
      destruct (logMessageSent conversationId (message_id msg) i w1)
        as [[[]|e] w2]; cbn [snd] in *.
      * destruct (incrementMessagesSent_idle conversationId w2)
          as (Hd3 & Hf3 & Hc3 & Hm3).
        unfold bind at 1 in E.
        destruct (incrementMessagesSent conversationId w2)
          as [[[]|e] w3]; cbn [snd ret] in *; injection E as <- <-;
          (exists chunk; split; [congruence|]; split; [exact Hs|];
           split; [exact Hq'|repeat split; congruence]).
      * injection E as <- <-.
        exists chunk. split; [congruence|]. split; [exact Hs|].
        split; [exact Hq'|repeat split; congruence].
    + injection E as <- <-.
      exists chunk. split; [congruence|]. split; [exact Hs|].
      split; [exact Hq'|repeat split; congruence].
  - rewrite (item_deliveries_unsupported _ _ _ _ _ Esend).
    cbn [ret] in E. injection E as <- <-.
    exists []. split; [by rewrite app_nil_r|].
    split; [reflexivity|]. split; [reflexivity|by repeat split].
Qed.

(** *** What a dispatch sends *)

Lemma send_loop_sends to conversationId variables plan :
  forall successCount failCount w r w',
    send_loop to conversationId plan variables successCount failCount w
    = (r, w') ->
    exists reached rest chunks,
      plan = reached ++ rest
      /\ Forall2
           (fun msg chunk =>
              sublist chunk
                (item_deliveries to variables (config w) (message_media w)
                   msg))
           reached chunks
      /\ delivered w' = delivered w ++ concat chunks
      /\ (forall counts, r = Val counts -> rest = [])
      /\ (quiet w ->
          concat chunks
          = flat_map
              (item_deliveries to variables (config w) (message_media w))
              plan).
Proof.
  induction plan as [|msg plan IH]; intros successCount failCount w r w' E.
  - cbn in E. injection E as <- <-.
    exists [], [], []. cbn. rewrite app_nil_r. by repeat split.
  - cbn [send_loop] in E. unfold bind at 1, attempt in E.
    destruct (send_one_sends to conversationId msg variables w)
      as (chunk & Hd & Hs & Hq & Hf & Hc & Hm).
    pose proof (send_one_quiet to conversationId msg variables w) as Hquiet.
    assert (Hnext : forall s f w2,
      send_loop to conversationId plan variables s f w2 = (r, w') ->
      delivered w2
      = delivered (snd (send_one to conversationId msg variables w)) ->
      faults w2 = faults w -> config w2 = config w ->
      message_media w2 = message_media w ->
      exists reached rest chunks,
        msg :: plan = reached ++ rest
        /\ Forall2
             (fun msg chunk =>
                sublist chunk
                  (item_deliveries to variables (config w) (message_media w)
                     msg))
             reached chunks
        /\ delivered w' = delivered w ++ concat chunks
        /\ (forall counts, r = Val counts -> rest = [])
        /\ (quiet w ->
            concat chunks
            = flat_map
                (item_deliveries to variables (config w) (message_media w))
                (msg :: plan))).
    { intros s f w2 Erest Hd2 Hf2 Hc2 Hm2.
      destruct (IH s f w2 r w' Erest)
        as (reached & rest & chunks & Hplan & HF & Hd' & Hret & Hq').
      rewrite Hc2, Hm2 in HF, Hq'.
      exists (msg :: reached), rest, (chunk :: chunks).
      split; [by rewrite Hplan|]. split; [by constructor|].
      split; [rewrite Hd', Hd2, Hd; cbn [concat]; by rewrite app_assoc|].
      split; [exact Hret|].
      intros Hqw. cbn [concat flat_map]. rewrite (Hq Hqw). f_equal.
      apply Hq'. intros n. rewrite Hf2. apply Hqw. }
    destruct (send_one to conversationId msg variables w) as [[[|]|e] w1];
      cbn [fst snd] in *.
    + by eapply Hnext.
    + by eapply Hnext.
    + unfold bind at 1 in E.
      destruct (logMessageFailed_idle conversationId (message_id msg) e w1)
        as (Hd2 & Hf2 & Hc2 & Hm2).
      pose proof (logMessageFailed_returns conversationId (message_id msg)
                    e w1) as Hret.
      destruct (logMessageFailed conversationId (message_id msg) e w1)
        as [[[]|e'] w2]; [|discriminate Hret]. cbn [snd] in *.
      destruct (is_critical e) eqn:Ecrit.
      * injection E as <- <-. exists [msg], plan, [chunk].
        split; [reflexivity|]. split; [by repeat constructor|].
        split; [cbn; rewrite app_nil_r; congruence|].
        split; [discriminate|].
        intros Hqw. destruct (Hquiet Hqw) as [_ [Hno _]]. congruence.
      * eapply Hnext; [exact E|congruence..].
Qed.

Lemma sorted_prefix {A} (R : A -> A -> Prop) (l1 l2 : list A) :
  StronglySorted R (l1 ++ l2) -> StronglySorted R l1.
Proof.
  induction l1 as [|x l1 IH]; cbn; intros H; [constructor|].
  inversion H as [|y l Hs Hx]; subst.
  constructor; [by apply IH|].
  apply List.Forall_app in Hx. tauto.
Qed.

(** C3 (amended).  The dispatcher sends the items in the order in which the
    plan lists them and does not sort.  In every world, what a dispatch
    delivers is, for the items it reached one after the other in list
    order, a part of what each of them asks to deliver; it reaches every
    item when it returns a result, and delivers all that every item asks
    for when every call succeeds.  The plan that [getCampaignMessages]
    returns is in ascending [sort_order], so a fetched plan is sent in
    ascending [sort_order]. *)
Theorem dispatch_follows_plan_order
  (userPhone : jsstring) (conversationId : Z)
  (variables : list (jsstring * jsstring)) (w : World) :
  (forall plan, exists reached rest chunks,
      plan = reached ++ rest
      /\ Forall2
           (fun msg chunk =>
              sublist chunk
                (item_deliveries userPhone variables (config w)
                   (message_media w) msg))
           reached chunks
      /\ delivered
           (snd (sendSequentialMessages userPhone conversationId plan
                   variables w))
         = delivered w ++ concat chunks
      /\ (forall r,
            fst (sendSequentialMessages userPhone conversationId plan
                   variables w) = Val r ->
            rest = [])
      /\ (quiet w ->
          delivered
            (snd (sendSequentialMessages userPhone conversationId plan
                    variables w))
          = delivered w
            ++ flat_map
                 (item_deliveries userPhone variables (config w)
                    (message_media w))
                 plan))
  /\ (forall campaign plan w1,
        getCampaignMessages campaign w = (Val plan, w1) ->
        StronglySorted (fun a b => sort_order a <= sort_order b) plan
        /\ exists reached rest chunks,
             plan = reached ++ rest
             /\ StronglySorted (fun a b => sort_order a <= sort_order b)
                  reached
             /\ Forall2
                  (fun msg chunk =>
                     sublist chunk
                       (item_deliveries userPhone variables (config w)
                          (message_media w) msg))
                  reached chunks
             /\ delivered
                  (snd (sendSequentialMessages userPhone conversationId plan
                          variables w1))
                = delivered w ++ concat chunks
             /\ (forall r,
                   fst (sendSequentialMessages userPhone conversationId plan
                          variables w1) = Val r ->
                   rest = [])).
Proof.
  assert (Hdispatch : forall plan w0, exists reached rest chunks,
    plan = reached ++ rest
    /\ Forall2
         (fun msg chunk =>
            sublist chunk
              (item_deliveries userPhone variables (config w0)
                 (message_media w0) msg))
         reached chunks
    /\ delivered
         (snd (sendSequentialMessages userPhone conversationId plan
                 variables w0))
       = delivered w0 ++ concat chunks
    /\ (forall r,
          fst (sendSequentialMessages userPhone conversationId plan
                 variables w0) = Val r ->
          rest = [])
    /\ (quiet w0 ->
        concat chunks
        = flat_map
            (item_deliveries userPhone variables (config w0)
               (message_media w0))
            plan)).
  { intros plan w0. unfold sendSequentialMessages, bind.
    destruct (send_loop userPhone conversationId plan variables 0%nat 0%nat
                w0) as [r w'] eqn:Eloop.
    destruct (send_loop_sends _ _ _ _ _ _ _ _ _ Eloop)
      as (reached & rest & chunks & Hplan & HF & Hd & Hret & Hq).
    exists reached, rest, chunks.
    destruct r as [counts|e]; cbn [fst snd ret].
    - split; [exact Hplan|]. split; [exact HF|]. split; [exact Hd|].
      split; [|exact Hq]. intros r _. by apply (Hret counts).
    - split; [exact Hplan|]. split; [exact HF|]. split; [exact Hd|].
      split; [discriminate|exact Hq]. }
  split.
  - intros plan.
    destruct (Hdispatch plan w)
      as (reached & rest & chunks & Hplan & HF & Hd & Hret & Hq).
    exists reached, rest, chunks.
    split; [exact Hplan|]. split; [exact HF|]. split; [exact Hd|].
    split; [exact Hret|]. intros Hqw. by rewrite Hd, (Hq Hqw).
  - intros campaign plan w1 Hfetch.
    unfold getCampaignMessages, external, gets in Hfetch.
    destruct (faults w (tick w)); [discriminate Hfetch|].
    injection Hfetch as <- <-.
    set (plan := order_by_asc sort_order _).
    assert (Hsorted : StronglySorted (fun a b => sort_order a <= sort_order b)
                        plan) by apply order_by_asc_sorted.
    split; [exact Hsorted|].
    destruct (Hdispatch plan (with_tick (S (tick w)) w))
      as (reached & rest & chunks & Hplan & HF & Hd & Hret & _).
    exists reached, rest, chunks.
    split; [exact Hplan|].
    split; [rewrite Hplan in Hsorted; by eapply sorted_prefix|].
    split; [exact HF|]. split; [exact Hd|exact Hret].
Qed.

Lemma dispatch_follows_plan_order_witness :
  getCampaignMessages 7 stored_world
  = (Val fetched_plan, with_tick 2 stored_world)
  /\ StronglySorted (fun a b => sort_order a <= sort_order b) fetched_plan
  /\ List.map sort_order fetched_plan = [1; 2]
  /\ List.map payload
       (delivered (snd (sendSequentialMessages sender 1 fetched_plan
                          name_and_phone (with_tick 2 stored_world))))
     = [ Text (Some (js "primero")) name_and_phone;
         Text (Some (js "segundo")) name_and_phone ].
Proof.
  assert (Hfetch : getCampaignMessages 7 stored_world
                   = (Val fetched_plan, with_tick 2 stored_world))
    by (vm_compute; reflexivity).
  split; [exact Hfetch|].
  destruct (dispatch_follows_plan_order sender 1 name_and_phone stored_world)
    as [_ Hfetched].
  destruct (Hfetched 7 _ _ Hfetch) as [Hsorted _].
  split; [exact Hsorted|]. split; [reflexivity|].
  destruct (dispatch_follows_plan_order sender 1 name_and_phone
              (with_tick 2 stored_world)) as [Hany _].
  destruct (Hany fetched_plan) as (reached & rest & chunks & _ & _ & _ & _ & Hq).
  rewrite Hq; [vm_compute; reflexivity|intros n; reflexivity].
Defined.

(** * The status the chat service leaves after a dispatch *)

(** C4.  A message that passes every check of [handleIncomingMessage] and
    whose dispatch returns a result, with the last update of the
    conversation going through: the conversation the handler opened is still
    stored, and the handler ends with the call of [completeConversation]
    when every item was sent, with the call of [failConversation] when every
    item failed, and with the call of [completeConversation] in every other
    case, which leaves the status COMPLETED, FAILED and COMPLETED. *)
Theorem settle_follows_outcome `{U : UnicodeRuntime}
  (message : IncomingMessage) (messageText userName : jsstring)
  (verdict : RateLimitCheck) (found : CampaignMatch) (conversationId : Z)
  (plan : list MessageRow) (r : DispatchResult)
  (w w1 w2 w3 w4 w5 w6 w7 w8 : World) :
  fromMe message = false ->
  includes (from message) (js "@g.us") = false ->
  body message = Some messageText ->
  Nat.eqb (length messageText) 0 || Nat.eqb (length (trim messageText)) 0
  = false ->
  external (ret (or_else (pushname message)
                   (or_else (contact_name message) (js "Usuario")))) w
  = (Val userName, w1) ->
  getActiveConversation (from message) None w1 = (Val None, w2) ->
  checkRateLimit (from message) w2 = (Val verdict, w3) ->
  allowed verdict = true ->
  detectCampaign (Some messageText) w3 = (Val (Some found), w4) ->
  updateRateLimit (from message) w4 = (Val tt, w5) ->
  createConversation (from message) userName (campaignId found) messageText
    (matchedKeyword found) (matchType found) (botPhoneNumber w5) w5
  = (Val conversationId, w6) ->
  getCampaignMessages (campaignId found) w6 = (Val plan, w7) ->
  plan <> [] ->
  sendSequentialMessages (from message) conversationId plan
    [(js "nombre", userName); (js "telefono", from message)] w7
  = (Val r, w8) ->
  faults w8 (tick w8) = None ->
  exists row row',
    bot_conversations w8 !! conversationId = Some row
    /\ bot_conversations (snd (handleIncomingMessage message w))
         !! conversationId = Some row'
    /\ (sent r = length plan ->
        handleIncomingMessage message w
        = completeConversation conversationId w8
        /\ status row' = COMPLETED)
    /\ (failed r = length plan ->
        handleIncomingMessage message w
        = failConversation conversationId
            (Some (js "Todos los mensajes fallaron")) w8
        /\ status row' = FAILED)
    /\ (sent r <> length plan -> failed r <> length plan ->
        handleIncomingMessage message w
        = completeConversation conversationId w8
        /\ status row' = COMPLETED).
Proof.
  intros Hme Hgroup Hbody Hblank Hcontact Hopen Hcheck Hallowed Hmatch
    Hupdate Hcreate Hfetch Hplan Hrun Hf.
  assert (Hrow6 : is_Some (bot_conversations w6 !! conversationId)).
  { unfold createConversation, external in Hcreate.
    destruct (faults w5 (tick w5)); [discriminate Hcreate|].
    injection Hcreate as <- <-. cbn. rewrite lookup_insert_eq. eauto. }
  assert (Hrow7 : bot_conversations w7 = bot_conversations w6).
  { unfold getCampaignMessages, external, gets in Hfetch.
    destruct (faults w6 (tick w6)); [discriminate Hfetch|].
    injection Hfetch as _ <-. reflexivity. }
  assert (Hrow8 : is_Some (bot_conversations w8 !! conversationId)).
  { unfold sendSequentialMessages, bind in Hrun.
    destruct (send_loop _ _ plan _ _ _ w7) as [[counts|e] w'] eqn:Eloop;
      [|discriminate Hrun].
    injection Hrun as _ <-.
    destruct (send_loop_counts_sent _ _ _ _ _ _ _ _ _ Eloop) as [_ Hs].
    unfold sent_and_status in Hs. rewrite Hrow7 in Hs.
    destruct Hrow6 as [row6 Hrow6]. rewrite Hrow6 in Hs. cbn in Hs.
    destruct (bot_conversations w' !! conversationId);
      [eauto|discriminate Hs]. }
  destruct Hrow8 as [row Hrow].
  pose proof (dispatch_outcome (from message) conversationId plan
                [(js "nombre", userName); (js "telefono", from message)] w7)
    as Hb.
  rewrite Hrun in Hb. destruct Hb as [_ Hsum].
  pose proof (filter_length_le supported plan) as Hle.
  assert (Hpos : (0 < length plan)%nat).
  { destruct plan; [done|cbn; lia]. }
  assert (Hreach : handleIncomingMessage message w
                   = try_catch (settle conversationId plan r)
                       (fun _ => ret tt) w8).
  { unfold handleIncomingMessage, try_catch.
    rewrite Hme, Hgroup, Hbody, Hblank.
    unfold bind at 1. rewrite Hcontact.
    unfold bind at 1. rewrite Hopen.
    unfold bind at 1. rewrite Hcheck. rewrite Hallowed. cbn [negb].
    unfold bind at 1. rewrite Hmatch.
    unfold bind at 1. rewrite Hupdate.
    unfold bind at 1. unfold gets at 1.
    unfold bind at 1. rewrite Hcreate.
    unfold deliver. unfold bind at 1. rewrite Hfetch.
    destruct plan as [|msg rest]; [done|].
    unfold bind at 1. rewrite Hrun. reflexivity. }
  rewrite Hreach. unfold try_catch, settle.
  destruct (Nat.eqb_spec (sent r) (length plan)) as [Hs|Hs].
  - unfold completeConversation. rewrite (update_conversation_ok _ _ _ Hf).
    cbn [snd bot_conversations with_bot_conversations].
    rewrite lookup_alter_eq, Hrow. cbn.
    eexists _, _. split; [reflexivity|]. split; [reflexivity|].
    repeat split; try reflexivity; lia.
  - destruct (Nat.eqb_spec (failed r) (length plan)) as [Hfl|Hfl].
    + unfold failConversation. rewrite (update_conversation_ok _ _ _ Hf).
      cbn [snd bot_conversations with_bot_conversations].
      rewrite lookup_alter_eq, Hrow. cbn.
      eexists _, _. split; [reflexivity|]. split; [reflexivity|].
      repeat split; try reflexivity; try done.
    + unfold completeConversation. rewrite (update_conversation_ok _ _ _ Hf).
      cbn [snd bot_conversations with_bot_conversations].
      rewrite lookup_alter_eq, Hrow. cbn.
      eexists _, _. split; [reflexivity|]. split; [reflexivity|].
      repeat split; try reflexivity; try done.
Qed.

Lemma settle_follows_outcome_witness :
  exists row',
    bot_conversations
      (snd (@handleIncomingMessage tabulated_runtime incoming
              one_send_fails_world)) !! 1
    = Some row'
    /\ status row' = COMPLETED.
Proof.
  edestruct (@settle_follows_outcome tabulated_runtime incoming)
    with (w := one_send_fails_world)
    as (row & row' & _ & Hrow' & _ & _ & Hmixed).
  - reflexivity.
  - vm_compute. reflexivity.
  - reflexivity.
  - vm_compute. reflexivity.
  - vm_compute. reflexivity.
  - vm_compute. reflexivity.
  - vm_compute. reflexivity.
  - reflexivity.
  - vm_compute. reflexivity.
  - vm_compute. reflexivity.
  - vm_compute. reflexivity.
  - vm_compute. reflexivity.
  - discriminate.
  - vm_compute. reflexivity.
  - vm_compute. reflexivity.
  - exists row'. split; [exact Hrow'|].
    apply Hmixed; vm_compute; discriminate.
Defined.

(** * Messages the chat service does not answer *)

Lemma trim_nil : trim [] = [].
Proof. reflexivity. Qed.

Lemma not_blank text :
  trim text <> [] ->
  Nat.eqb (length text) 0 || Nat.eqb (length (trim text)) 0 = false.
Proof.
  intros Hne. apply orb_false_iff. split; apply Nat.eqb_neq.
  - destruct text; [by destruct Hne|discriminate].
  - destruct (trim text); [done|discriminate].
Qed.

(** X19.  A message of the bot itself, a message of a group, a message
    without a body and a message whose body is only white space are dropped
    before anything is done: the handler returns and the world is the one it
    started from, so not even the contact of the sender is looked up. *)
Theorem ignored_message_is_dropped `{U : UnicodeRuntime}
  (message : IncomingMessage) (w : World) :
  fromMe message = true
  \/ includes (from message) (js "@g.us") = true
  \/ body message = None
  \/ (exists text, body message = Some text /\ trim text = []) ->
  handleIncomingMessage message w = (Val tt, w).
Proof.
  intros Hcase. unfold handleIncomingMessage, try_catch.
  destruct (fromMe message); [reflexivity|].
  destruct (includes (from message) (js "@g.us")); [reflexivity|].
  destruct Hcase as [Hme|[Hgroup|[Hbody|(text & Hbody & Hblank)]]];
    [discriminate Hme|discriminate Hgroup| |]; rewrite Hbody;
    [reflexivity|].
  rewrite Hblank. cbn [length Nat.eqb]. by rewrite orb_true_r.
Qed.

Lemma ignored_message_is_dropped_witness :
  @handleIncomingMessage tabulated_runtime
    {| fromMe := false; from := sender; body := Some (js "  ");
       pushname := None; contact_name := None |} session_lost_world
  = (Val tt, session_lost_world).
Proof.
  apply (@ignored_message_is_dropped tabulated_runtime).
  right. right. right. exists (js "  "). split; reflexivity.
Defined.

(** X20.  A sender who has an open conversation gets no answer: with the
    contact and the conversation looked up, the handler returns after these
    two calls.  No table is written, nothing is delivered, the rate limiter
    is not asked and no campaign is looked for. *)
Theorem open_conversation_drops_message `{U : UnicodeRuntime}
  (message : IncomingMessage) (text : jsstring) (w : World)
  (id : Z) (row : ConversationRow) :
  fromMe message = false ->
  includes (from message) (js "@g.us") = false ->
  body message = Some text ->
  trim text <> [] ->
  faults w (tick w) = None ->
  faults w (S (tick w)) = None ->
  bot_conversations w !! id = Some row ->
  user_phone row = from message ->
  is_active_status (status row) = true ->
  handleIncomingMessage message w = (Val tt, with_tick (S (S (tick w))) w).
Proof.
  intros Hme Hgroup Hbody Hblank F0 F1 Hrow Hphone Hopen.
  unfold handleIncomingMessage, try_catch.
  rewrite Hme, Hgroup, Hbody, (not_blank _ Hblank).
  unfold bind at 1. unfold external at 1. rewrite F0. unfold ret at 1.
  unfold bind at 1. rewrite getActiveConversation_ok by exact F1.
  pose proof (open_rows_head (from message)
                (bot_conversations (with_tick (S (tick w)) w))) as Hhead.
  destruct (head _) as [[id' row']|]; [reflexivity|].
  exfalso. cbn [bot_conversations with_tick] in Hhead.
  specialize (Hhead id row Hrow Hphone). congruence.
Qed.

Lemma open_conversation_drops_message_witness :
  @handleIncomingMessage tabulated_runtime incoming
    (with_faults (fun _ => None) after_session_lost)
  = (Val tt,
     with_tick 15 (with_faults (fun _ => None) after_session_lost)).
Proof.
  eapply (@open_conversation_drops_message tabulated_runtime incoming
            yanachaga_message (with_faults (fun _ => None) after_session_lost)
            1).
  - reflexivity.
  - vm_compute. reflexivity.
  - reflexivity.
  - vm_compute. discriminate.
  - reflexivity.
  - reflexivity.
  - vm_compute. reflexivity.
  - reflexivity.
  - reflexivity.
Defined.

(** * A campaign without messages *)

Lemma idle_run {A} (m : M A) w r w' :
  within idle m -> m w = (r, w') -> idle w w'.
Proof. intros Hm E. specialize (Hm w). by rewrite E in Hm. Qed.

Lemma getActiveConversation_idle userPhone line :
  within idle (getActiveConversation userPhone line).
Proof. unfold getActiveConversation. repeat idle_step. Qed.

Lemma checkRateLimit_idle userPhone : within idle (checkRateLimit userPhone).
Proof.
  unfold checkRateLimit, select_blocked, select_rate_limit, update_unblock.
  repeat idle_step.
Qed.

Lemma detectCampaign_idle `{U : UnicodeRuntime} messageText :
  within idle (detectCampaign messageText).
Proof. unfold detectCampaign. repeat idle_step. Qed.

Lemma updateRateLimit_idle userPhone : within idle (updateRateLimit userPhone).
Proof. unfold updateRateLimit. repeat idle_step. Qed.

Lemma createConversation_idle userPhone userName campaign triggerMessage
  matchedKeyword matchType line :
  within idle
    (createConversation userPhone userName campaign triggerMessage
       matchedKeyword matchType line).
Proof.
  unfold createConversation.
  apply (within_external idle);
    [apply idle_trans|intros ? ?; by repeat split|].
  intros w. by repeat split.
Qed.

Lemma getCampaignMessages_idle campaign :
  within idle (getCampaignMessages campaign).
Proof. unfold getCampaignMessages. repeat idle_step. Qed.

Lemma update_conversation_idle conversationId f :
  within idle (update_conversation conversationId f).
Proof. unfold update_conversation. repeat idle_step. Qed.

(** X21.  A message that passes every check and triggers a campaign for
    which no message is stored: the handler ends with the call of
    [failConversation] with the reason it gives for that case.  With that
    update done, the conversation it had just opened is FAILED, with that
    reason, an end time and no message sent, and nothing was delivered to
    the sender. *)
Theorem empty_plan_fails_conversation `{U : UnicodeRuntime}
  (message : IncomingMessage) (messageText userName : jsstring)
  (verdict : RateLimitCheck) (found : CampaignMatch) (conversationId : Z)
  (w w1 w2 w3 w4 w5 w6 w7 : World) :
  fromMe message = false ->
  includes (from message) (js "@g.us") = false ->
  body message = Some messageText ->
  trim messageText <> [] ->
  external (ret (or_else (pushname message)
                   (or_else (contact_name message) (js "Usuario")))) w
  = (Val userName, w1) ->
  getActiveConversation (from message) None w1 = (Val None, w2) ->
  checkRateLimit (from message) w2 = (Val verdict, w3) ->
  allowed verdict = true ->
  detectCampaign (Some messageText) w3 = (Val (Some found), w4) ->
  updateRateLimit (from message) w4 = (Val tt, w5) ->
  createConversation (from message) userName (campaignId found) messageText
    (matchedKeyword found) (matchType found) (botPhoneNumber w5) w5
  = (Val conversationId, w6) ->
  getCampaignMessages (campaignId found) w6 = (Val [], w7) ->
  faults w7 (tick w7) = None ->
  handleIncomingMessage message w
  = failConversation conversationId (Some (js "Sin mensajes configurados"))
      w7
  /\ delivered (snd (handleIncomingMessage message w)) = delivered w
  /\ exists row',
       bot_conversations (snd (handleIncomingMessage message w))
         !! conversationId = Some row'
       /\ status row' = FAILED
       /\ failure_reason row' = Some (js "Sin mensajes configurados")
       /\ conversation_ended_at row' = Some (now w7)
       /\ messages_sent row' = 0.
Proof.
  intros Hme Hgroup Hbody Hblank Hcontact Hopen Hcheck Hallowed Hmatch
    Hupdate Hcreate Hfetch Hf.
  assert (Hreach : handleIncomingMessage message w
                   = failConversation conversationId
                       (Some (js "Sin mensajes configurados")) w7).
  { unfold handleIncomingMessage, try_catch.
    rewrite Hme, Hgroup, Hbody, (not_blank _ Hblank).
    unfold bind at 1. rewrite Hcontact.
    unfold bind at 1. rewrite Hopen.
    unfold bind at 1. rewrite Hcheck. rewrite Hallowed. cbn [negb].
    unfold bind at 1. rewrite Hmatch.
    unfold bind at 1. rewrite Hupdate.
    unfold bind at 1. unfold gets at 1.
    unfold bind at 1. rewrite Hcreate.
    unfold deliver. unfold bind at 1. rewrite Hfetch.
    unfold failConversation. rewrite (update_conversation_ok _ _ _ Hf).
    reflexivity. }
  split; [exact Hreach|]. rewrite Hreach.
  assert (Hrow6 : bot_conversations w6 !! conversationId
                  = Some {| user_phone := from message;
                            user_name := userName;
                            conv_campaign_id := campaignId found;
                            trigger_message := messageText;
                            matched_keyword := matchedKeyword found;
                            match_type := matchType found;
                            corse := botPhoneNumber w5;
                            status := INITIATED; messages_sent := 0;
                            conversation_started_at := now w5;
                            last_message_sent_at := None;
                            conversation_ended_at := None;
                            failure_reason := None |}).
  { unfold createConversation, external in Hcreate.
    destruct (faults w5 (tick w5)); [discriminate Hcreate|].
    injection Hcreate as <- <-. cbn. by rewrite lookup_insert_eq. }
  assert (Hrow7 : bot_conversations w7 = bot_conversations w6).
  { unfold getCampaignMessages, external, gets in Hfetch.
    destruct (faults w6 (tick w6)); [discriminate Hfetch|].
    injection Hfetch as _ <-. reflexivity. }
  assert (Hidle : idle w w7).
  { assert (H1 : idle w w1).
    { eapply idle_run; [|exact Hcontact]. repeat idle_step. }
    pose proof (idle_run _ _ _ _ (getActiveConversation_idle _ _) Hopen).
    pose proof (idle_run _ _ _ _ (checkRateLimit_idle _) Hcheck).
    pose proof (idle_run _ _ _ _ (detectCampaign_idle _) Hmatch).
    pose proof (idle_run _ _ _ _ (updateRateLimit_idle _) Hupdate).
    pose proof (idle_run _ _ _ _
                  (createConversation_idle _ _ _ _ _ _ _) Hcreate).
    pose proof (idle_run _ _ _ _ (getCampaignMessages_idle _) Hfetch).
    repeat (eapply idle_trans; [eassumption|]). apply idle_refl. }
  unfold failConversation. rewrite (update_conversation_ok _ _ _ Hf).
  cbn [snd delivered bot_conversations with_bot_conversations with_tick].
  split; [apply Hidle|].
  rewrite lookup_alter_eq, Hrow7, Hrow6. cbn.
  eexists. split; [reflexivity|]. by repeat split.
Qed.

Lemma empty_plan_fails_conversation_witness :
  (status <$>
     bot_conversations
       (snd (@handleIncomingMessage tabulated_runtime incoming
               (with_campaigns [yanachaga_campaign] quiet_world))) !! 1)
  = Some FAILED
  /\ delivered
       (snd (@handleIncomingMessage tabulated_runtime incoming
               (with_campaigns [yanachaga_campaign] quiet_world)))
     = [].
Proof.
  edestruct (@empty_plan_fails_conversation tabulated_runtime incoming)
    with (w := with_campaigns [yanachaga_campaign] quiet_world)
    as (_ & Hd & row' & Hrow' & Hs & _).
  - reflexivity.
  - vm_compute. reflexivity.
  - reflexivity.
  - vm_compute. discriminate.
  - vm_compute. reflexivity.
  - vm_compute. reflexivity.
  - vm_compute. reflexivity.
  - reflexivity.
  - vm_compute. reflexivity.
  - vm_compute. reflexivity.
  - vm_compute. reflexivity.
  - vm_compute. reflexivity.
  - vm_compute. reflexivity.
  - split; [by rewrite Hrow', <- Hs|exact Hd].
Defined.

(** * The address of a media file *)

Lemma replace_first_absent (s pattern replacement : jsstring) :
  includes s pattern = false -> replace_first s pattern replacement = s.
Proof.
  induction s as [|c s IH]; cbn [includes replace_first].
  - intros H. apply orb_false_iff in H as [-> _]. reflexivity.
  - intros H. apply orb_false_iff in H as [-> H]. by rewrite IH.
Qed.

Lemma replace_first_unfold (s pattern replacement : jsstring) :
  replace_first s pattern replacement
  = if startsWith s pattern
    then replacement ++ drop (length pattern) s
    else match s with
         | [] => []
         | c :: s' => c :: replace_first s' pattern replacement
         end.
Proof. by destruct s. Qed.

Lemma startsWith_app (p r : jsstring) : startsWith (p ++ r) p = true.
Proof.
  induction p as [|c p IH]; cbn [app startsWith]; [apply startsWith_nil|].
  by rewrite N.eqb_refl, IH.
Qed.

Lemma drop_prefix {A} (p r : list A) : drop (length p) (p ++ r) = r.
Proof. induction p as [|c p IH]; [reflexivity|exact IH]. Qed.

(** X22.  [buildMediaUrl] returns an address that is already absolute as it
    is.  A stored path under the old campaign directory is moved to the
    directory of the front end, with or without its leading slash, so both
    spellings give the same address.  A path under [media/] that does not
    contain the old directory anywhere, and a path outside [media/], are
    only put behind the base address, less one leading slash. *)
Theorem buildMediaUrl_cases (cfg : Config) (filePath rest : jsstring) :
  (startsWith filePath (js "http://") = true
   \/ startsWith filePath (js "https://") = true ->
   buildMediaUrl cfg filePath = filePath)
  /\ buildMediaUrl cfg (js "/media/campaigns/yanachaga/" ++ rest)
     = frontendMediaUrl cfg ++ js "/post/" ++ rest
  /\ buildMediaUrl cfg (js "media/campaigns/yanachaga/" ++ rest)
     = buildMediaUrl cfg (js "/media/campaigns/yanachaga/" ++ rest)
  /\ (startsWith filePath (js "http://") = false ->
      startsWith filePath (js "https://") = false ->
      startsWith filePath (js "/") = false ->
      (startsWith filePath (js "media/") = false
       \/ includes filePath (js "media/campaigns/yanachaga/") = false) ->
      buildMediaUrl cfg filePath = frontendMediaUrl cfg ++ js "/" ++ filePath
      /\ buildMediaUrl cfg (js "/" ++ filePath)
         = frontendMediaUrl cfg ++ js "/" ++ filePath).
Proof.
  split; [|split; [|split]].
  - unfold buildMediaUrl. intros [-> | ->]; [reflexivity|].
    by rewrite orb_true_r.
  - unfold buildMediaUrl.
    change (js "/media/campaigns/yanachaga/" ++ rest)
      with (js "/" ++ js "media/campaigns/yanachaga/" ++ rest).
    change (startsWith (js "/" ++ js "media/campaigns/yanachaga/" ++ rest)
              (js "http://")) with false.
    change (startsWith (js "/" ++ js "media/campaigns/yanachaga/" ++ rest)
              (js "https://")) with false.
    cbn [orb].
    rewrite (startsWith_app (js "/")).
    rewrite (drop_prefix (js "/")).
    change (js "media/campaigns/yanachaga/" ++ rest)
      with (js "media/" ++ js "campaigns/yanachaga/" ++ rest) at 1.
    rewrite (startsWith_app (js "media/")).
    by rewrite replace_first_unfold, startsWith_app, drop_prefix.
  - unfold buildMediaUrl.
    change (js "/media/campaigns/yanachaga/" ++ rest)
      with (js "/" ++ js "media/campaigns/yanachaga/" ++ rest).
    change (startsWith (js "/" ++ js "media/campaigns/yanachaga/" ++ rest)
              (js "http://")) with false.
    change (startsWith (js "/" ++ js "media/campaigns/yanachaga/" ++ rest)
              (js "https://")) with false.
    change (startsWith (js "media/campaigns/yanachaga/" ++ rest)
              (js "http://")) with false.
    change (startsWith (js "media/campaigns/yanachaga/" ++ rest)
              (js "https://")) with false.
    change (startsWith (js "media/campaigns/yanachaga/" ++ rest)
              (js "/")) with false.
    cbn [orb].
    rewrite (startsWith_app (js "/")).
    by rewrite (drop_prefix (js "/")).
  - intros Hhttp Hhttps Hslash Hmedia.
    assert (Hclean :
      (if startsWith filePath (js "media/")
       then replace_first filePath (js "media/campaigns/yanachaga/")
              (js "post/")
       else filePath) = filePath).
    { destruct Hmedia as [-> | Habsent]; [reflexivity|].
      rewrite (replace_first_absent _ _ _ Habsent).
      by destruct (startsWith filePath (js "media/")). }
    split.
    + unfold buildMediaUrl. rewrite Hhttp, Hhttps, Hslash. cbn [orb].
      by rewrite Hclean.
    + unfold buildMediaUrl.
      change (startsWith (js "/" ++ filePath) (js "http://")) with false.
      change (startsWith (js "/" ++ filePath) (js "https://")) with false.
      cbn [orb]. rewrite (startsWith_app (js "/")).
      rewrite (drop_prefix (js "/")). by rewrite Hclean.
Qed.

(** * Galleries *)

Lemma gallery_loop_returns to mediaFiles :
  forall lastMessageId w,
    exists r chunk,
      fst (gallery_loop to mediaFiles lastMessageId w) = Val r
      /\ delivered (snd (gallery_loop to mediaFiles lastMessageId w))
         = delivered w ++ chunk
      /\ (length chunk <= length mediaFiles)%nat
      /\ ((chunk = [] /\ r = lastMessageId)
          \/ (chunk <> [] /\ exists n, r = Some (Serialized n))).
Proof.
  induction mediaFiles as [|mediaFile rest IH]; intros lastMessageId w.
  - exists lastMessageId, []. cbn. rewrite app_nil_r. repeat split; auto.
  - cbn [gallery_loop]. unfold downloadMediaFromUrl, sendMessage, sleep.
    run_monad.
    destruct (faults w (tick w)) eqn:F0.
    { destruct (IH lastMessageId (with_tick (S (tick w)) w))
        as (r & chunk & Hr & Hd & Hlen & Hcase).
      exists r, chunk. cbn [length]. repeat split; auto. }
    run_monad.
    destruct (faults w (S (tick w))) eqn:F1.
    { destruct (IH lastMessageId (with_tick (S (S (tick w))) w))
        as (r & chunk & Hr & Hd & Hlen & Hcase).
      exists r, chunk. cbn [length]. repeat split; auto. }
    assert (Hstep : forall w1,
      delivered w1
      = delivered w
        ++ [{| recipient := to;
               payload :=
                 Attachment
                   {| mimetype := or_else (mime_type mediaFile)
                                    (js "image/jpeg");
                      data_from := buildMediaUrl (config w)
                                     (file_path mediaFile);
                      filename := js "file" |};
               options := None |}] ->
      exists r chunk,
        fst (gallery_loop to rest
               (Some (Serialized (length (delivered w)))) w1) = Val r
        /\ delivered
             (snd (gallery_loop to rest
                     (Some (Serialized (length (delivered w)))) w1))
           = delivered w ++ chunk
        /\ (length chunk <= length (mediaFile :: rest))%nat
        /\ ((chunk = [] /\ r = lastMessageId)
            \/ (chunk <> [] /\ exists n, r = Some (Serialized n)))).
    { intros w1 Hd1.
      destruct (IH (Some (Serialized (length (delivered w)))) w1)
        as (r & chunk & Hr & Hd & Hlen & Hcase).
      eexists r, (_ :: chunk). split; [exact Hr|].
      split; [rewrite Hd, Hd1, <- app_assoc; reflexivity|].
      split; [cbn [length]; lia|]. right. split; [discriminate|].
      destruct Hcase as [[_ ->]|[_ Hn]]; eauto. }
    destruct rest as [|next rest]; run_monad; by apply Hstep.
Qed.

(** X23.  Once its media rows are read, [sendGalleryMessage] does not throw,
    whatever fails afterwards: it returns an identifier, having delivered at
    most one message for each media row.  The identifier is the placeholder
    made from the clock exactly when no image was delivered, so a gallery of
    which nothing reached the sender still returns as sent. *)
Theorem gallery_never_fails_once_started (userPhone : jsstring)
  (message : MessageRow) (w : World) (mediaFile : MediaRow)
  (rest : list MediaRow) :
  faults w (tick w) = None ->
  media_rows (message_media w) (message_id message) = mediaFile :: rest ->
  exists id chunk,
    fst (sendGalleryMessage userPhone message w) = Val id
    /\ delivered (snd (sendGalleryMessage userPhone message w))
       = delivered w ++ chunk
    /\ (length chunk <= length (mediaFile :: rest))%nat
    /\ (chunk = [] <-> exists t, id = GalleryPlaceholder t).
Proof.
  intros F0 Hrows. unfold sendGalleryMessage, getMessageMedia.
  unfold media_rows in Hrows. run_monad. rewrite F0. run_monad.
  rewrite Hrows.
  destruct (gallery_loop_returns userPhone (mediaFile :: rest) None
              (with_tick (S (tick w)) w))
    as (r & chunk & Hr & Hd & Hlen & Hcase).
  destruct (gallery_loop userPhone (mediaFile :: rest) None _)
    as [[last|e] w1]; cbn [fst snd] in *; [|discriminate Hr].
  injection Hr as ->.
  destruct Hcase as [[-> ->]|[Hne (n & ->)]].
  - eexists _, []. repeat split; eauto.
  - exists (Serialized n), chunk. split; [reflexivity|].
    split; [exact Hd|]. split; [exact Hlen|].
    split; [done|]. by intros [t Ht].
Qed.

Lemma gallery_never_fails_once_started_witness :
  exists t,
    fst (sendGalleryMessage sender (plan_item 1 1 "GALLERY" "")
           (with_tick 1 gallery_world))
    = Val (GalleryPlaceholder t)
    /\ delivered (snd (sendGalleryMessage sender (plan_item 1 1 "GALLERY" "")
                         (with_tick 1 gallery_world)))
       = [].
Proof.
  edestruct (gallery_never_fails_once_started sender
               (plan_item 1 1 "GALLERY" "") (with_tick 1 gallery_world))
    as (id & chunk & Hid & Hd & _ & Hiff).
  - reflexivity.
  - vm_compute. reflexivity.
  - assert (Hnone : chunk = []).
    { vm_compute in Hd. by destruct chunk. }
    destruct (proj1 Hiff Hnone) as [t ->]. exists t.
    split; [exact Hid|]. by rewrite Hd, Hnone.
Defined.
